(** * Broken axis: range segmentation, break positions and the draw pass

    A shallow embedding of [widgets/axisbroken.py] (class [AxisBroken],
    Python 2).  The widget subclasses [axis.Axis]; the inherited methods
    it calls are not part of the embedded file and are collected in the
    interface [AxisBase] below.

    Numbers.  The settings lists and all positions are Python floats.
    They are embedded as exact rationals [Q]: every statement below is
    about the arithmetic the code writes down, not about binary64
    rounding.  Lists obtained by arithmetic are compared with [Qeq]
    (component-wise, [Qlist_eq]); lists that only move values around
    are compared with [=].

    Integer division [len(points) / 2] is Python 2 floor division on
    non-negative ints, i.e. [Nat.div].

    Contents: the widget state and the methods; definitions used to
    state properties; the drawing helpers of [utils/slowfuncs.py]
    (module [SlowFuncs]) and the document of [document/doc.py] (module
    [Doc]); a small program logic for the method bodies; the layout of
    the pieces ([computePlottedRange], [updateAxisLocation],
    [switchBreak]); the draw pass ([_axisDraw], [_autoMirrorDraw]) and
    every way out of it; further properties of the layout and of the
    draw pass; text suppression piece by piece; facts about the
    drawing helpers and about the document. *)

From Stdlib Require Import List Bool Arith PeanoNat ZArith QArith Qminmax Lia Lqa
  Permutation.
From Stdlib Require String.
Import ListNotations.

Set Implicit Arguments.
Open Scope Q_scope.

(** ** Python lists of floats *)

(** Component-wise equality of two lists of rationals. *)
Definition Qlist_eq (l1 l2 : list Q) : Prop := Forall2 Qeq l1 l2.

(** Equality of two (start, stop) pairs of rationals. *)
Definition Qpair_eq (p1 p2 : Q * Q) : Prop :=
  fst p1 == fst p2 /\ snd p1 == snd p2.

(** [list.sort()] on floats: the stable ascending sort.  An element is
    placed before the first element of the sorted tail that is not
    smaller than it, so equal elements keep their order. *)
Fixpoint py_insert (x : Q) (l : list Q) : list Q :=
  match l with
  | [] => [x]
  | y :: l' => if Qle_bool x y then x :: y :: l' else y :: py_insert x l'
  end.

Fixpoint py_sort (l : list Q) : list Q :=
  match l with
  | [] => []
  | x :: l' => py_insert x (py_sort l')
  end.

(** [max(a, b)] of the Python builtin: the second argument wins only
    when it is strictly larger. *)
Definition py_max (a b : Q) : Q :=
  match a ?= b with
  | Lt => b
  | _ => a
  end.

(** An int used in float arithmetic. *)
Definition Qnat (n : nat) : Q := inject_Z (Z.of_nat n).

(** ** Settings and widget state *)

Inductive Direction := horizontal | vertical.

(** The settings the broken axis reads: the two [FloatList]s it adds
    ([breakPoints], [breakPosns]) and those of the inherited axis that
    [updateAxisLocation], [_axisDraw] and [_autoMirrorDraw] consult. *)
Record Settings := {
  breakPoints : list Q;
  breakPosns : list Q;
  direction : Direction;
  otherPosition : Q;
  autoMirror : bool;
  Line_hide : bool;
  MinorTicks_hide : bool;
  MajorTicks_hide : bool;
  TickLabels_hide : bool;
  Label_hide : bool
}.

(** Plot bounds [posn = (x1, y1, x2, y2)]; [bounds[0]] .. [bounds[3]]. *)
Record Bounds := { b0 : Q; b1 : Q; b2 : Q; b3 : Q }.

(** The attributes of an [AxisBroken] instance.  [location] records what
    the inherited [Axis.updateAxisLocation] was last given (it derives
    [coordParr1], [coordParr2] and [coordPerp] from these).

    [plottedrange] is a two-element list in the source.  The methods
    below only ever rebind the attribute (to a fresh list, or to the
    list [orig_plottedrange] refers to) and never update it in place,
    so a pair of values stands for it. *)
Record Axis := {
  settings : Settings;
  rangeswitch : option nat;
  plottedrange : Q * Q;
  orig_plottedrange : Q * Q;
  breakvnum : nat;
  breakvlist : list Q;
  breakvstarts : list Q;
  breakvstops : list Q;
  posstarts : list Q;
  posstops : list Q;
  minorticklist : list (list Q);
  majorticklist : list (list Q);
  minortickscalc : list Q;
  majortickscalc : list Q;
  _delta_axis : Q;
  coordReflected : bool;
  location : Bounds * option Q
}.

(** Attribute assignments [self.x = v]. *)
Definition set_rangeswitch v a :=
  Build_Axis (settings a) v (plottedrange a) (orig_plottedrange a)
    (breakvnum a) (breakvlist a) (breakvstarts a) (breakvstops a)
    (posstarts a) (posstops a) (minorticklist a) (majorticklist a)
    (minortickscalc a) (majortickscalc a) (_delta_axis a)
    (coordReflected a) (location a).
Definition set_plottedrange v a :=
  Build_Axis (settings a) (rangeswitch a) v (orig_plottedrange a)
    (breakvnum a) (breakvlist a) (breakvstarts a) (breakvstops a)
    (posstarts a) (posstops a) (minorticklist a) (majorticklist a)
    (minortickscalc a) (majortickscalc a) (_delta_axis a)
    (coordReflected a) (location a).
Definition set_orig_plottedrange v a :=
  Build_Axis (settings a) (rangeswitch a) (plottedrange a) v
    (breakvnum a) (breakvlist a) (breakvstarts a) (breakvstops a)
    (posstarts a) (posstops a) (minorticklist a) (majorticklist a)
    (minortickscalc a) (majortickscalc a) (_delta_axis a)
    (coordReflected a) (location a).
Definition set_breakvnum v a :=
  Build_Axis (settings a) (rangeswitch a) (plottedrange a)
    (orig_plottedrange a) v (breakvlist a)
    (breakvstarts a) (breakvstops a)
    (posstarts a) (posstops a) (minorticklist a) (majorticklist a)
    (minortickscalc a) (majortickscalc a) (_delta_axis a)
    (coordReflected a) (location a).
Definition set_breakvlist v a :=
  Build_Axis (settings a) (rangeswitch a) (plottedrange a)
    (orig_plottedrange a) (breakvnum a) v
    (breakvstarts a) (breakvstops a)
    (posstarts a) (posstops a) (minorticklist a) (majorticklist a)
    (minortickscalc a) (majortickscalc a) (_delta_axis a)
    (coordReflected a) (location a).
Definition set_breakvstarts v a :=
  Build_Axis (settings a) (rangeswitch a) (plottedrange a)
    (orig_plottedrange a) (breakvnum a) (breakvlist a)
    v (breakvstops a)
    (posstarts a) (posstops a) (minorticklist a) (majorticklist a)
    (minortickscalc a) (majortickscalc a) (_delta_axis a)
    (coordReflected a) (location a).
Definition set_breakvstops v a :=
  Build_Axis (settings a) (rangeswitch a) (plottedrange a)
    (orig_plottedrange a) (breakvnum a) (breakvlist a)
    (breakvstarts a) v
    (posstarts a) (posstops a) (minorticklist a) (majorticklist a)
    (minortickscalc a) (majortickscalc a) (_delta_axis a)
    (coordReflected a) (location a).
Definition set_pos (starts stops : list Q) a :=
  Build_Axis (settings a) (rangeswitch a) (plottedrange a)
    (orig_plottedrange a) (breakvnum a) (breakvlist a)
    (breakvstarts a) (breakvstops a) starts stops
    (minorticklist a) (majorticklist a)
    (minortickscalc a) (majortickscalc a) (_delta_axis a)
    (coordReflected a) (location a).
Definition set_ticklists (minor major : list (list Q)) a :=
  Build_Axis (settings a) (rangeswitch a) (plottedrange a)
    (orig_plottedrange a) (breakvnum a) (breakvlist a)
    (breakvstarts a) (breakvstops a) (posstarts a) (posstops a)
    minor major
    (minortickscalc a) (majortickscalc a) (_delta_axis a)
    (coordReflected a) (location a).
Definition set_tickscalc (minor major : list Q) a :=
  Build_Axis (settings a) (rangeswitch a) (plottedrange a)
    (orig_plottedrange a) (breakvnum a) (breakvlist a)
    (breakvstarts a) (breakvstops a) (posstarts a) (posstops a)
    (minorticklist a) (majorticklist a)
    minor major (_delta_axis a)
    (coordReflected a) (location a).
Definition set_delta_axis v a :=
  Build_Axis (settings a) (rangeswitch a) (plottedrange a)
    (orig_plottedrange a) (breakvnum a) (breakvlist a)
    (breakvstarts a) (breakvstops a) (posstarts a) (posstops a)
    (minorticklist a) (majorticklist a)
    (minortickscalc a) (majortickscalc a) v
    (coordReflected a) (location a).
Definition set_location v a :=
  Build_Axis (settings a) (rangeswitch a) (plottedrange a)
    (orig_plottedrange a) (breakvnum a) (breakvlist a)
    (breakvstarts a) (breakvstops a) (posstarts a) (posstops a)
    (minorticklist a) (majorticklist a)
    (minortickscalc a) (majortickscalc a) (_delta_axis a)
    (coordReflected a) v.

(** ** The drawing surface and the inherited axis *)

(** Calls that reach the painter (directly or through the plot helper),
    in the order they are issued.  The painter is an opaque drawing
    surface; only the sequence of calls is recorded.  [texttorender],
    the list the label routines fill and [_drawTextWithoutOverlap]
    consumes, is not represented. *)
Inductive Call :=
| call_drawAxisLine (loc : Bounds * option Q)
| call_drawMinorTicks (coordminorticks : list Q)
| call_drawMajorTicks (coordticks : list Q)
| call_suppressText (parentposn : Bounds) (outerbounds : option Bounds)
| call_drawTickLabels (coordticks : list Q) (sign : Z)
| call_drawAxisLabel (sign : Z) (delta : Q)
| call_drawTextWithoutOverlap
| call_setControlGraph (posn : Bounds).

(** What a method invocation can raise. *)
Inductive Exn :=
| IndexError          (* list index out of range *)
| UnboundLocalError   (* local variable referenced before assignment *)
| SurfaceError.       (* the drawing surface failed *)

(** The methods of [axis.Axis] that [AxisBroken] calls and does not
    override.  Their code is outside the embedded file; each is a
    parameter giving the part of its behaviour the broken axis uses. *)
Class AxisBase := {
  (** the range [Axis.computePlottedRange] stores in [self.plottedrange] *)
  Axis_computePlottedRange : Axis -> Q * Q;
  (** [computeTicks(allowauto)]: the (major, minor) ticks computed for a
      plotted range under the given settings *)
  Axis_computeTicks : Settings -> Q * Q -> bool -> list Q * list Q;
  (** [_graphToPlotter]: graph values to plotter coordinates, for the
      current range and location *)
  _graphToPlotter : Axis -> list Q -> list Q;
  _shouldAutoMirror : Axis -> bool;
  Axis_suppressText : Axis -> Bounds -> option Bounds -> bool;
  (** the value [_drawTickLabels] leaves in [self._delta_axis] *)
  tickLabelsDelta : Axis -> list Q -> Q;
  (** whether the surface raises on a call, given the calls so far *)
  surfaceRaises : list Call -> Call -> bool
}.

(** The widget together with the surface it draws on. *)
Record World := { self : Axis; calls : list Call }.

(** ** A state-and-exception monad for method bodies

    A raised exception keeps the mutations made so far, as in Python. *)

Inductive Outcome (A : Type) :=
| Return (a : A)
| Raise (e : Exn).
Arguments Raise {A} e.

Definition M (A : Type) : Type := World -> Outcome A * World.

Definition ret {A} (a : A) : M A := fun w => (Return a, w).

Definition bind {A B} (m : M A) (f : A -> M B) : M B :=
  fun w =>
    match m w with
    | (Return a, w') => f a w'
    | (Raise e, w') => (Raise e, w')
    end.

Definition raise {A} (e : Exn) : M A := fun w => (Raise e, w).

Declare Scope monad_scope.
Delimit Scope monad_scope with monad.
Notation "x <- c1 ;; c2" := (bind c1 (fun x => c2))
  (at level 61, c1 at next level, right associativity) : monad_scope.
Notation "c1 ;; c2" := (bind c1 (fun _ => c2))
  (at level 61, right associativity) : monad_scope.
Open Scope monad_scope.

Definition get_self : M Axis := fun w => (Return (self w), w).

Definition assign (f : Axis -> Axis) : M unit :=
  fun w => (Return tt, {| self := f (self w); calls := calls w |}).

Definition when (b : bool) (m : M unit) : M unit :=
  if b then m else ret tt.

(** [l[i]] for a non-negative index. *)
Definition index {A} (l : list A) (i : nat) : M A :=
  match nth_error l i with
  | Some x => ret x
  | None => raise IndexError
  end.

(** Reading a local variable that a loop body may not have bound. *)
Definition local {A} (v : option A) : M A :=
  match v with
  | Some x => ret x
  | None => raise UnboundLocalError
  end.

(** [for x in l: acc = body(acc, x)], the locals a loop body rebinds
    being threaded as [acc]. *)
Fixpoint foldM {A B} (body : A -> B -> M A) (l : list B) (acc : A) : M A :=
  match l with
  | [] => ret acc
  | x :: l' => acc' <- body acc x ;; foldM body l' acc'
  end.

Definition for_ {B} (l : list B) (body : B -> M unit) : M unit :=
  foldM (fun _ x => body x) l tt.

(** [[f(x) for x in l]] *)
Fixpoint mapM {A B} (f : A -> M B) (l : list A) : M (list B) :=
  match l with
  | [] => ret []
  | x :: l' => y <- f x ;; ys <- mapM f l' ;; ret (y :: ys)
  end.

Definition Qltb (x y : Q) : bool :=
  match x ?= y with
  | Lt => true
  | _ => false
  end.

(** ** Break positions (lines 97-123 of the source) *)

(** [breakgap = 0.05]: fractional difference between starts and stops. *)
Definition breakgap : Q := 0.05.

(** [N.arange(1, n+1) * ((1. - start) / (n+1) + start)], as a list. *)
Definition synthesized (start : Q) (n : nat) : list Q :=
  map (fun k => Qnat k * ((1 - start) / Qnat (n + 1) + start)) (seq 1 n).

(** The break positions used: the sorted setting, completed when it has
    fewer entries than there are breaks. *)
Definition resolve_posns (points breakPosns : list Q) : list Q :=
  let num := (length points / 2)%nat in
  let posns := py_sort breakPosns in
  if (length posns <? num)%nat then
    let start := if negb (length posns =? 0)%nat then last posns 0 else 0 in
    posns ++ synthesized start (num - length posns)
  else posns.

(** The loop collating the fractional positions where the pieces of the
    axis start and stop, and the final [stops.append(1.)]. *)
Definition collate (posns : list Q) : list Q * list Q :=
  let '(starts, stops) :=
    fold_left
      (fun '(starts, stops) pos =>
         (starts ++ [pos + breakgap / 2], stops ++ [pos - breakgap / 2]))
      posns ([0], []) in
  (starts, stops ++ [1]).

(** ** The methods of [AxisBroken] *)

Section AxisBroken.

Context {base : AxisBase}.

(** A call on the drawing surface: it is recorded, or the surface
    raises and the exception propagates. *)
Definition call (c : Call) : M unit :=
  fun w =>
    if surfaceRaises (calls w) c
    then (Raise SurfaceError, w)
    else (Return tt, {| self := self w; calls := calls w ++ [c] |}).

(** *** Inherited methods, as used here *)

Definition Axis_updateAxisLocation (bounds : Bounds) (otherposition : option Q)
  : M unit :=
  assign (set_location (bounds, otherposition)).

Definition computeTicks (allowauto : bool) : M unit :=
  a <- get_self ;;
  let '(major, minor) := Axis_computeTicks (settings a) (plottedrange a) allowauto in
  assign (set_tickscalc minor major).

Definition _drawAxisLine : M unit :=
  a <- get_self ;; call (call_drawAxisLine (location a)).

Definition _drawMinorTicks (coordminorticks : list Q) : M unit :=
  call (call_drawMinorTicks coordminorticks).

Definition _drawMajorTicks (coordticks : list Q) : M unit :=
  call (call_drawMajorTicks coordticks).

Definition _suppressText (parentposn : Bounds) (outerbounds : option Bounds)
  : M bool :=
  call (call_suppressText parentposn outerbounds) ;;
  a <- get_self ;;
  ret (Axis_suppressText a parentposn outerbounds).

Definition _drawTickLabels (coordticks : list Q) (sign : Z) : M unit :=
  call (call_drawTickLabels coordticks sign) ;;
  a <- get_self ;;
  assign (set_delta_axis (tickLabelsDelta a coordticks)).

Definition _drawAxisLabel (sign : Z) : M unit :=
  a <- get_self ;; call (call_drawAxisLabel sign (_delta_axis a)).

Definition _drawTextWithoutOverlap : M unit :=
  call call_drawTextWithoutOverlap.

Definition setControlGraph (posn : Bounds) : M unit :=
  call (call_setControlGraph posn).

(** *** [updateAxisLocation]: recalculate broken axis positions *)

Definition updateAxisLocation (bounds : Bounds) (otherposition : option Q)
  : M unit :=
  a <- get_self ;;
  let s := settings a in
  bounds <-
    match rangeswitch a with
    | None => ret bounds
    | Some rs =>
        match direction s with
        | horizontal =>
            let d := b2 bounds - b0 bounds in
            pstart <- index (posstarts a) rs ;;
            let n0 := b0 bounds + d * pstart in
            pstop <- index (posstops a) rs ;;
            let n2 := b0 bounds + d * pstop in
            ret {| b0 := n0; b1 := b1 bounds; b2 := n2; b3 := b3 bounds |}
        | vertical =>
            let d := b1 bounds - b3 bounds in
            pstop <- index (posstops a) rs ;;
            let n1 := b3 bounds + d * pstop in
            pstart <- index (posstarts a) rs ;;
            let n3 := b3 bounds + d * pstart in
            ret {| b0 := b0 bounds; b1 := n1; b2 := b2 bounds; b3 := n3 |}
        end
    end ;;
  Axis_updateAxisLocation bounds otherposition ;;
  (* actually start and stop values on axis *)
  let posns := resolve_posns (breakPoints s) (breakPosns s) in
  let '(starts, stops) := collate posns in
  assign (set_pos starts stops).

(** *** [switchBreak]: switch to break given (or None to disable) *)

Definition switchBreak (num : option nat) (posn : Bounds)
    (otherposition : option Q) : M unit :=
  assign (set_rangeswitch num) ;;
  match num with
  | None =>
      a <- get_self ;;
      assign (set_plottedrange (orig_plottedrange a))
  | Some n =>
      a <- get_self ;;
      vstart <- index (breakvstarts a) n ;;
      vstop <- index (breakvstops a) n ;;
      assign (set_plottedrange (vstart, vstop))
  end ;;
  updateAxisLocation posn otherposition.

(** *** [computePlottedRange] *)

(** One iteration of the loop computing the ticks of each range
    (lines 143-146). *)
Definition computeSegmentTicks (i : nat) : M unit :=
  a <- get_self ;;
  vstart <- index (breakvstarts a) i ;;
  vstop <- index (breakvstops a) i ;;
  assign (set_plottedrange (vstart, vstop)) ;;
  computeTicks false ;;
  a <- get_self ;;
  assign (set_ticklists (minorticklist a ++ [minortickscalc a])
                        (majorticklist a ++ [majortickscalc a])).

Definition computePlottedRange : M unit :=
  a <- get_self ;;
  assign (set_plottedrange (Axis_computePlottedRange a)) ;;
  a <- get_self ;;
  assign (set_orig_plottedrange (plottedrange a)) ;;
  let points := breakPoints (settings a) in
  let num := (length points / 2 + 1)%nat in
  assign (set_breakvnum num) ;;
  assign (set_breakvlist
            ([fst (plottedrange a)] ++ firstn (length points / 2 * 2) points
               ++ [snd (plottedrange a)])) ;;
  (* axis values for starting and stopping *)
  a <- get_self ;;
  vstarts <- mapM (fun i => index (breakvlist a) (i * 2)) (seq 0 num) ;;
  assign (set_breakvstarts vstarts) ;;
  a <- get_self ;;
  vstops <- mapM (fun i => index (breakvlist a) (i * 2 + 1)) (seq 0 num) ;;
  assign (set_breakvstops vstops) ;;
  (* compute ticks for each range *)
  assign (set_ticklists [] []) ;;
  a <- get_self ;;
  for_ (seq 0 (breakvnum a)) computeSegmentTicks ;;
  a <- get_self ;;
  assign (set_plottedrange (orig_plottedrange a)).

(** *** [_autoMirrorDraw]: mirror axis to opposite side of graph *)

Definition mirrorSegment (s : Settings) (posn : Bounds) (otheredge : Q)
    (i : nat) : M unit :=
  switchBreak (Some i) posn (Some otheredge) ;;
  (* plot coordinates of ticks *)
  a <- get_self ;;
  majorticks <- index (majorticklist a) i ;;
  let coordticks := _graphToPlotter a majorticks in
  minorticks <- index (minorticklist a) i ;;
  let coordminorticks := _graphToPlotter a minorticks in
  when (negb (MinorTicks_hide s)) (_drawMinorTicks coordminorticks) ;;
  when (negb (MajorTicks_hide s)) (_drawMajorTicks coordticks).

Definition _autoMirrorDraw (posn : Bounds) : M unit :=
  a <- get_self ;;
  if negb (_shouldAutoMirror a) then ret tt else
  (* swap axis to other side *)
  let s := settings a in
  let otheredge := if Qltb (otherPosition s) 0.5 then 1 else 0 in
  (* temporarily change position of axis to other side for drawing *)
  updateAxisLocation posn (Some otheredge) ;;
  when (negb (Line_hide s)) _drawAxisLine ;;
  a <- get_self ;;
  for_ (seq 0 (breakvnum a)) (mirrorSegment s posn otheredge) ;;
  switchBreak None posn None.

(** *** [_axisDraw]: main drawing routine of axis *)

(** One iteration of the loop over the pieces (lines 205-229).  The
    locals [max_delta] and [suppresstext] survive the iteration;
    [suppresstext] is unbound before the first one. *)
Definition drawSegment (s : Settings) (posn parentposn : Bounds)
    (outerbounds : option Bounds) (sign : Z)
    (locals : Q * option bool) (i : nat) : M (Q * option bool) :=
  let max_delta := fst locals in
  switchBreak (Some i) posn None ;;
  computeTicks false ;;
  (* plot coordinates of ticks *)
  a <- get_self ;;
  majorticks <- index (majorticklist a) i ;;
  let coordticks := _graphToPlotter a majorticks in
  minorticks <- index (minorticklist a) i ;;
  let coordminorticks := _graphToPlotter a minorticks in
  assign (set_delta_axis 0) ;;
  (* plot minor ticks *)
  when (negb (MinorTicks_hide s)) (_drawMinorTicks coordminorticks) ;;
  (* plot major ticks *)
  when (negb (MajorTicks_hide s)) (_drawMajorTicks coordticks) ;;
  (* plot tick labels *)
  suppresstext <- _suppressText parentposn outerbounds ;;
  when (negb (TickLabels_hide s) && negb suppresstext)
       (_drawTickLabels coordticks sign) ;;
  (* this is the maximum delta of any of the breaks *)
  a <- get_self ;;
  ret (py_max max_delta (_delta_axis a), Some suppresstext).

(** Lines 203-232: the loop, the return to the unbroken axis and the
    assignment of [self._delta_axis].  The result is the local
    [suppresstext] as the loop leaves it. *)
Definition drawSegments (s : Settings) (posn parentposn : Bounds)
    (outerbounds : option Bounds) (sign : Z) : M (option bool) :=
  let max_delta := 0 in
  a <- get_self ;;
  locals <- foldM (drawSegment s posn parentposn outerbounds sign)
                  (seq 0 (breakvnum a)) (max_delta, None) ;;
  switchBreak None posn None ;;
  assign (set_delta_axis (fst locals)) ;;
  ret (snd locals).

Definition _axisDraw (posn parentposn : Bounds) (outerbounds : option Bounds)
  : M unit :=
  a <- get_self ;;
  let s := settings a in
  (* multiplication factor if reflection on the axis is requested *)
  let sign := 1%Z in
  let sign := match direction s with
              | vertical => (sign * -1)%Z
              | horizontal => sign
              end in
  let sign := if coordReflected a then (sign * -1)%Z else sign in
  (* plot the line along the axis *)
  when (negb (Line_hide s)) _drawAxisLine ;;
  suppresstext <- drawSegments s posn parentposn outerbounds sign ;;
  (* draw an axis label *)
  (if negb (Label_hide s) then
     suppresstext <- local suppresstext ;;
     when (negb suppresstext) (_drawAxisLabel sign)
   else ret tt) ;;
  (* mirror axis at other side of plot *)
  when (autoMirror s) (_autoMirrorDraw posn) ;;
  _drawTextWithoutOverlap ;;
  (* make control item for axis *)
  setControlGraph posn.

End AxisBroken.

(** ** Derived views: the pieces of the axis *)

(** The value range [switchBreak] installs for piece [i]. *)
Definition valueRange (a : Axis) (i : nat) : option (Q * Q) :=
  match nth_error (breakvstarts a) i, nth_error (breakvstops a) i with
  | Some vstart, Some vstop => Some (vstart, vstop)
  | _, _ => None
  end.

(** The fractional positions [updateAxisLocation] uses for piece [i]. *)
Definition posRange (a : Axis) (i : nat) : option (Q * Q) :=
  match nth_error (posstarts a) i, nth_error (posstops a) i with
  | Some pstart, Some pstop => Some (pstart, pstop)
  | _, _ => None
  end.

(** ** A program logic for method bodies

    [wp m Q E w]: run from [w], [m] either returns [a] in a world
    satisfying [Q a], or raises [e] in a world satisfying [E e]. *)

Definition wp {A} (m : M A) (Q : A -> World -> Prop) (E : Exn -> World -> Prop)
    (w : World) : Prop :=
  match m w with
  | (Return a, w') => Q a w'
  | (Raise e, w') => E e w'
  end.

(** ** Specification-side definitions *)

(** The flat list of values: the plotted range with the paired break
    points in between. *)
Definition flat_values (full : Q * Q) (points : list Q) : list Q :=
  [fst full] ++ firstn (length points / 2 * 2) points ++ [snd full].

(** The pixel bounds substituted while piece [(pstart, pstop)] is active
    (lines 82-93). *)
Definition segmentBounds (d : Direction) (bounds : Bounds) (pstart pstop : Q)
  : Bounds :=
  match d with
  | horizontal =>
      {| b0 := b0 bounds + (b2 bounds - b0 bounds) * pstart;
         b1 := b1 bounds;
         b2 := b0 bounds + (b2 bounds - b0 bounds) * pstop;
         b3 := b3 bounds |}
  | vertical =>
      {| b0 := b0 bounds;
         b1 := b3 bounds + (b1 bounds - b3 bounds) * pstop;
         b2 := b2 bounds;
         b3 := b3 bounds + (b1 bounds - b3 bounds) * pstart |}
  end.

(** The state [updateAxisLocation] leaves when the inherited method was
    given [bounds']. *)
Definition located (bounds' : Bounds) (otherposition : option Q) (a : Axis) : Axis :=
  let posns := resolve_posns (breakPoints (settings a)) (breakPosns (settings a)) in
  set_pos (fst (collate posns)) (snd (collate posns))
          (set_location (bounds', otherposition) a).

(** Ascending order, as left by a sort. *)
Fixpoint ascending (l : list Q) : Prop :=
  match l with
  | [] => True
  | x :: l' => match l' with
               | [] => True
               | y :: _ => x <= y
               end /\ ascending l'
  end.

Section Specs.
Context {base : AxisBase}.

(** The state [computePlottedRange] leaves, field by field. *)
Definition computePlottedRange_post (a a' : Axis) : Prop :=
  let s := settings a in
  let full := Axis_computePlottedRange a in
  let num := (length (breakPoints s) / 2 + 1)%nat in
  let flat := flat_values full (breakPoints s) in
  let piece i := (nth (i * 2) flat 0, nth (i * 2 + 1) flat 0) in
  settings a' = s /\
  rangeswitch a' = rangeswitch a /\
  plottedrange a' = full /\
  orig_plottedrange a' = full /\
  breakvnum a' = num /\
  breakvlist a' = flat /\
  breakvstarts a' = map (fun i => fst (piece i)) (seq 0 num) /\
  breakvstops a' = map (fun i => snd (piece i)) (seq 0 num) /\
  posstarts a' = posstarts a /\
  posstops a' = posstops a /\
  majorticklist a' = map (fun i => fst (Axis_computeTicks s (piece i) false)) (seq 0 num) /\
  minorticklist a' = map (fun i => snd (Axis_computeTicks s (piece i) false)) (seq 0 num) /\
  _delta_axis a' = _delta_axis a /\
  coordReflected a' = coordReflected a /\
  location a' = location a.

End Specs.

(** ** Concrete inputs for the examples *)

(** An inherited axis to run the methods on: a fixed data range, major
    ticks at the two ends of the plotted range and a minor tick in the
    middle, the identity projection, no text suppression, a tick-label
    overflow chosen per active piece and a surface that raises as
    [raises] says. *)
Definition example_base (full : Q * Q) (overflow : option nat -> Q)
    (raises : list Call -> Call -> bool) : AxisBase := {|
  Axis_computePlottedRange := fun _ => full;
  Axis_computeTicks := fun _ r _ =>
    if Qle_bool (fst r) (snd r)
    then ([fst r; snd r], [(fst r + snd r) / 2])
    else ([], []);
  _graphToPlotter := fun _ vals => vals;
  _shouldAutoMirror := fun _ => true;
  Axis_suppressText := fun _ _ _ => false;
  tickLabelsDelta := fun a _ => overflow (rangeswitch a);
  surfaceRaises := raises
|}.

Definition never_raises : list Call -> Call -> bool := fun _ _ => false.

Definition example_settings (points posns : list Q) : Settings := {|
  breakPoints := points;
  breakPosns := posns;
  direction := horizontal;
  otherPosition := 0;
  autoMirror := true;
  Line_hide := false;
  MinorTicks_hide := false;
  MajorTicks_hide := false;
  TickLabels_hide := false;
  Label_hide := false
|}.

Definition example_posn : Bounds := {| b0 := 0; b1 := 0; b2 := 200; b3 := 100 |}.

(** The widget as [__init__] leaves it: [rangeswitch] is [None]; the
    other attributes do not exist yet and are assigned by
    [computePlottedRange] and [updateAxisLocation] before anything reads
    them, so the values given here are never observed. *)
Definition initial_axis (s : Settings) : Axis := {|
  settings := s;
  rangeswitch := None;
  plottedrange := (0, 1);
  orig_plottedrange := (0, 1);
  breakvnum := 0;
  breakvlist := [];
  breakvstarts := [];
  breakvstops := [];
  posstarts := [];
  posstops := [];
  minorticklist := [];
  majorticklist := [];
  minortickscalc := [];
  majortickscalc := [];
  _delta_axis := 0;
  coordReflected := false;
  location := (example_posn, None)
|}.

Definition initial_world (s : Settings) : World :=
  {| self := initial_axis s; calls := [] |}.

(** Following the words of the specification, for comparison with
    [synthesized]: the [n] positions that evenly subdivide the remaining
    fraction [[start, 1]] of the axis length. *)
Definition evenly_subdivided (start : Q) (n : nat) : list Q :=
  map (fun k => start + Qnat k * ((1 - start) / Qnat (n + 1))) (seq 1 n).

(** ** Observing a draw pass *)

(** The attributes that no method assigns during a draw pass. *)
Definition stable (a a' : Axis) : Prop :=
  settings a' = settings a /\
  orig_plottedrange a' = orig_plottedrange a /\
  breakvnum a' = breakvnum a /\
  breakvlist a' = breakvlist a /\
  breakvstarts a' = breakvstarts a /\
  breakvstops a' = breakvstops a /\
  minorticklist a' = minorticklist a /\
  majorticklist a' = majorticklist a /\
  coordReflected a' = coordReflected a.

Definition is_suppressText (c : Call) : bool :=
  match c with call_suppressText _ _ => true | _ => false end.

Definition is_drawTickLabels (c : Call) : bool :=
  match c with call_drawTickLabels _ _ => true | _ => false end.

Definition is_drawAxisLabel (c : Call) : bool :=
  match c with call_drawAxisLabel _ _ => true | _ => false end.

(** How many of the recorded calls satisfy [p]. *)
Definition count (p : Call -> bool) (cs : list Call) : nat :=
  length (filter p cs).

(** The multiplication factor [sign] computed at the top of [_axisDraw]. *)
Definition drawSign (a : Axis) : Z :=
  let sign := 1%Z in
  let sign := match direction (settings a) with
              | vertical => (sign * -1)%Z
              | horizontal => sign
              end in
  if coordReflected a then (sign * -1)%Z else sign.

Section Observers.
Context {base : AxisBase}.

(** What the loop over the pieces observes: for each completed
    iteration, the value of [self._delta_axis] at its end and the value
    it computed for [suppresstext]. *)
Fixpoint segmentTrace (s : Settings) (posn parentposn : Bounds)
    (outerbounds : option Bounds) (sign : Z) (l : list nat)
    (locals : Q * option bool) (w : World) : list (Q * bool) :=
  match l with
  | [] => []
  | i :: l' =>
      match drawSegment s posn parentposn outerbounds sign locals i w with
      | (Return locals', w') =>
          (_delta_axis (self w'),
           match snd locals' with Some b => b | None => false end)
            :: segmentTrace s posn parentposn outerbounds sign l' locals' w'
      | (Raise _, _) => []
      end
  end.

(** The same observation for a whole call of [_axisDraw] from [w]. *)
Definition drawTrace (posn parentposn : Bounds) (outerbounds : option Bounds)
    (w : World) : list (Q * bool) :=
  let s := settings (self w) in
  match when (negb (Line_hide s)) _drawAxisLine w with
  | (Return _, w1) =>
      segmentTrace s posn parentposn outerbounds (drawSign (self w))
                   (seq 0 (breakvnum (self w1))) (0, None) w1
  | (Raise _, _) => []
  end.

End Observers.

(** The number of pieces whose tick labels are drawn. *)
Definition labelled (s : Settings) (tr : list (Q * bool)) : nat :=
  if TickLabels_hide s then 0%nat
  else length (filter (fun x => negb (snd x)) tr).

(** A stretch of a draw pass that leaves [self._delta_axis] alone and
    makes no text-suppression, tick-label or axis-label call. *)
Definition quiet (w w' : World) : Prop :=
  stable (self w) (self w') /\
  _delta_axis (self w') = _delta_axis (self w) /\
  count is_suppressText (calls w') = count is_suppressText (calls w) /\
  count is_drawTickLabels (calls w') = count is_drawTickLabels (calls w) /\
  count is_drawAxisLabel (calls w') = count is_drawAxisLabel (calls w).

(** Whether [_axisDraw] draws the axis label, given what the loop
    observed: the label is not hidden and the last [suppresstext] is
    false. *)
Definition axisLabelDrawn (s : Settings) (tr : list (Q * bool)) : nat :=
  if Label_hide s then 0%nat
  else match last (map (fun x => Some (snd x)) tr) None with
       | Some false => 1%nat
       | _ => 0%nat
       end.

(** What a completed call of [_axisDraw] from [w] has done. *)
Definition axisDraw_post (tr : list (Q * bool)) (w w' : World) : Prop :=
  let s := settings (self w) in
  stable (self w) (self w') /\
  rangeswitch (self w') = None /\
  plottedrange (self w') = orig_plottedrange (self w) /\
  length tr = breakvnum (self w) /\
  _delta_axis (self w') = fold_left py_max (map fst tr) 0 /\
  count is_suppressText (calls w')
  = (count is_suppressText (calls w) + breakvnum (self w))%nat /\
  count is_drawTickLabels (calls w')
  = (count is_drawTickLabels (calls w) + labelled s tr)%nat /\
  count is_drawAxisLabel (calls w')
  = (count is_drawAxisLabel (calls w) + axisLabelDrawn s tr)%nat.

(** A surface that fails on every attempt to draw major ticks. *)
Definition raises_on_major_ticks : list Call -> Call -> bool :=
  fun _ c => match c with call_drawMajorTicks _ => true | _ => false end.

(** Tick-label overflows of 3, 7 and 2 pixels on pieces 0, 1 and 2. *)
Definition overflow_3_7_2 (active : option nat) : Q :=
  match active with
  | Some 0%nat => 3
  | Some 1%nat => 7
  | _ => 2
  end.

(** The example widget after one layout pass ([computePlottedRange],
    then [updateAxisLocation]). *)
Definition laid_out {base : AxisBase} (s : Settings) : World :=
  snd ((computePlottedRange ;; updateAxisLocation example_posn None)
         (initial_world s)).

(** A value lies within a (start, stop) range, ends included. *)
Definition within (r : Q * Q) (t : Q) : Prop := fst r <= t <= snd r.

(** Modelled from the spec: [axis.Axis.computeTicks], the tick
    generator, is not part of the embedded file.  The specification
    gives its contract when automatic range extension is disabled: the
    major and minor ticks it returns stay within the bounds of the
    range it is given. *)
Definition ticks_within_range {base : AxisBase} : Prop :=
  forall (s : Settings) (r : Q * Q),
    Forall (within r) (fst (Axis_computeTicks s r false)) /\
    Forall (within r) (snd (Axis_computeTicks s r false)).

Section DrawSpecs.
Context {base : AxisBase}.

(** What one iteration of the loop of [_axisDraw] does when it
    completes. *)
Definition drawSegment_post (s : Settings) (parentposn : Bounds)
    (outerbounds : option Bounds) (locals : Q * option bool) (i : nat)
    (w : World) (locals' : Q * option bool) (w' : World) : Prop :=
  stable (self w) (self w') /\
  rangeswitch (self w') = Some i /\
  valueRange (self w) i = Some (plottedrange (self w')) /\
  (majortickscalc (self w'), minortickscalc (self w'))
  = Axis_computeTicks (settings (self w)) (plottedrange (self w')) false /\
  fst locals' = py_max (fst locals) (_delta_axis (self w')) /\
  exists b,
    snd locals' = Some b /\
    (exists a, rangeswitch a = Some i /\ b = Axis_suppressText a parentposn outerbounds) /\
    count is_suppressText (calls w') = S (count is_suppressText (calls w)) /\
    count is_drawTickLabels (calls w')
    = (count is_drawTickLabels (calls w)
       + (if negb (TickLabels_hide s) && negb b then 1 else 0))%nat /\
    count is_drawAxisLabel (calls w') = count is_drawAxisLabel (calls w).

End DrawSpecs.

(** The widget is laid out for its settings: [computePlottedRange] and
    [updateAxisLocation] have run since the settings last changed. *)
Definition ready (a : Axis) : Prop :=
  let s := settings a in
  let posns := resolve_posns (breakPoints s) (breakPosns s) in
  breakvnum a = (length (breakPoints s) / 2 + 1)%nat /\
  length (breakvstarts a) = breakvnum a /\
  length (breakvstops a) = breakvnum a /\
  length (majorticklist a) = breakvnum a /\
  length (minorticklist a) = breakvnum a /\
  posstarts a = fst (collate posns) /\
  posstops a = snd (collate posns).

(** The same inherited axis with a text suppression that looks at the
    widget's current state. *)
Definition with_suppressText (f : Axis -> bool) (b : AxisBase) : AxisBase := {|
  Axis_computePlottedRange := @Axis_computePlottedRange b;
  Axis_computeTicks := @Axis_computeTicks b;
  _graphToPlotter := @_graphToPlotter b;
  _shouldAutoMirror := @_shouldAutoMirror b;
  Axis_suppressText := fun a _ _ => f a;
  tickLabelsDelta := @tickLabelsDelta b;
  surfaceRaises := @surfaceRaises b
|}.

(** Suppress the text while the second piece is the active one. *)
Definition on_second_piece (a : Axis) : bool :=
  match rangeswitch a with
  | Some 1%nat => true
  | _ => false
  end.


(** [x] lies between [a] and [b], whichever of the two is the larger. *)
Definition between (a b x : Q) : Prop :=
  (a <= x /\ x <= b) \/ (b <= x /\ x <= a).

(** Two sets of bounds are equal as rationals. *)
Definition Bounds_eq (x y : Bounds) : Prop :=
  b0 x == b0 y /\ b1 x == b1 y /\ b2 x == b2 y /\ b3 x == b3 y.


(** ** What a method leaves alone *)

(** From [w] to [w'] the recorded calls only grew, by calls that all
    satisfy [P]. *)
Definition appends (P : Call -> Prop) (w w' : World) : Prop :=
  exists cs, calls w' = calls w ++ cs /\ Forall P cs.

(** ... and the attributes that only [computePlottedRange] assigns kept
    their values. *)
Definition keeps (P : Call -> Prop) (w w' : World) : Prop :=
  stable (self w) (self w') /\ appends P w w'.

(** A method that [keeps] whatever way it ends, returning or raising. *)
Definition frames {A} (P : Call -> Prop) (m : M A) : Prop :=
  forall w, wp m (fun _ w' => keeps P w w') (fun _ w' => keeps P w w') w.

(** The two calls that end [_axisDraw]. *)
Definition is_finish (c : Call) : bool :=
  match c with
  | call_drawTextWithoutOverlap | call_setControlGraph _ => true
  | _ => false
  end.

(** The calls that draw tick marks. *)
Definition is_ticks (c : Call) : bool :=
  match c with
  | call_drawMinorTicks _ | call_drawMajorTicks _ => true
  | _ => false
  end.



Section Failures.
Context {base : AxisBase}.

(** The only way a draw pass on a laid-out axis ends early: the surface
    refused a call, and the axis is still laid out. *)
Definition surface_failure (e : Exn) (w' : World) : Prop :=
  e = SurfaceError /\ ready (self w') /\
  exists c, surfaceRaises (calls w') c = true.

(** The axis as a draw pass hands it back: laid out, unbroken, showing
    its full range, at the place it was asked to draw. *)
Definition handed_back (posn : Bounds) (a : Axis) : Prop :=
  ready a /\ rangeswitch a = None /\
  plottedrange a = orig_plottedrange a /\
  location a = (posn, None).

End Failures.



(** How many tick-drawing calls one piece gets. *)
Definition tickCalls (s : Settings) : nat :=
  (if MinorTicks_hide s then 0 else 1) + (if MajorTicks_hide s then 0 else 1).

(** The edge [_autoMirrorDraw] moves the axis to. *)
Definition otherEdge (s : Settings) : Q :=
  if Qltb (otherPosition s) 0.5 then 1 else 0.



Section PieceSpecs.
Context {base : AxisBase}.

(** Piece [i] of [a] is the active one in [a1]: [a1] shows the value
    range of the piece at the pixel bounds of the piece within [posn]. *)
Definition pieceActive (a : Axis) (posn : Bounds) (i : nat) (a1 : Axis) : Prop :=
  stable a a1 /\
  rangeswitch a1 = Some i /\
  valueRange a i = Some (plottedrange a1) /\
  exists pstart pstop,
    posRange a i = Some (pstart, pstop) /\
    location a1 = (segmentBounds (direction (settings a)) posn pstart pstop, None).

(** The calls one iteration of the loop of [_axisDraw] makes, given
    the projected minor and major ticks and the answer of
    [_suppressText]. *)
Definition pieceCalls (s : Settings) (parentposn : Bounds)
    (outerbounds : option Bounds) (sign : Z)
    (coordminorticks coordticks : list Q) (suppresstext : bool) : list Call :=
  (if MinorTicks_hide s then [] else [call_drawMinorTicks coordminorticks])
  ++ (if MajorTicks_hide s then [] else [call_drawMajorTicks coordticks])
  ++ [call_suppressText parentposn outerbounds]
  ++ (if negb (TickLabels_hide s) && negb suppresstext
      then [call_drawTickLabels coordticks sign] else []).

End PieceSpecs.



(** The sum of a list of numbers. *)
Definition Qsum (l : list Q) : Q := fold_right Qplus 0 l.

(** The lengths [stop - start] of the pieces, in order. *)
Definition pieceLengths (starts stops : list Q) : list Q :=
  map (fun se => snd se - fst se) (combine starts stops).



(** ** The state a draw pass is left in *)

(** The calls made inside the two loops over the pieces: tick marks,
    the text suppression test and tick labels. *)
Definition in_piece_loop (c : Call) : bool :=
  is_ticks c || is_suppressText c || is_drawTickLabels c.

(** No piece is active in [a'] and its plotted range is that of [a]. *)
Definition restored (a a' : Axis) : Prop :=
  rangeswitch a' = None /\ plottedrange a' = plottedrange a.

(** [a'] is still switched to one of the pieces of [a]. *)
Definition switched (a a' : Axis) : Prop :=
  exists i, (i < breakvnum a)%nat /\
            rangeswitch a' = Some i /\
            valueRange a i = Some (plottedrange a').

(** In the middle of a draw pass that started in [w]. *)
Definition inPass (w w1 : World) : Prop :=
  ready (self w1) /\ stable (self w) (self w1).

(** ... at a point where no piece is active. *)
Definition atRest (w w1 : World) : Prop :=
  inPass w w1 /\ restored (self w) (self w1).

Section Exits.
Context {base : AxisBase}.

(** How a draw pass that started in [w] ends early: the surface
    refused a call [c]; refused inside a loop over the pieces, the
    axis stays switched to the piece being drawn, refused anywhere
    else, it is unbroken. *)
Definition drawFailure (w : World) (e : Exn) (w' : World) : Prop :=
  e = SurfaceError /\
  exists c, surfaceRaises (calls w') c = true /\
            if in_piece_loop c then switched (self w) (self w')
            else restored (self w) (self w').

End Exits.



(** A surface that fails on every attempt to draw the axis label. *)
Definition raises_on_axis_label : list Call -> Call -> bool :=
  fun _ c => is_drawAxisLabel c.



(** ** The text steps of a draw pass *)

(** The calls that decide about text or draw it. *)
Inductive TextStep :=
| step_suppressText
| step_drawTickLabels
| step_drawAxisLabel.

Definition textSteps (cs : list Call) : list TextStep :=
  flat_map (fun c => match c with
                     | call_suppressText _ _ => [step_suppressText]
                     | call_drawTickLabels _ _ => [step_drawTickLabels]
                     | call_drawAxisLabel _ _ => [step_drawAxisLabel]
                     | _ => []
                     end) cs.

Definition is_text (c : Call) : bool :=
  is_suppressText c || is_drawTickLabels c || is_drawAxisLabel c.

(** The text steps of one piece whose suppression test answered
    [suppresstext] (lines 223-226). *)
Definition pieceTextSteps (s : Settings) (suppresstext : bool) : list TextStep :=
  step_suppressText
    :: (if negb (TickLabels_hide s) && negb suppresstext
        then [step_drawTickLabels] else []).

Section PieceStates.
Context {base : AxisBase}.

(** The axis as the loop of [_axisDraw] has it when it asks
    [_suppressText] about piece [i]: switched to the piece within
    [posn], with the ticks computed for the piece and [_delta_axis]
    reset (lines 205-212). *)
Definition pieceState (a : Axis) (posn : Bounds) (i : nat) : option Axis :=
  match valueRange a i, posRange a i with
  | Some vr, Some (pstart, pstop) =>
      let a1 := located (segmentBounds (direction (settings a)) posn pstart pstop)
                        None
                        (set_plottedrange vr (set_rangeswitch (Some i) a)) in
      let T := Axis_computeTicks (settings a1) (plottedrange a1) false in
      Some (set_delta_axis 0 (set_tickscalc (snd T) (fst T) a1))
  | _, _ => None
  end.

(** The answer of [_suppressText] for piece [i] of [a]. *)
Definition pieceDecision (a : Axis) (posn parentposn : Bounds)
    (outerbounds : option Bounds) (i : nat) (d : bool) : Prop :=
  exists a1, pieceState a posn i = Some a1 /\
             d = Axis_suppressText a1 parentposn outerbounds.

End PieceStates.



(** * [utils/slowfuncs.py]: the Python versions of the drawing helpers

    The module holds plain functions over Qt values.  A [QPointF] is a
    pair of coordinates, a [QPolygonF] a list of points (its [append]
    adds at the end), and the painter is the list of the calls it has
    received, oldest first.  The numpy arrays are one-dimensional and
    embedded as lists of rationals; [izip] stops with its shortest
    argument. *)

Module SlowFuncs.

Record QPointF := { x : Q; y : Q }.

Record QLineF := { x1 : Q; y1 : Q; x2 : Q; y2 : Q }.

Record QRectF := { left : Q; top : Q; width : Q; height : Q }.

Definition QPolygonF := list QPointF.

(** [min(a, b)] of the Python builtin: the second argument wins only
    when it is strictly smaller. *)
Definition py_min (a b : Q) : Q :=
  match b ?= a with
  | Lt => b
  | _ => a
  end.

Inductive Error := ValueError.

Section Painter.

(** A [QPainterPath]; the functions only pass it on. *)
Variable QPainterPath : Type.

Inductive PainterCall :=
| translate (dx dy : Q)
| drawPath (path : QPainterPath)
| drawLines (lines : list QLineF)
| drawPolyline (pts : QPolygonF)
| drawPolygon (pts : QPolygonF).

Definition QPainter := list PainterCall.

(** [plotPathsToPainter]: plot array of x, y points. *)
Definition plotPathsToPainter (painter : QPainter) (path : QPainterPath)
    (x y : list Q) : QPainter :=
  fold_left
    (fun painter '(xp, yp) =>
       painter ++ [translate xp yp; drawPath path; translate (- xp) (- yp)])
    (combine x y) painter.

(** [plotLinesToPainter]: plot lines given in numpy arrays to painter. *)
Definition plotLinesToPainter (painter : QPainter) (x1 y1 x2 y2 : list Q)
    (clip : option QRectF) (autoexpand : bool) : QPainter :=
  let lines :=
    fold_left
      (fun lines '(a, b, c, d) =>
         lines ++ [{| x1 := a; y1 := b; x2 := c; y2 := d |}])
      (combine (combine (combine x1 y1) x2) y2) [] in
  painter ++ [drawLines lines].

(** [plotClippedPolyline]: draw a polyline, trying to clip the points. *)
Definition plotClippedPolyline (painter : QPainter) (cliprect : QRectF)
    (pts : QPolygonF) (autoexpand : bool) : QPainter :=
  let ptsout :=
    fold_left
      (fun ptsout p =>
         let x := py_max (py_min (x p) 32767) (- 32767) in
         let y := py_max (py_min (y p) 32767) (- 32767) in
         ptsout ++ [{| x := x; y := y |}])
      pts [] in
  painter ++ [drawPolyline ptsout].

(** [polygonClip]: clip a polygon to the rectangle given, writing to
    [outpoly]. *)
Definition polygonClip (inpoly : QPolygonF) (rect : QRectF)
    (outpoly : QPolygonF) : QPolygonF :=
  fold_left
    (fun outpoly p =>
       let x := py_max (py_min (x p) 32767) (- 32767) in
       let y := py_max (py_min (y p) 32767) (- 32767) in
       outpoly ++ [{| x := x; y := y |}])
    inpoly outpoly.

(** [plotClippedPolygon]: plot a polygon, clipping if necessary. *)
Definition plotClippedPolygon (painter : QPainter) (inrect : QRectF)
    (inpoly : QPolygonF) (autoexpand : bool) : QPainter :=
  let outpoly := polygonClip inpoly inrect [] in
  painter ++ [drawPolygon outpoly].

(** Where the painter's origin is after the calls in [painter], having
    started at [o]. *)
Definition origin (painter : QPainter) (o : Q * Q) : Q * Q :=
  fold_left
    (fun o c =>
       match c with
       | translate dx dy => (fst o + dx, snd o + dy)
       | _ => o
       end)
    painter o.

(** The origins at which the calls in [painter] drew a path. *)
Fixpoint pathsDrawnAt (painter : QPainter) (o : Q * Q) : list (Q * Q) :=
  match painter with
  | [] => []
  | translate dx dy :: rest => pathsDrawnAt rest (fst o + dx, snd o + dy)
  | drawPath _ :: rest => o :: pathsDrawnAt rest o
  | _ :: rest => pathsDrawnAt rest o
  end.

End Painter.

(** [N.reshape(cols, (n, 2))] of a matrix given by its rows: the
    elements in row-major order, two by two. *)
Fixpoint pairs (l : list Q) : list (Q * Q) :=
  match l with
  | a :: b :: l' => (a, b) :: pairs l'
  | _ => []
  end.

(** [addNumpyToPolygonF]: add a set of numpy arrays to a [QPolygonF].
    [min] of an empty list raises, and so does [N.reshape] when the
    number of elements is odd. *)
Definition addNumpyToPolygonF (poly : QPolygonF) (args : list (list Q))
  : QPolygonF + Error :=
  match map (@length Q) args with
  | [] => inr ValueError
  | n :: ns =>
      let minlen := fold_left Nat.min ns n in
      (* the arrays side by side, one row per index *)
      let cols := map (fun i => map (fun a => nth i a 0) args) (seq 0 minlen) in
      if (minlen * length args / 2 * 2 =? minlen * length args)%nat then
        let points := pairs (concat cols) in
        inl (fold_left (fun poly p => poly ++ [{| x := fst p; y := snd p |}])
                       points poly)
      else inr ValueError
  end.

(** The point [polygonClip] and [plotClippedPolyline] append for [p]. *)
Definition limited (p : QPointF) : QPointF :=
  {| x := py_max (py_min (x p) 32767) (- 32767);
     y := py_max (py_min (y p) 32767) (- 32767) |}.

(** A point whose coordinates Qt's 16-bit device range can hold. *)
Definition inDeviceRange (p : QPointF) : Prop :=
  - 32767 <= x p <= 32767 /\ - 32767 <= y p <= 32767.

End SlowFuncs.



(** * [document/doc.py]: the document and its modification count

    Class [Document] holds the datasets by name, the root widget, the
    [modified] flag and the counter [changeset], and emits the signals
    [sigModified] and [sigWiped].  The methods embedded are those that
    work on this state, and [printTo]; the datasets and the root widget
    are only stored.  The signals emitted are recorded, oldest first,
    and so is what reaches a printing device. *)

Module Doc.

Inductive Signal :=
| sigModified (ismodified : bool)
| sigWiped.

Inductive Error := KeyError | IndexError.

Section Document.

(** A [Dataset] object and a root widget: the methods below store them
    and hand them back. *)
Variable Dataset : Type.
Variable Widget : Type.

(** [widgets.Root(None)] *)
Variable Root : Widget.

(** The dict [self.data]: the binding found first is the current one. *)
Definition Dict := list (String.string * Dataset).

Fixpoint lookup (d : Dict) (name : String.string) : option Dataset :=
  match d with
  | [] => None
  | (k, v) :: d' => if String.eqb k name then Some v else lookup d' name
  end.

(** [d[name] = dataset] *)
Definition store (d : Dict) (name : String.string) (dataset : Dataset) : Dict :=
  (name, dataset) :: filter (fun kv => negb (String.eqb (fst kv) name)) d.

Record Document := {
  changeset : nat;
  data : Dict;
  basewidget : Widget;
  modified : bool;
  emitted : list Signal
}.

Definition emit (sig : Signal) (self : Document) : Document :=
  {| changeset := changeset self; data := data self;
     basewidget := basewidget self; modified := modified self;
     emitted := emitted self ++ [sig] |}.

(** [setModified]: set the modified flag on the data, and inform views. *)
Definition setModified (ismodified : bool) (self : Document) : Document :=
  let self := {| changeset := changeset self; data := data self;
                 basewidget := basewidget self; modified := ismodified;
                 emitted := emitted self |} in
  let self := {| changeset := changeset self + 1; data := data self;
                 basewidget := basewidget self; modified := modified self;
                 emitted := emitted self |} in
  emit (sigModified ismodified) self.

(** [wipe]: wipe out any stored data. *)
Definition wipe (self : Document) : Document :=
  let self := {| changeset := changeset self; data := [];
                 basewidget := Root; modified := modified self;
                 emitted := emitted self |} in
  let self := setModified true self in
  emit sigWiped self.

(** [__init__]: the counter starts at 0 and the document is wiped.
    The attributes [wipe] assigns do not exist before; the values
    given to them here are never read. *)
Definition __init__ : Document :=
  wipe {| changeset := 0; data := []; basewidget := Root; modified := false;
          emitted := [] |}.

(** [setData]: the default [ismodified=True] of [setModified] applies. *)
Definition setData (name : String.string) (dataset : Dataset) (self : Document)
  : Document :=
  let self := {| changeset := changeset self;
                 data := store (data self) name dataset;
                 basewidget := basewidget self; modified := modified self;
                 emitted := emitted self |} in
  setModified true self.

(** [getData]: a missing name raises [KeyError]. *)
Definition getData (name : String.string) (self : Document) : Dataset + Error :=
  match lookup (data self) name with
  | Some dataset => inl dataset
  | None => inr KeyError
  end.

Definition hasData (name : String.string) (self : Document) : bool :=
  match lookup (data self) name with
  | Some _ => true
  | None => false
  end.

Definition isModified (self : Document) : bool := modified self.

(** A call of one of the methods that change the document. *)
Inductive Call :=
| call_wipe
| call_setData (name : String.string) (dataset : Dataset)
| call_setModified (ismodified : bool).

Definition perform (self : Document) (c : Call) : Document :=
  match c with
  | call_wipe => wipe self
  | call_setData name dataset => setData name dataset self
  | call_setModified ismodified => setModified ismodified self
  end.

(** The arguments of the [sigModified] signals among [sigs], in order. *)
Definition modifications (sigs : list Signal) : list bool :=
  flat_map (fun s => match s with
                     | sigModified b => [b]
                     | sigWiped => []
                     end) sigs.

(** *** Printing *)

(** The pages under the root widget and its size settings; distances
    are converted to pixels by [utils.cnvtDists] for a painter with the
    given [veusz_scaling]. *)
Variable Page : Type.
Variable Distance : Type.
Variable children : Widget -> list Page.
Variable width height : Widget -> Distance.
Variable cnvtDists : Distance * Distance -> Q -> Q * Q.

(** What reaches the printing device. *)
Inductive PrinterCall :=
| painter_begin
| draw (c : Page) (bounds : Q * Q * Q * Q)
| newPage
| painter_end.

(** [l[p]] for a Python int: negative indexes count from the end. *)
Definition getitem {A} (l : list A) (p : Z) : option A :=
  let n := Z.of_nat (length l) in
  if ((0 <=? p) && (p <? n))%Z then nth_error l (Z.to_nat p)
  else if ((- n <=? p) && (p <? 0))%Z then nth_error l (Z.to_nat (n + p))
  else None.

(** [getSize]: get the size of the main plot widget. *)
Definition getSize (self : Document) : Distance * Distance :=
  (width (basewidget self), height (basewidget self)).

(** [getNumberPages]: return the number of pages in the document. *)
Definition getNumberPages (self : Document) : nat :=
  length (children (basewidget self)).

(** The loop of [printTo], with its counter [i]. *)
Fixpoint printPages (children : list Page) (bounds : Q * Q * Q * Q) (no : Z)
    (pages : list Z) (i : Z) (printer : list PrinterCall)
  : (unit + Error) * list PrinterCall :=
  match pages with
  | [] => (inl tt, printer)
  | p :: pages' =>
      match getitem children p with
      | None => (inr IndexError, printer)
      | Some c =>
          let printer := printer ++ [draw c bounds] in
          (* start new pages between each page *)
          let printer := if (i <? no - 1)%Z then printer ++ [newPage]
                         else printer in
          printPages children bounds no pages' (i + 1)%Z printer
      end
  end.

(** [printTo]: print onto printing device. *)
Definition printTo (self : Document) (printer : list PrinterCall)
    (pages : list Z) (scaling : Q) : (unit + Error) * list PrinterCall :=
  let printer := printer ++ [painter_begin] in
  let '(width, height) := cnvtDists (getSize self) scaling in
  let children := children (basewidget self) in
  let i := 0%Z in
  let no := Z.of_nat (length pages) in
  match printPages children (0, 0, width, height) no pages i printer with
  | (inl _, printer) => (inl tt, printer ++ [painter_end])
  | (inr e, printer) => (inr e, printer)
  end.

(** The drawn pages [l] with a [newPage] between each two. *)
Fixpoint separated (l : list PrinterCall) : list PrinterCall :=
  match l with
  | [] => []
  | [d] => [d]
  | d :: l' => d :: newPage :: separated l'
  end.

(** The document keeps count: [changeset] is the number of
    [sigModified] signals sent, and [modified] is what the last of them
    said. *)
Definition counted (d : Document) : Prop :=
  changeset d = length (modifications (emitted d)) /\
  last (modifications (emitted d)) false = modified d.

End Document.

End Doc.

(** ** Rules of the program logic *)

Lemma wp_ret {A} (a : A) Q E w : Q a w -> wp (ret a) Q E w.
Proof. exact (fun H => H). Qed.

Lemma wp_raise {A} e (Q : A -> World -> Prop) E w : E e w -> wp (raise e) Q E w.
Proof. exact (fun H => H). Qed.

Lemma wp_bind {A B} (m : M A) (f : A -> M B) Q E w :
  wp m (fun a w' => wp (f a) Q E w') E w -> wp (bind m f) Q E w.
Proof.
  unfold wp, bind. destruct (m w) as [[a|e] w']; auto.
Qed.

Lemma wp_mono {A} (m : M A) (Q Q' : A -> World -> Prop) (E E' : Exn -> World -> Prop) w :
  wp m Q E w ->
  (forall a w', Q a w' -> Q' a w') ->
  (forall e w', E e w' -> E' e w') ->
  wp m Q' E' w.
Proof.
  unfold wp. destruct (m w) as [[a|e] w']; auto.
Qed.

Lemma wp_get_self Q E w : Q (self w) w -> wp get_self Q E w.
Proof. exact (fun H => H). Qed.

Lemma wp_assign f Q E w :
  Q tt {| self := f (self w); calls := calls w |} -> wp (assign f) Q E w.
Proof. exact (fun H => H). Qed.

Lemma wp_when (b : bool) m Q E w :
  (b = true -> wp m Q E w) -> (b = false -> Q tt w) -> wp (when b m) Q E w.
Proof.
  destruct b; simpl; intros H1 H2; [apply H1 | apply wp_ret, H2]; reflexivity.
Qed.

Lemma wp_index {A} (l : list A) i Q E w :
  (forall x, nth_error l i = Some x -> Q x w) ->
  (nth_error l i = None -> E IndexError w) ->
  wp (index l i) Q E w.
Proof.
  unfold index. destruct (nth_error l i); intros HQ HE.
  - apply wp_ret; auto.
  - apply wp_raise; auto.
Qed.

Lemma wp_local {A} (v : option A) Q E w :
  (forall x, v = Some x -> Q x w) ->
  (v = None -> E UnboundLocalError w) ->
  wp (local v) Q E w.
Proof.
  destruct v; intros HQ HE.
  - apply wp_ret; auto.
  - apply wp_raise; auto.
Qed.

Lemma wp_foldM {A B} (body : A -> B -> M A) (I : A -> list B -> World -> Prop) E :
  (forall acc x rest w, I acc (x :: rest) w ->
     wp (body acc x) (fun acc' w' => I acc' rest w') E w) ->
  forall l acc w, I acc l w -> wp (foldM body l acc) (fun acc' w' => I acc' [] w') E w.
Proof.
  intros Hbody. induction l as [|x rest IH]; intros acc w HI; simpl.
  - apply wp_ret; assumption.
  - apply wp_bind. eapply wp_mono; [apply Hbody; eassumption | | auto].
    intros acc' w' HI'. apply IH; assumption.
Qed.

Lemma wp_for_ {B} (body : B -> M unit) (I : list B -> World -> Prop) E :
  (forall x rest w, I (x :: rest) w -> wp (body x) (fun _ w' => I rest w') E w) ->
  forall l w, I l w -> wp (for_ l body) (fun _ w' => I [] w') E w.
Proof.
  intros Hbody l w HI. unfold for_.
  apply (wp_foldM (fun _ x => body x) (fun _ => I)); auto.
Qed.

(** Reading a [wp] fact on a run whose outcome is known. *)
Lemma wp_returns {A} (m : M A) Q E w a w' :
  wp m Q E w -> m w = (Return a, w') -> Q a w'.
Proof. unfold wp. intros H Hrun. rewrite Hrun in H. exact H. Qed.

Lemma wp_raises {A} (m : M A) Q E w e w' :
  wp m Q E w -> m w = (Raise e, w') -> E e w'.
Proof. unfold wp. intros H Hrun. rewrite Hrun in H. exact H. Qed.

(** A run that cannot raise returns. *)
Lemma wp_total {A} (m : M A) Q w :
  wp m Q (fun _ _ => False) w -> exists a w', m w = (Return a, w') /\ Q a w'.
Proof.
  unfold wp. destruct (m w) as [[a|e] w']; intros H; [eauto | contradiction].
Qed.

(** ** Running [computePlottedRange] *)

Lemma mapM_index_total (vl : list Q) (f : nat -> nat) (l : list nat) (w : World) :
  (forall i, In i l -> (f i < length vl)%nat) ->
  mapM (fun i => index vl (f i)) l w
  = (Return (map (fun i => nth (f i) vl 0) l), w).
Proof.
  induction l as [|i l IH]; intros Hin; simpl.
  - reflexivity.
  - unfold bind at 1. unfold index at 1.
    rewrite (nth_error_nth' vl 0) by (apply Hin; left; reflexivity).
    unfold ret at 1. unfold bind at 1.
    rewrite IH by (intros j Hj; apply Hin; right; exact Hj).
    reflexivity.
Qed.

Lemma length_flat_values full points :
  length (flat_values full points) = ((length points / 2 + 1) * 2)%nat.
Proof.
  unfold flat_values. rewrite !length_app, length_firstn. cbn [length].
  pose proof (Nat.div_mod_eq (length points) 2) as H.
  pose proof (Nat.mod_upper_bound (length points) 2) as H'.
  lia.
Qed.

Section RunPlottedRange.
Context {base : AxisBase}.

Lemma computePlottedRange_run (a : Axis) (cs : list Call) :
  exists a',
    computePlottedRange {| self := a; calls := cs |}
    = (Return tt, {| self := a'; calls := cs |})
    /\ computePlottedRange_post a a'.
Proof.
  unfold computePlottedRange_post. cbn zeta.
  remember (settings a) as s eqn:Es.
  remember (Axis_computePlottedRange a) as full eqn:Efull.
  remember (length (breakPoints s) / 2 + 1)%nat as num eqn:Enum.
  remember (flat_values full (breakPoints s)) as flat eqn:Eflat.
  assert (Hlen : length flat = (num * 2)%nat)
    by (subst flat num; apply length_flat_values).
  remember (fun i => (nth (i * 2) flat 0, nth (i * 2 + 1) flat 0)) as piece eqn:Epiece.
  assert (Hpiece : forall i, (nth (i * 2) flat 0, nth (i * 2 + 1) flat 0) = piece i)
    by (intros i; subst piece; reflexivity).
  assert (Hpiece1 : forall i, nth (i * 2) flat 0 = fst (piece i))
    by (intros i; subst piece; reflexivity).
  assert (Hpiece2 : forall i, nth (i * 2 + 1) flat 0 = snd (piece i))
    by (intros i; subst piece; reflexivity).
  enough (Hwp : wp computePlottedRange
            (fun _ w' => calls w' = cs /\
       settings (self w') = s /\
       rangeswitch (self w') = rangeswitch a /\
       plottedrange (self w') = full /\
       orig_plottedrange (self w') = full /\
       breakvnum (self w') = num /\
       breakvlist (self w') = flat /\
       breakvstarts (self w') = map (fun i => fst (piece i)) (seq 0 num) /\
       breakvstops (self w') = map (fun i => snd (piece i)) (seq 0 num) /\
       posstarts (self w') = posstarts a /\
       posstops (self w') = posstops a /\
       majorticklist (self w')
       = map (fun i => fst (Axis_computeTicks s (piece i) false)) (seq 0 num) /\
       minorticklist (self w')
       = map (fun i => snd (Axis_computeTicks s (piece i) false)) (seq 0 num) /\
       _delta_axis (self w') = _delta_axis a /\
       coordReflected (self w') = coordReflected a /\
       location (self w') = location a)
            (fun _ _ => False) {| self := a; calls := cs |}).
  { apply wp_total in Hwp. destruct Hwp as ([] & [a' cs'] & Hrun & Hcs & Hpost).
    simpl in Hcs. subst cs'. exists a'. split; [assumption|].
    rewrite Epiece in Hpost. exact Hpost. }
  clear Epiece.
  unfold computePlottedRange.
  apply wp_bind, wp_get_self. apply wp_bind, wp_assign.
  apply wp_bind, wp_get_self. apply wp_bind, wp_assign.
  apply wp_bind, wp_assign. apply wp_bind, wp_assign.
  apply wp_bind, wp_get_self. cbn [self calls].
  apply wp_bind. unfold wp at 1.
  cbn [breakvlist set_breakvlist set_breakvnum set_orig_plottedrange set_plottedrange
       plottedrange settings fst snd].
  rewrite <- Es, <- Efull.
  change ([fst full] ++ firstn (length (breakPoints s) / 2 * 2) (breakPoints s) ++ [snd full])
    with (flat_values full (breakPoints s)).
  rewrite <- Eflat, <- Enum. clear Eflat Enum Efull.
  rewrite mapM_index_total.
  2:{ intros i Hi. apply in_seq in Hi. change (i * 2 < length flat)%nat. rewrite Hlen. lia. }
  apply wp_bind, wp_assign. apply wp_bind, wp_get_self. cbn [self calls].
  apply wp_bind. unfold wp at 1.
  cbn [breakvlist set_breakvstarts].
  rewrite mapM_index_total.
  2:{ intros i Hi. apply in_seq in Hi. change (i * 2 + 1 < length flat)%nat. rewrite Hlen. lia. }
  apply wp_bind, wp_assign. apply wp_bind, wp_assign.
  apply wp_bind, wp_get_self. cbn [self calls].
  cbn [breakvnum set_ticklists set_breakvstops set_breakvstarts].
  apply wp_bind.
  (* the loop computing the ticks of each range *)
  pose (I := fun (rest : list nat) (w' : World) =>
    let k := (num - length rest)%nat in
    let a' := self w' in
    rest = seq k (num - k) /\ (length rest <= num)%nat /\
    calls w' = cs /\
    settings a' = s /\ rangeswitch a' = rangeswitch a /\
    orig_plottedrange a' = full /\ breakvnum a' = num /\ breakvlist a' = flat /\
    breakvstarts a' = map (fun i => fst (piece i)) (seq 0 num) /\
    breakvstops a' = map (fun i => snd (piece i)) (seq 0 num) /\
    posstarts a' = posstarts a /\ posstops a' = posstops a /\
    majorticklist a' = map (fun i => fst (Axis_computeTicks s (piece i) false)) (seq 0 k) /\
    minorticklist a' = map (fun i => snd (Axis_computeTicks s (piece i) false)) (seq 0 k) /\
    _delta_axis a' = _delta_axis a /\ coordReflected a' = coordReflected a /\
    location a' = location a).
  eapply wp_mono with (Q := fun _ w' => I [] w') (E := fun _ _ => False).
  - apply (wp_for_ computeSegmentTicks I).
    + intros i rest w HI. unfold I in HI. cbn zeta in HI.
      destruct HI as (Hrest & Hle & Hcs & Hs & Hrs & Horig & Hnum & Hfl & Hst & Hsp
                      & Hps & Hpe & Hmaj & Hmin & Hd & Hcr & Hloc).
      simpl length in Hrest, Hle, Hmaj, Hmin.
      assert (Hi : i = (num - S (length rest))%nat /\ rest = seq (S i) (num - S i)).
      { destruct (num - (num - S (length rest)))%nat eqn:Hk; simpl in Hrest; [discriminate|].
        injection Hrest as Hi Hrest'. split; [auto|]. subst i. rewrite Hrest' at 1. f_equal; lia. }
      destruct Hi as [Hi Hrest'].
      assert (Hlt : (i < num)%nat) by lia.
      unfold computeSegmentTicks.
      apply wp_bind, wp_get_self.
      apply wp_bind, wp_index.
      2:{ intros Hnone. apply nth_error_None in Hnone. rewrite Hst, length_map, length_seq in Hnone. lia. }
      intros vstart Hvs.
      apply wp_bind, wp_index.
      2:{ intros Hnone. apply nth_error_None in Hnone. rewrite Hsp, length_map, length_seq in Hnone. lia. }
      intros vstop Hve.
      rewrite Hst in Hvs. rewrite Hsp in Hve.
      rewrite nth_error_map, nth_error_seq in Hvs, Hve.
      destruct (Nat.ltb_spec i num) as [_|?]; [|lia].
      cbn [option_map Nat.add] in Hvs, Hve. injection Hvs as <-. injection Hve as <-.
      apply wp_bind, wp_assign. unfold computeTicks.
      apply wp_bind, wp_bind, wp_get_self. cbn [self calls set_plottedrange settings plottedrange].
      rewrite Hs, <- surjective_pairing.
      destruct (Axis_computeTicks s (piece i) false) as [major minor] eqn:HT.
      apply wp_assign. apply wp_bind, wp_get_self. apply wp_assign.
      unfold I. cbn.
      assert (Hk : (num - length rest)%nat = S i) by lia.
      rewrite Hk.
      repeat split; try assumption; try lia.
      * rewrite Hmaj. rewrite <- Hi. rewrite seq_S, map_app. simpl. rewrite HT. reflexivity.
      * rewrite Hmin. rewrite <- Hi. rewrite seq_S, map_app. simpl. rewrite HT. reflexivity.
    + unfold I. cbn. rewrite length_seq, Nat.sub_diag, Nat.sub_0_r.
      repeat split; try reflexivity; try lia; try (symmetry; assumption).
      * apply map_ext; intros i; apply Hpiece1.
      * apply map_ext; intros i; apply Hpiece2.
  - intros _ w' HI. unfold I in HI. cbn zeta in HI. simpl length in HI.
    rewrite Nat.sub_0_r in HI.
    destruct HI as (_ & _ & Hcs & Hs & Hrs & Horig & Hnum & Hfl & Hst & Hsp
                      & Hps & Hpe & Hmaj & Hmin & Hd & Hcr & Hloc).
    apply wp_bind, wp_get_self. apply wp_assign. cbn.
    repeat split; assumption.
  - auto.
Qed.

End RunPlottedRange.

(** ** Sorting and the break positions *)

Lemma length_py_insert x l : length (py_insert x l) = S (length l).
Proof.
  induction l as [|y l IH]; simpl; [reflexivity|].
  destruct (Qle_bool x y); simpl; [reflexivity | rewrite IH; reflexivity].
Qed.

Lemma length_py_sort l : length (py_sort l) = length l.
Proof.
  induction l as [|x l IH]; simpl; [reflexivity|].
  rewrite length_py_insert, IH. reflexivity.
Qed.

Lemma py_insert_ascending x l : ascending l -> ascending (py_insert x l).
Proof.
  induction l as [|y l IH]; simpl; intros Hl; [tauto|].
  destruct (Qle_bool x y) eqn:Hxy.
  - apply Qle_bool_iff in Hxy. simpl. tauto.
  - assert (Hyx : y <= x).
    { destruct (Qlt_le_dec y x) as [H|H]; [apply Qlt_le_weak, H|].
      apply Qle_bool_iff in H. congruence. }
    destruct Hl as [Hhd Htl]. specialize (IH Htl).
    destruct l as [|z l]; simpl in *.
    + tauto.
    + destruct (Qle_bool x z); simpl in *; tauto.
Qed.

Lemma py_sort_ascending l : ascending (py_sort l).
Proof.
  induction l as [|x l IH]; simpl; [exact I | apply py_insert_ascending, IH].
Qed.

Lemma py_insert_In x l y : In y (py_insert x l) <-> y = x \/ In y l.
Proof.
  induction l as [|z l IH]; simpl.
  - intuition.
  - destruct (Qle_bool x z); simpl; [intuition | rewrite IH; intuition].
Qed.

Lemma py_sort_In l y : In y (py_sort l) <-> In y l.
Proof.
  induction l as [|x l IH]; simpl; [tauto|].
  rewrite py_insert_In, IH. intuition.
Qed.

Lemma length_synthesized start n : length (synthesized start n) = n.
Proof. unfold synthesized. rewrite length_map, length_seq. reflexivity. Qed.

Lemma length_resolve_posns points breakPosns :
  length (resolve_posns points breakPosns)
  = Nat.max (length breakPosns) (length points / 2).
Proof.
  unfold resolve_posns. cbn zeta.
  destruct (Nat.ltb_spec (length (py_sort breakPosns)) (length points / 2))
    as [Hlt|Hge].
  - rewrite length_app, length_synthesized. rewrite length_py_sort in *. lia.
  - rewrite length_py_sort in *. lia.
Qed.

Lemma fold_left_collate posns starts stops :
  fold_left
    (fun '(starts, stops) pos =>
       (starts ++ [pos + breakgap / 2], stops ++ [pos - breakgap / 2]))
    posns (starts, stops)
  = (starts ++ map (fun pos => pos + breakgap / 2) posns,
     stops ++ map (fun pos => pos - breakgap / 2) posns).
Proof.
  revert starts stops. induction posns as [|pos posns IH]; intros starts stops; simpl.
  - rewrite !app_nil_r. reflexivity.
  - rewrite IH, <- !app_assoc. reflexivity.
Qed.

Lemma collate_eq posns :
  collate posns
  = (0 :: map (fun pos => pos + breakgap / 2) posns,
     map (fun pos => pos - breakgap / 2) posns ++ [1]).
Proof.
  unfold collate. rewrite fold_left_collate. reflexivity.
Qed.

Lemma length_collate_starts posns : length (fst (collate posns)) = S (length posns).
Proof. rewrite collate_eq. simpl. rewrite length_map. reflexivity. Qed.

Lemma length_collate_stops posns : length (snd (collate posns)) = S (length posns).
Proof.
  rewrite collate_eq. simpl. rewrite length_app, length_map. simpl. lia.
Qed.

Section RunLocation.
Context {base : AxisBase}.

(** ** Running [updateAxisLocation] and [switchBreak] *)

Lemma wp_updateAxisLocation bounds otherposition Q E w :
  (forall bounds',
      match rangeswitch (self w) with
      | None => bounds' = bounds
      | Some rs =>
          exists pstart pstop,
            nth_error (posstarts (self w)) rs = Some pstart /\
            nth_error (posstops (self w)) rs = Some pstop /\
            bounds' = segmentBounds (direction (settings (self w))) bounds pstart pstop
      end ->
      Q tt {| self := located bounds' otherposition (self w); calls := calls w |}) ->
  ((exists rs, rangeswitch (self w) = Some rs /\ posRange (self w) rs = None) ->
   E IndexError w) ->
  wp (updateAxisLocation bounds otherposition) Q E w.
Proof.
  intros HQ HE. unfold updateAxisLocation.
  apply wp_bind, wp_get_self.
  assert (Hfin : forall bounds',
             Q tt {| self := located bounds' otherposition (self w); calls := calls w |} ->
             wp (Axis_updateAxisLocation bounds' otherposition ;;
                 (let posns := resolve_posns (breakPoints (settings (self w)))
                                             (breakPosns (settings (self w))) in
                  let '(starts, stops) := collate posns in
                  assign (set_pos starts stops))) Q E w).
  { intros bounds' H. unfold Axis_updateAxisLocation.
    apply wp_bind, wp_assign. cbn zeta.
    unfold located in H. cbn zeta in H.
    destruct (collate (resolve_posns (breakPoints (settings (self w)))
                                     (breakPosns (settings (self w)))))
      as [starts stops].
    apply wp_assign. exact H. }
  apply wp_bind.
  destruct (rangeswitch (self w)) as [rs|] eqn:Hrs.
  - unfold posRange in HE.
    destruct (direction (settings (self w))) eqn:Hdir.
    + apply wp_bind, wp_index.
      2:{ intros Hnone. apply HE. exists rs. rewrite Hnone. auto. }
      intros pstart Hps. apply wp_bind, wp_index.
      2:{ intros Hnone. apply HE. exists rs. rewrite Hps, Hnone. auto. }
      intros pstop Hpe. apply wp_ret. apply Hfin, HQ.
      exists pstart, pstop. auto.
    + apply wp_bind, wp_index.
      2:{ intros Hnone. apply HE. exists rs. rewrite Hnone.
          destruct (nth_error (posstarts (self w)) rs); auto. }
      intros pstop Hpe. apply wp_bind, wp_index.
      2:{ intros Hnone. apply HE. exists rs. rewrite Hnone. auto. }
      intros pstart Hps. apply wp_ret. apply Hfin, HQ.
      exists pstart, pstop. auto.
  - apply wp_ret. apply Hfin, HQ. reflexivity.
Qed.

Lemma wp_switchBreak_None posn otherposition Q E w :
  Q tt {| self := located posn otherposition
                    (set_plottedrange (orig_plottedrange (self w))
                       (set_rangeswitch None (self w)));
          calls := calls w |} ->
  wp (switchBreak None posn otherposition) Q E w.
Proof.
  intros HQ. unfold switchBreak.
  apply wp_bind, wp_assign. apply wp_bind, wp_bind, wp_get_self, wp_assign.
  apply wp_updateAxisLocation;
    cbn [self calls rangeswitch set_plottedrange set_rangeswitch].
  - intros bounds' ->. exact HQ.
  - intros (rs & Hrs & _). discriminate.
Qed.

Lemma wp_switchBreak_Some n posn otherposition Q (E : Exn -> World -> Prop) w :
  (forall vstart vstop pstart pstop,
      nth_error (breakvstarts (self w)) n = Some vstart ->
      nth_error (breakvstops (self w)) n = Some vstop ->
      nth_error (posstarts (self w)) n = Some pstart ->
      nth_error (posstops (self w)) n = Some pstop ->
      Q tt {| self := located (segmentBounds (direction (settings (self w)))
                                 posn pstart pstop) otherposition
                        (set_plottedrange (vstart, vstop)
                           (set_rangeswitch (Some n) (self w)));
              calls := calls w |}) ->
  (valueRange (self w) n = None \/ posRange (self w) n = None ->
   forall w', E IndexError w') ->
  wp (switchBreak (Some n) posn otherposition) Q E w.
Proof.
  intros HQ HE. unfold switchBreak.
  apply wp_bind, wp_assign. apply wp_bind, wp_bind, wp_get_self.
  cbn [self calls]. unfold valueRange in HE.
  apply wp_bind, wp_index; cbn [self calls breakvstarts breakvstops set_rangeswitch].
  2:{ intros Hnone. apply HE. rewrite Hnone. auto. }
  intros vstart Hvs.
  apply wp_bind, wp_index; cbn [self calls breakvstarts breakvstops set_rangeswitch].
  2:{ intros Hnone. apply HE. rewrite Hvs, Hnone. auto. }
  intros vstop Hve. apply wp_assign.
  apply wp_updateAxisLocation;
    cbn [self calls rangeswitch posstarts posstops settings set_plottedrange
         set_rangeswitch].
  - intros bounds' (pstart & pstop & Hps & Hpe & ->).
    apply (HQ vstart vstop pstart pstop); assumption.
  - intros (rs & [= <-] & Hnone). apply HE. right. exact Hnone.
Qed.

End RunLocation.

(** ** The layout: value ranges and positions of the pieces *)

Lemma firstn_even_all (points : list Q) :
  Nat.even (length points) = true ->
  firstn (2 * (length points / 2)) points = points.
Proof.
  intros Heven. apply firstn_all2.
  apply Nat.even_spec in Heven. destruct Heven as [k Hk].
  rewrite Hk, Nat.mul_comm, Nat.div_mul by discriminate. lia.
Qed.

Lemma firstn_odd_removelast (points : list Q) :
  Nat.odd (length points) = true ->
  firstn (2 * (length points / 2)) points = removelast points.
Proof.
  intros Hodd. apply Nat.odd_spec in Hodd. destruct Hodd as [k Hk].
  assert (Hdiv : (length points / 2 = k)%nat).
  { rewrite Hk, Nat.mul_comm, Nat.div_add_l by discriminate.
    change (1 / 2)%nat with 0%nat. lia. }
  rewrite Hdiv.
  destruct (exists_last (l := points)) as (l & x & ->).
  { intros ->. simpl in Hk. lia. }
  rewrite removelast_last. rewrite length_app in Hk. simpl in Hk.
  rewrite firstn_app.
  replace (2 * k - length l)%nat with 0%nat by lia.
  rewrite firstn_all2 by lia. simpl. apply app_nil_r.
Qed.

Section Layout.
Context {base : AxisBase}.

Lemma valueRange_computePlottedRange (a a' : Axis) :
  computePlottedRange_post a a' ->
  forall i,
    valueRange a' i =
    if (i <? length (breakPoints (settings a)) / 2 + 1)%nat
    then Some (nth (i * 2) (flat_values (Axis_computePlottedRange a) (breakPoints (settings a))) 0,
               nth (i * 2 + 1) (flat_values (Axis_computePlottedRange a) (breakPoints (settings a))) 0)
    else None.
Proof.
  unfold computePlottedRange_post. cbn zeta.
  intros (_ & _ & _ & _ & _ & _ & Hst & Hsp & _) i.
  unfold valueRange. rewrite Hst, Hsp.
  rewrite !nth_error_map, !nth_error_seq.
  destruct (i <? length (breakPoints (settings a)) / 2 + 1)%nat; reflexivity.
Qed.

(** C1: [computePlottedRange] always returns and produces exactly
    [floor(len(breakPoints)/2) + 1] pieces; the flat value list is the
    low end of the full range, the first [2 * numBreaks] break points
    and the high end; piece [i] has the value range
    [(flat[2i], flat[2i+1])]; with an odd number of break points the
    last one is left out. *)
Theorem C1_value_segments (a : Axis) (cs : list Call) :
  let points := breakPoints (settings a) in
  let full := Axis_computePlottedRange a in
  let numBreaks := (length points / 2)%nat in
  let flat := [fst full] ++ firstn (2 * numBreaks) points ++ [snd full] in
  exists a',
    computePlottedRange {| self := a; calls := cs |}
    = (Return tt, {| self := a'; calls := cs |}) /\
    breakvnum a' = (numBreaks + 1)%nat /\
    breakvlist a' = flat /\
    (forall i, valueRange a' i <> None <-> (i < numBreaks + 1)%nat) /\
    (forall i, (i < numBreaks + 1)%nat ->
       exists vstart vstop,
         nth_error flat (2 * i) = Some vstart /\
         nth_error flat (2 * i + 1) = Some vstop /\
         valueRange a' i = Some (vstart, vstop)) /\
    (Nat.even (length points) = true -> flat = [fst full] ++ points ++ [snd full]) /\
    (Nat.odd (length points) = true ->
     flat = [fst full] ++ removelast points ++ [snd full]).
Proof.
  cbn zeta.
  destruct (computePlottedRange_run a cs) as (a' & Hrun & Hpost).
  pose proof (valueRange_computePlottedRange Hpost) as Hvr.
  unfold computePlottedRange_post in Hpost. cbn zeta in Hpost.
  destruct Hpost as (_ & _ & _ & _ & Hnum & Hfl & _).
  pose proof (length_flat_values (Axis_computePlottedRange a) (breakPoints (settings a)))
    as Hlen.
  unfold flat_values in *. rewrite (Nat.mul_comm _ 2) in *.
  exists a'. repeat split; try assumption.
  - intros Hne. rewrite Hvr in Hne.
    destruct (Nat.ltb_spec i (length (breakPoints (settings a)) / 2 + 1)); congruence.
  - intros Hlt. rewrite Hvr.
    destruct (Nat.ltb_spec i (length (breakPoints (settings a)) / 2 + 1)); [discriminate | lia].
  - intros i Hlt. rewrite Hvr.
    destruct (Nat.ltb_spec i (length (breakPoints (settings a)) / 2 + 1)); [|lia].
    eexists _, _. rewrite !(Nat.mul_comm 2 i).
    repeat split; apply nth_error_nth'; rewrite Hlen; lia.
  - intros Heven. rewrite firstn_even_all by assumption. reflexivity.
  - intros Hodd. rewrite firstn_odd_removelast by assumption. reflexivity.
Qed.

End Layout.

Section Positions.
Context {base : AxisBase}.

Lemma updateAxisLocation_returns bounds otherposition w w' :
  updateAxisLocation bounds otherposition w = (Return tt, w') ->
  exists bounds',
    w' = {| self := located bounds' otherposition (self w); calls := calls w |}.
Proof.
  intros Hrun.
  assert (Hwp : wp (updateAxisLocation bounds otherposition)
                  (fun _ w' => exists bounds',
                       w' = {| self := located bounds' otherposition (self w);
                               calls := calls w |})
                  (fun _ _ => True) w).
  { apply wp_updateAxisLocation; [|auto].
    intros bounds' _. exists bounds'. reflexivity. }
  exact (wp_returns _ _ _ _ Hwp Hrun).
Qed.

Lemma updateAxisLocation_unbroken bounds otherposition w :
  rangeswitch (self w) = None ->
  updateAxisLocation bounds otherposition w
  = (Return tt, {| self := located bounds otherposition (self w); calls := calls w |}).
Proof.
  intros Hrs.
  assert (Hwp : wp (updateAxisLocation bounds otherposition)
                  (fun _ w' => w' = {| self := located bounds otherposition (self w);
                                       calls := calls w |})
                  (fun _ _ => False) w).
  { apply wp_updateAxisLocation; rewrite Hrs.
    - intros bounds' ->. reflexivity.
    - intros (rs & Hrs' & _). discriminate. }
  apply wp_total in Hwp. destruct Hwp as ([] & w' & Hrun & ->). exact Hrun.
Qed.

(** One layout pass on an unbroken axis: [computePlottedRange], then
    [updateAxisLocation]. *)
Lemma layout_run (a : Axis) (cs : list Call) bounds otherposition :
  rangeswitch a = None ->
  exists a1,
    computePlottedRange_post a a1 /\
    (computePlottedRange ;; updateAxisLocation bounds otherposition)
      {| self := a; calls := cs |}
    = (Return tt, {| self := located bounds otherposition a1; calls := cs |}).
Proof.
  intros Hrs. destruct (computePlottedRange_run a cs) as (a1 & Hrun & Hpost).
  exists a1. split; [assumption|].
  unfold bind. rewrite Hrun.
  apply updateAxisLocation_unbroken. cbn.
  destruct Hpost as (_ & -> & _). exact Hrs.
Qed.

(** C2, as amended: the fractional sub-ranges [updateAxisLocation]
    stores are [posStarts = [0] ++ [pos + breakgap/2 for pos in
    positions]] and [posStops = [pos - breakgap/2 for pos in positions]
    ++ [1]] with [breakgap = 0.05]; so the first piece starts at 0 and
    the last stop stored is 1.  That stop belongs to the last piece,
    piece [numBreaks], when there are no more explicit positions than
    breaks; with more, the last piece stops [breakgap/2] before
    position [numBreaks].  The stop of a piece and the start of the
    next are exactly [breakgap] apart, the floats being taken as exact
    rationals. *)
Theorem C2_position_subranges bounds otherposition (w w' : World) :
  updateAxisLocation bounds otherposition w = (Return tt, w') ->
  let posns := resolve_posns (breakPoints (settings (self w)))
                             (breakPosns (settings (self w))) in
  let posStarts := posstarts (self w') in
  let posStops := posstops (self w') in
  posStarts = [0] ++ map (fun pos => pos + breakgap / 2) posns /\
  posStops = map (fun pos => pos - breakgap / 2) posns ++ [1] /\
  breakgap = 0.05 /\
  nth_error posStarts 0 = Some 0 /\
  last posStops 0 = 1 /\
  ((length (breakPosns (settings (self w)))
    <= length (breakPoints (settings (self w))) / 2)%nat ->
   nth_error posStops (length (breakPoints (settings (self w))) / 2) = Some 1) /\
  ((length (breakPoints (settings (self w))) / 2
    < length (breakPosns (settings (self w))))%nat ->
   exists pos,
     nth_error posns (length (breakPoints (settings (self w))) / 2) = Some pos /\
     nth_error posStops (length (breakPoints (settings (self w))) / 2)
     = Some (pos - breakgap / 2)) /\
  forall i, (i < length posns)%nat ->
    exists pstop pstart,
      nth_error posStops i = Some pstop /\
      nth_error posStarts (S i) = Some pstart /\
      pstart - pstop == breakgap.
Proof.
  intros Hrun. cbn zeta.
  destruct (updateAxisLocation_returns _ _ _ Hrun) as (bounds' & ->).
  cbn [self posstarts posstops located set_pos].
  pose proof (length_resolve_posns (breakPoints (settings (self w)))
                                   (breakPosns (settings (self w)))) as Hlen.
  set (posns := resolve_posns _ _) in *.
  rewrite collate_eq. cbn [fst snd].
  repeat split.
  - apply last_last.
  - intros Hle.
    rewrite nth_error_app2 by (rewrite length_map, Hlen; lia).
    rewrite length_map, Hlen.
    replace (_ - _)%nat with 0%nat by lia. reflexivity.
  - intros Hlt.
    assert (Hk : (length (breakPoints (settings (self w))) / 2 < length posns)%nat)
      by (rewrite Hlen; lia).
    exists (nth (length (breakPoints (settings (self w))) / 2) posns 0).
    split; [apply nth_error_nth', Hk|].
    rewrite nth_error_app1 by (rewrite length_map; exact Hk).
    rewrite nth_error_map, (nth_error_nth' posns 0 Hk). reflexivity.
  - intros i Hi.
    exists (nth i posns 0 - breakgap / 2), (nth i posns 0 + breakgap / 2).
    repeat split.
    + rewrite nth_error_app1 by (rewrite length_map; exact Hi).
      rewrite nth_error_map, (nth_error_nth' posns 0 Hi). reflexivity.
    + cbn [nth_error].
      rewrite nth_error_map, (nth_error_nth' posns 0 Hi). reflexivity.
    + field.
Qed.

(** *** Synthesized positions *)

Lemma Qlist_eq_map_seq (f g : nat -> Q) (start len : nat) :
  (forall k, f k == g k) -> Qlist_eq (map f (seq start len)) (map g (seq start len)).
Proof.
  intros Hfg. revert start. induction len as [|len IH]; intros start; simpl.
  - constructor.
  - constructor; [apply Hfg | apply IH].
Qed.

(** Without an explicit position (or when the last one is 0) the
    synthesized positions are the even subdivision of [[0, 1]]. *)
Lemma synthesized_from_zero (start : Q) (n : nat) :
  start == 0 ->
  Qlist_eq (synthesized start n) (evenly_subdivided start n) /\
  Qlist_eq (synthesized start n) (map (fun k => Qnat k / Qnat (n + 1)) (seq 1 n)).
Proof.
  intros H0.
  assert (Hn : ~ Qnat (n + 1) == 0).
  { unfold Qnat, Qeq. simpl. lia. }
  split; apply Qlist_eq_map_seq; intros k; rewrite H0; field; exact Hn.
Qed.

(** A single missing position is put half way between the last
    explicit one and the end of the axis. *)
Lemma synthesized_single (start : Q) :
  Qlist_eq (synthesized start 1) (evenly_subdivided start 1) /\
  Qlist_eq (synthesized start 1) [(start + 1) / 2].
Proof.
  split; (constructor; [|constructor]); unfold Qnat; simpl; field.
Qed.

End Positions.

(** With two breaks and no explicit position, the positions are 1/3 and
    2/3. *)
Lemma resolve_posns_two_breaks (p1 p2 p3 p4 : Q) :
  Qlist_eq (resolve_posns [p1; p2; p3; p4] []) [1 # 3; 2 # 3].
Proof.
  unfold Qlist_eq. vm_compute. repeat constructor.
Qed.

(** C3, at the failing input: three breaks and the single explicit
    position 0.5.  The code appends [k * ((1 - 0.5)/3 + 0.5)] for
    [k = 1, 2], i.e. 2/3 and 4/3, where the even subdivision of
    [[0.5, 1]] is 2/3 and 5/6. *)
Theorem C3_synthesized_at_failing_input :
  Qlist_eq (resolve_posns [1; 2; 3; 4; 5; 6] [0.5]) [1 # 2; 2 # 3; 4 # 3] /\
  Qlist_eq ([0.5] ++ evenly_subdivided 0.5 2) [1 # 2; 2 # 3; 5 # 6] /\
  ~ Qlist_eq (resolve_posns [1; 2; 3; 4; 5; 6] [0.5])
             ([0.5] ++ evenly_subdivided 0.5 2).
Proof.
  unfold Qlist_eq. repeat split.
  - vm_compute. repeat constructor.
  - vm_compute. repeat constructor.
  - intros H. vm_compute in H.
    inversion H as [|? ? ? ? _ H1]; subst.
    inversion H1 as [|? ? ? ? _ H2]; subst.
    inversion H2 as [|? ? ? ? H3 _]; subst.
    discriminate H3.
Qed.

Section LayoutClaims.
Context {base : AxisBase}.

Lemma valueRange_located bounds otherposition a i :
  valueRange (located bounds otherposition a) i = valueRange a i.
Proof. reflexivity. Qed.

Lemma posRange_located bounds otherposition a i :
  posRange (located bounds otherposition a) i
  = let posns := resolve_posns (breakPoints (settings a)) (breakPosns (settings a)) in
    match nth_error (fst (collate posns)) i, nth_error (snd (collate posns)) i with
    | Some pstart, Some pstop => Some (pstart, pstop)
    | _, _ => None
    end.
Proof. reflexivity. Qed.

(** C4, as amended: when [breakPoints] is empty, one layout pass yields
    exactly one piece, whose value range is the full range and whose
    fractional position range starts at 0; when [breakPosns] is empty
    as well, that position range is (0, 1) and no other position range
    exists. *)
Theorem C4_zero_breaks (a : Axis) (cs : list Call) bounds otherposition :
  breakPoints (settings a) = [] ->
  rangeswitch a = None ->
  exists a' pstop,
    (computePlottedRange ;; updateAxisLocation bounds otherposition)
      {| self := a; calls := cs |}
    = (Return tt, {| self := a'; calls := cs |}) /\
    breakvnum a' = 1%nat /\
    valueRange a' 0 = Some (Axis_computePlottedRange a) /\
    (forall i, valueRange a' (S i) = None) /\
    posRange a' 0 = Some (0, pstop) /\
    (breakPosns (settings a) = [] ->
     pstop = 1 /\ forall i, posRange a' (S i) = None).
Proof.
  intros Hpoints Hrs.
  destruct (@layout_run base a cs bounds otherposition Hrs) as (a1 & Hpost & Hrun).
  pose proof (valueRange_computePlottedRange Hpost) as Hvr.
  destruct Hpost as (Hs & _ & _ & _ & Hnum & _).
  rewrite Hpoints in Hnum, Hvr.
  set (posns := resolve_posns (breakPoints (settings a1)) (breakPosns (settings a1))).
  exists (located bounds otherposition a1), (nth 0 (snd (collate posns)) 0).
  split; [exact Hrun|]. split; [exact Hnum|]. split; [|split; [|split]].
  - rewrite valueRange_located, Hvr. cbn.
    destruct (Axis_computePlottedRange a); reflexivity.
  - intros i. rewrite valueRange_located, Hvr. reflexivity.
  - rewrite posRange_located. cbv zeta. fold posns.
    rewrite collate_eq. cbn [fst snd nth_error].
    destruct (map (fun pos => pos - breakgap / 2) posns); reflexivity.
  - intros Hposns. subst posns. rewrite Hs, Hpoints, Hposns.
    split; [reflexivity|].
    intros i. rewrite posRange_located, Hs, Hpoints, Hposns. cbn.
    destruct i; reflexivity.
Qed.

(** C5: for the full range (0, 100), [breakPoints = [20, 40]] and no
    explicit break position, one layout pass yields exactly two pieces:
    values (0, 20) at positions (0, 0.475) and values (40, 100) at
    positions (0.525, 1); the gap is centred at 0.5. *)
Theorem C5_end_to_end (a : Axis) (cs : list Call) bounds otherposition :
  Axis_computePlottedRange a = (0, 100) ->
  breakPoints (settings a) = [20; 40] ->
  breakPosns (settings a) = [] ->
  rangeswitch a = None ->
  exists a',
    (computePlottedRange ;; updateAxisLocation bounds otherposition)
      {| self := a; calls := cs |}
    = (Return tt, {| self := a'; calls := cs |}) /\
    breakvnum a' = 2%nat /\
    valueRange a' 0 = Some (0, 20) /\
    valueRange a' 1 = Some (40, 100) /\
    valueRange a' 2 = None /\
    exists p0 p1,
      posRange a' 0 = Some p0 /\
      posRange a' 1 = Some p1 /\
      posRange a' 2 = None /\
      Qpair_eq p0 (0, 0.475) /\
      Qpair_eq p1 (0.525, 1) /\
      (snd p0 + fst p1) / 2 == 0.5.
Proof.
  intros Hfull Hpoints Hposns Hrs.
  destruct (@layout_run base a cs bounds otherposition Hrs) as (a1 & Hpost & Hrun).
  exists (located bounds otherposition a1). split; [exact Hrun|].
  pose proof (valueRange_computePlottedRange Hpost) as Hvr.
  destruct Hpost as (Hs & _ & _ & _ & Hnum & _).
  rewrite Hpoints in Hnum, Hvr. rewrite Hfull in Hvr.
  split; [exact Hnum|].
  rewrite !valueRange_located, !Hvr.
  split; [reflexivity|]. split; [reflexivity|]. split; [reflexivity|].
  rewrite !posRange_located, Hs, Hpoints, Hposns.
  eexists _, _. split; [vm_compute; reflexivity|]. split; [vm_compute; reflexivity|].
  split; [reflexivity|].
  unfold Qpair_eq. cbn [fst snd]. repeat split; reflexivity.
Qed.

(** C10: after [computePlottedRange] and [updateAxisLocation],
    [posstarts] and [posstops] both have length
    [max(len(breakPosns), len(breakPoints)/2) + 1], which is at least
    [breakvnum], the length of [breakvstarts] and [breakvstops]; so
    [switchBreak] to any piece [i < breakvnum] returns without an
    [IndexError] and leaves the four lists as they are; and
    [posstarts[0]] is 0 and [posstops[-1]] is 1. *)
Theorem C10_switch_in_range (w0 w1 w2 : World) bounds otherposition :
  computePlottedRange w0 = (Return tt, w1) ->
  updateAxisLocation bounds otherposition w1 = (Return tt, w2) ->
  let a := self w2 in
  let n := (Nat.max (length (breakPosns (settings a)))
                    (length (breakPoints (settings a)) / 2) + 1)%nat in
  length (posstarts a) = n /\
  length (posstops a) = n /\
  (breakvnum a <= n)%nat /\
  length (breakvstarts a) = breakvnum a /\
  length (breakvstops a) = breakvnum a /\
  nth_error (posstarts a) 0 = Some 0 /\
  last (posstops a) 0 = 1 /\
  forall i posn otherposition', (i < breakvnum a)%nat ->
    exists a',
      switchBreak (Some i) posn otherposition' w2
      = (Return tt, {| self := a'; calls := calls w2 |}) /\
      rangeswitch a' = Some i /\
      valueRange a i = Some (plottedrange a') /\
      posstarts a' = posstarts a /\
      posstops a' = posstops a /\
      breakvstarts a' = breakvstarts a /\
      breakvstops a' = breakvstops a /\
      breakvnum a' = breakvnum a.
Proof.
  intros Hrun1 Hrun2. cbn zeta.
  destruct w0 as [a0 cs].
  destruct (computePlottedRange_run a0 cs) as (a1 & Hrun1' & Hpost).
  rewrite Hrun1' in Hrun1. injection Hrun1 as <-.
  destruct (updateAxisLocation_returns _ _ _ Hrun2) as (bounds' & ->).
  cbn [self calls].
  destruct Hpost as (Hs & _ & _ & _ & Hnum & _ & Hst & Hsp & _).
  assert (Hlst : length (breakvstarts a1) = breakvnum a1)
    by (rewrite Hst, length_map, length_seq, Hnum; reflexivity).
  assert (Hlsp : length (breakvstops a1) = breakvnum a1)
    by (rewrite Hsp, length_map, length_seq, Hnum; reflexivity).
  set (a2 := located bounds' otherposition a1).
  assert (Hps : length (posstarts a2)
                = (Nat.max (length (breakPosns (settings a2)))
                           (length (breakPoints (settings a2)) / 2) + 1)%nat).
  { subst a2. cbn [posstarts located set_pos settings set_location].
    rewrite length_collate_starts, length_resolve_posns. lia. }
  assert (Hpe : length (posstops a2)
                = (Nat.max (length (breakPosns (settings a2)))
                           (length (breakPoints (settings a2)) / 2) + 1)%nat).
  { subst a2. cbn [posstops located set_pos settings set_location].
    rewrite length_collate_stops, length_resolve_posns. lia. }
  assert (Hle : (breakvnum a2
                 <= Nat.max (length (breakPosns (settings a2)))
                            (length (breakPoints (settings a2)) / 2) + 1)%nat).
  { subst a2. cbn [breakvnum located set_pos settings set_location].
    rewrite Hnum, Hs. lia. }
  split; [exact Hps|]. split; [exact Hpe|]. split; [exact Hle|].
  split; [exact Hlst|]. split; [exact Hlsp|].
  split; [subst a2; cbn [posstarts located set_pos]; rewrite collate_eq; reflexivity|].
  split; [subst a2; cbn [posstops located set_pos]; rewrite collate_eq; apply last_last|].
  intros i posn otherposition' Hi.
  assert (Hwp : wp (switchBreak (Some i) posn otherposition')
            (fun _ w' =>
               calls w' = cs /\
               rangeswitch (self w') = Some i /\
               valueRange a2 i = Some (plottedrange (self w')) /\
               posstarts (self w') = posstarts a2 /\
               posstops (self w') = posstops a2 /\
               breakvstarts (self w') = breakvstarts a2 /\
               breakvstops (self w') = breakvstops a2 /\
               breakvnum (self w') = breakvnum a2)
            (fun _ _ => False) {| self := a2; calls := cs |}).
  { apply wp_switchBreak_Some; cbn [self calls].
    - intros vstart vstop pstart pstop Hvs Hve _ _.
      unfold valueRange. rewrite Hvs, Hve. repeat split; reflexivity.
    - unfold valueRange, posRange. intros [Hnone|Hnone]; exfalso.
      + destruct (nth_error (breakvstarts a2) i) eqn:E1.
        * destruct (nth_error (breakvstops a2) i) eqn:E2; [discriminate|].
          apply nth_error_None in E2. subst a2. cbn in E2. cbn in Hi. lia.
        * apply nth_error_None in E1. subst a2. cbn in E1. cbn in Hi. lia.
      + destruct (nth_error (posstarts a2) i) eqn:E1.
        * destruct (nth_error (posstops a2) i) eqn:E2; [discriminate|].
          apply nth_error_None in E2. lia.
        * apply nth_error_None in E1. lia. }
  apply wp_total in Hwp.
  destruct Hwp as ([] & [a' cs'] & Hrun & Hcs & Hrest). cbn [self calls] in *.
  subst cs'. exists a'. split; [exact Hrun | exact Hrest].
Qed.

End LayoutClaims.

(** C2, as stated, fails: with two breaks and three explicit positions
    the axis has three pieces, and the last of them stops at the
    fraction 0.775, not at 1. *)
Lemma C2_counterexample :
  let base := example_base (0, 100) (fun _ => 0) never_raises in
  let s := example_settings [20; 40; 60; 80; 90] [0.2; 0.5; 0.8] in
  exists a' p,
    (computePlottedRange ;; updateAxisLocation example_posn None) (initial_world s)
    = (Return tt, {| self := a'; calls := [] |}) /\
    breakvnum a' = 3%nat /\
    posRange a' 2 = Some p /\
    posRange a' 3 <> None /\
    snd p == 0.775 /\
    ~ snd p == 1.
Proof.
  cbn zeta. eexists _, _.
  split; [vm_compute; reflexivity|].
  split; [reflexivity|]. split; [reflexivity|].
  split; [discriminate|].
  cbn [snd]. split; [reflexivity|].
  intros H. discriminate H.
Qed.

(** C4, as stated, fails: with no break point but the break position
    0.5, the single piece is confined to the fractions (0, 0.475) of
    the axis. *)
Lemma C4_counterexample :
  let base := example_base (0, 100) (fun _ => 0) never_raises in
  let s := example_settings [] [0.5] in
  exists a' p,
    (computePlottedRange ;; updateAxisLocation example_posn None) (initial_world s)
    = (Return tt, {| self := a'; calls := [] |}) /\
    breakPoints (settings a') = [] /\
    breakvnum a' = 1%nat /\
    posRange a' 0 = Some p /\
    Qpair_eq p (0, 0.475) /\
    ~ Qpair_eq p (0, 1).
Proof.
  cbn zeta. eexists _, _.
  split; [vm_compute; reflexivity|].
  split; [reflexivity|]. split; [reflexivity|]. split; [reflexivity|].
  unfold Qpair_eq. cbn [fst snd].
  split; [split; reflexivity|].
  intros [_ H]. discriminate H.
Qed.

Lemma C4_zero_breaks_witness :
  let base := example_base (0, 100) (fun _ => 0) never_raises in
  let a := initial_axis (example_settings [] []) in
  exists a',
    (computePlottedRange ;; updateAxisLocation example_posn None)
      {| self := a; calls := [] |}
    = (Return tt, {| self := a'; calls := [] |}) /\
    breakvnum a' = 1%nat /\
    valueRange a' 0 = Some (0, 100) /\
    posRange a' 0 = Some (0, 1).
Proof.
  cbv zeta.
  destruct (@C4_zero_breaks (example_base (0, 100) (fun _ => 0) never_raises)
              (initial_axis (example_settings [] [])) [] example_posn None
              eq_refl eq_refl)
    as (a' & pstop & Hrun & Hnum & Hvr & _ & Hpr & Hone).
  destruct (Hone eq_refl) as (-> & _).
  exists a'. repeat split; assumption.
Defined.

Lemma C5_end_to_end_witness :
  let base := example_base (0, 100) (fun _ => 0) never_raises in
  let a := initial_axis (example_settings [20; 40] []) in
  exists a',
    (computePlottedRange ;; updateAxisLocation example_posn None)
      {| self := a; calls := [] |}
    = (Return tt, {| self := a'; calls := [] |}) /\
    breakvnum a' = 2%nat /\
    valueRange a' 0 = Some (0, 20) /\
    valueRange a' 1 = Some (40, 100) /\
    valueRange a' 2 = None /\
    exists p0 p1,
      posRange a' 0 = Some p0 /\
      posRange a' 1 = Some p1 /\
      posRange a' 2 = None /\
      Qpair_eq p0 (0, 0.475) /\
      Qpair_eq p1 (0.525, 1) /\
      (snd p0 + fst p1) / 2 == 0.5.
Proof.
  exact (@C5_end_to_end (example_base (0, 100) (fun _ => 0) never_raises)
           (initial_axis (example_settings [20; 40] [])) [] example_posn None
           eq_refl eq_refl eq_refl eq_refl).
Defined.

Lemma C2_position_subranges_witness :
  let w := initial_world (example_settings [20; 40] []) in
  let w' := snd (updateAxisLocation example_posn None w) in
  updateAxisLocation example_posn None w = (Return tt, w') /\
  nth_error (posstarts (self w')) 0 = Some 0 /\
  last (posstops (self w')) 0 = 1 /\
  breakgap = 0.05.
Proof.
  cbn zeta.
  assert (Hrun : updateAxisLocation
                   example_posn None (initial_world (example_settings [20; 40] []))
                 = (Return tt,
                    snd (updateAxisLocation example_posn None
                           (initial_world (example_settings [20; 40] [])))))
    by (vm_compute; reflexivity).
  split; [exact Hrun|].
  destruct (C2_position_subranges _ _ _ Hrun) as (_ & _ & Hgap & Hfirst & Hlast & _).
  repeat split; assumption.
Defined.

Lemma C10_switch_in_range_witness :
  let base := example_base (0, 100) (fun _ => 0) never_raises in
  let w0 := initial_world (example_settings [20; 40; 60; 80; 90] [0.2; 0.5; 0.8]) in
  let w1 := snd (computePlottedRange w0) in
  let w2 := snd (updateAxisLocation example_posn None w1) in
  breakvnum (self w2) = 3%nat /\
  length (posstarts (self w2)) = 4%nat /\
  length (posstops (self w2)) = 4%nat /\
  forall i, (i < 3)%nat ->
    exists a',
      switchBreak (Some i) example_posn None w2
      = (Return tt, {| self := a'; calls := calls w2 |}).
Proof.
  cbn zeta.
  set (base := example_base (0, 100) (fun _ => 0) never_raises).
  set (w0 := initial_world (example_settings [20; 40; 60; 80; 90] [0.2; 0.5; 0.8])).
  assert (Hrun1 : computePlottedRange w0 = (Return tt, snd (computePlottedRange w0)))
    by (vm_compute; reflexivity).
  assert (Hrun2 : updateAxisLocation example_posn None (snd (computePlottedRange w0))
                  = (Return tt,
                     snd (updateAxisLocation example_posn None
                            (snd (computePlottedRange w0)))))
    by (vm_compute; reflexivity).
  destruct (@C10_switch_in_range base w0 _ _ example_posn None Hrun1 Hrun2)
    as (Hps & Hpe & _ & _ & _ & _ & _ & Hswitch).
  split; [reflexivity|]. split; [exact Hps|]. split; [exact Hpe|].
  intros i Hi.
  destruct (Hswitch i example_posn None Hi) as (a' & Hrun & _).
  exists a'. exact Hrun.
Defined.

(** *** Order of the resolved positions

    The source sorts the explicit positions before it appends the
    synthesized ones and does not sort again. *)

Lemma ascending_app (l1 l2 : list Q) :
  ascending l1 -> ascending l2 ->
  (forall x y, In x l1 -> In y l2 -> x <= y) ->
  ascending (l1 ++ l2).
Proof.
  induction l1 as [|x l1 IH]; intros H1 H2 H12; [exact H2|].
  cbn [app ascending]. destruct H1 as [Hhd Htl]. split.
  - destruct l1 as [|y l1]; cbn [app].
    + destruct l2 as [|z l2]; [exact I|].
      apply H12; left; reflexivity.
    + exact Hhd.
  - apply IH; [exact Htl | exact H2 |].
    intros a b Ha Hb. apply H12; [right; exact Ha | exact Hb].
Qed.

Lemma ascending_map_seq (f : nat -> Q) (len : nat) :
  (forall k, f k <= f (S k)) ->
  forall start, ascending (map f (seq start len)).
Proof.
  intros Hf. induction len as [|len IH]; intros start; [exact I|].
  cbn [seq map ascending]. split; [|apply IH].
  destruct len; [exact I|]. cbn [seq map]. apply Hf.
Qed.

Lemma ascending_last_max (l : list Q) :
  ascending l -> forall x, In x l -> x <= last l 0.
Proof.
  induction l as [|y l IH]; intros Hasc x Hin; [contradiction|].
  destruct Hasc as [Hhd Htl].
  destruct l as [|z l].
  - destruct Hin as [<-|[]]. apply Qle_refl.
  - change (last (y :: z :: l) 0) with (last (z :: l) 0).
    destruct Hin as [<-|Hin].
    + eapply Qle_trans; [exact Hhd|]. apply IH; [exact Htl | left; reflexivity].
    + apply IH; assumption.
Qed.

Lemma last_In (l : list Q) (d : Q) : l <> [] -> In (last l d) l.
Proof.
  induction l as [|x l IH]; intros Hne; [contradiction|].
  destruct l as [|y l]; [left; reflexivity|].
  right. apply IH. discriminate.
Qed.

Lemma Qnat_succ (n : nat) : Qnat (S n) == Qnat n + 1.
Proof.
  unfold Qnat. rewrite Nat2Z.inj_succ, <- Z.add_1_r, inject_Z_plus. reflexivity.
Qed.

Lemma Qnat_pos (n : nat) : 0 < Qnat (n + 1).
Proof. unfold Qnat, Qlt. simpl. lia. Qed.

(** The factor the source multiplies [arange] by lies between [start]
    and 1 when [start] does. *)
Lemma synthesized_factor (start : Q) (n : nat) :
  0 <= start <= 1 ->
  start <= (1 - start) / Qnat (n + 1) + start /\
  0 <= (1 - start) / Qnat (n + 1) + start.
Proof.
  intros [H0 H1].
  assert (Hstep : 0 <= (1 - start) / Qnat (n + 1)).
  { apply Qle_shift_div_l; [apply Qnat_pos | lra]. }
  split; lra.
Qed.

(** With explicit positions inside [0, 1] the list the code builds is
    ascending although it is not sorted again. *)
Lemma resolve_posns_ascending (points breakPosns : list Q) :
  Forall (fun p => 0 <= p <= 1) breakPosns ->
  ascending (resolve_posns points breakPosns).
Proof.
  intros Hrange. unfold resolve_posns. cbv zeta.
  pose proof (py_sort_ascending breakPosns) as Hsorted.
  destruct (length (py_sort breakPosns) <? length points / 2)%nat; [|exact Hsorted].
  set (posns := py_sort breakPosns) in *.
  set (start := if negb (length posns =? 0)%nat then last posns 0 else 0).
  assert (Hstart : 0 <= start <= 1 /\ forall x, In x posns -> x <= start).
  { subst start. destruct posns as [|p posns'] eqn:Hposns.
    - cbn. split; [lra | intros x []].
    - cbn [length Nat.eqb negb]. rewrite <- Hposns in *.
      split.
      + assert (Hin : In (last posns 0) posns)
          by (apply last_In; rewrite Hposns; discriminate).
        rewrite Forall_forall in Hrange. apply Hrange.
        apply (proj1 (py_sort_In breakPosns _)). exact Hin.
      + apply ascending_last_max, Hsorted. }
  destruct Hstart as [Hstart Hle].
  set (n := (length points / 2 - length posns)%nat).
  destruct (synthesized_factor n Hstart) as [Hfac Hfac0].
  apply ascending_app.
  - exact Hsorted.
  - unfold synthesized. apply ascending_map_seq. intros k.
    rewrite Qnat_succ. nra.
  - intros x y Hx Hy. unfold synthesized in Hy.
    apply in_map_iff in Hy. destruct Hy as (k & <- & Hk).
    apply in_seq in Hk.
    assert (Hk1 : 1 <= Qnat k).
    { unfold Qnat, Qle. simpl. lia. }
    specialize (Hle x Hx). nra.
Qed.

(** Outside that range it need not be: the explicit position 2.0 is
    followed by the synthesized 1.5. *)
Lemma resolve_posns_not_resorted :
  Qlist_eq (resolve_posns [1; 2; 3; 4] [2]) [2; 3 # 2] /\
  ~ ascending (resolve_posns [1; 2; 3; 4] [2]).
Proof.
  split.
  - unfold Qlist_eq. vm_compute. repeat constructor.
  - vm_compute. intros [H _]. apply H. reflexivity.
Qed.

(** ** The draw pass *)

Lemma count_snoc p cs c :
  count p (cs ++ [c]) = (count p cs + (if p c then 1 else 0))%nat.
Proof.
  unfold count. rewrite filter_app, length_app. simpl.
  destruct (p c); reflexivity.
Qed.

Lemma stable_refl a : stable a a.
Proof. repeat split. Qed.

Lemma stable_trans a1 a2 a3 : stable a1 a2 -> stable a2 a3 -> stable a1 a3.
Proof.
  unfold stable. intros H12 H23.
  destruct H12 as (? & ? & ? & ? & ? & ? & ? & ? & ?).
  destruct H23 as (? & ? & ? & ? & ? & ? & ? & ? & ?).
  repeat split; congruence.
Qed.

Lemma bind_returns {A B} (m : M A) (f : A -> M B) w b w' :
  bind m f w = (Return b, w') ->
  exists a w1, m w = (Return a, w1) /\ f a w1 = (Return b, w').
Proof.
  unfold bind. destruct (m w) as [[a|e] w1]; intros H; [eauto | discriminate].
Qed.

Section Draw.
Context {base : AxisBase}.

Lemma wp_call c Q E w :
  (surfaceRaises (calls w) c = false ->
   Q tt {| self := self w; calls := calls w ++ [c] |}) ->
  (surfaceRaises (calls w) c = true -> E SurfaceError w) ->
  wp (call c) Q E w.
Proof.
  unfold wp, call. destruct (surfaceRaises (calls w) c); auto.
Qed.

Lemma wp_computeTicks allowauto Q E w :
  (let T := Axis_computeTicks (settings (self w)) (plottedrange (self w)) allowauto in
   Q tt {| self := set_tickscalc (snd T) (fst T) (self w); calls := calls w |}) ->
  wp (computeTicks allowauto) Q E w.
Proof.
  cbn zeta. intros HQ. unfold computeTicks.
  apply wp_bind, wp_get_self.
  destruct (Axis_computeTicks (settings (self w)) (plottedrange (self w)) allowauto)
    as [major minor].
  apply wp_assign. exact HQ.
Qed.

End Draw.

(** One step of symbolic execution of a method body. *)
Ltac wp_step :=
  lazymatch goal with
  | |- wp (bind _ _) _ _ _ => apply wp_bind
  | |- wp get_self _ _ _ => apply wp_get_self
  | |- wp (assign _) _ _ _ => apply wp_assign
  | |- wp (ret _) _ _ _ => apply wp_ret
  | |- wp (when _ _) _ _ _ => apply wp_when; intros ?
  | |- wp (call _) _ _ _ => apply wp_call; intros ?
  | |- wp (index _ _) _ _ _ => apply wp_index; [intros ? ? | intros ?]
  | |- wp (local _) _ _ _ => apply wp_local; [intros ? ? | intros ?]
  | |- wp (computeTicks _) _ _ _ => apply wp_computeTicks; cbv zeta
  | |- wp (switchBreak None _ _) _ _ _ => apply wp_switchBreak_None
  | |- wp (switchBreak (Some _) _ _) _ _ _ =>
      apply wp_switchBreak_Some; [intros ? ? ? ? ? ? ? ? | intros ? ?]
  | |- wp _drawAxisLine _ _ _ => unfold _drawAxisLine
  | |- wp (_drawMinorTicks _) _ _ _ => unfold _drawMinorTicks
  | |- wp (_drawMajorTicks _) _ _ _ => unfold _drawMajorTicks
  | |- wp (_suppressText _ _) _ _ _ => unfold _suppressText
  | |- wp (_drawTickLabels _ _) _ _ _ => unfold _drawTickLabels
  | |- wp (_drawAxisLabel _) _ _ _ => unfold _drawAxisLabel
  | |- wp _drawTextWithoutOverlap _ _ _ => unfold _drawTextWithoutOverlap
  | |- wp (setControlGraph _) _ _ _ => unfold setControlGraph
  end; cbv beta; cbn [self calls].

Ltac wp_steps := repeat wp_step.

Section DrawSegment.
Context {base : AxisBase}.

Lemma wp_drawSegment s posn parentposn outerbounds sign locals i w :
  wp (drawSegment s posn parentposn outerbounds sign locals i)
     (drawSegment_post s parentposn outerbounds locals i w)
     (fun _ _ => True) w.
Proof.
  unfold drawSegment. cbv zeta.
  wp_steps; try exact I.
  all: unfold drawSegment_post, stable, valueRange;
       cbn [self calls located set_pos set_location set_plottedrange
            set_rangeswitch set_tickscalc set_delta_axis
            settings orig_plottedrange breakvnum breakvlist breakvstarts
            breakvstops minorticklist majorticklist coordReflected
            rangeswitch plottedrange majortickscalc minortickscalc _delta_axis
            fst snd] in *.
  all: repeat match goal with
         | H : nth_error (breakvstarts _) _ = Some _ |- _ => rewrite H; clear H
         | H : nth_error (breakvstops _) _ = Some _ |- _ => rewrite H; clear H
         end.
  all: rewrite <- ?surjective_pairing.
  all: split; [repeat split; reflexivity|].
  all: repeat (split; [reflexivity|]).
  all: eexists; split; [reflexivity|].
  all: split; [eexists; split; [|reflexivity]; reflexivity|].
  all: rewrite ?count_snoc; cbn [is_suppressText is_drawTickLabels is_drawAxisLabel].
  all: repeat match goal with
         | H : _ && _ = _ |- _ => rewrite H; clear H
         end.
  all: repeat split; lia.
Qed.

End DrawSegment.

Lemma last_cons_default {A} (l : list A) (x d d' : A) :
  last (x :: l) d = last (x :: l) d'.
Proof.
  revert x. induction l as [|y l IH]; intros x; [reflexivity|].
  change (last (y :: l) d = last (y :: l) d'). apply IH.
Qed.

Section DrawLoop.
Context {base : AxisBase}.

Lemma drawSegment_returns s posn parentposn outerbounds sign locals i w locals' w' :
  drawSegment s posn parentposn outerbounds sign locals i w = (Return locals', w') ->
  drawSegment_post s parentposn outerbounds locals i w locals' w'.
Proof.
  intros Hrun.
  exact (wp_returns _ _ _ _ (wp_drawSegment s posn parentposn outerbounds sign locals i w) Hrun).
Qed.

(** The loop over the pieces, when it completes, against what it
    observed. *)
Lemma drawLoop_returns s posn parentposn outerbounds sign l :
  forall locals w locals' w',
    foldM (drawSegment s posn parentposn outerbounds sign) l locals w
    = (Return locals', w') ->
    let tr := segmentTrace s posn parentposn outerbounds sign l locals w in
    stable (self w) (self w') /\
    length tr = length l /\
    fst locals' = fold_left py_max (map fst tr) (fst locals) /\
    snd locals' = last (map (fun x => Some (snd x)) tr) (snd locals) /\
    count is_suppressText (calls w') = (count is_suppressText (calls w) + length l)%nat /\
    count is_drawTickLabels (calls w')
    = (count is_drawTickLabels (calls w) + labelled s tr)%nat /\
    count is_drawAxisLabel (calls w') = count is_drawAxisLabel (calls w) /\
    (forall b0, (forall a, Axis_suppressText a parentposn outerbounds = b0) ->
                Forall (fun x => snd x = b0) tr).
Proof.
  induction l as [|i l IH]; intros locals w locals' w' Hrun; cbn zeta.
  - cbn in Hrun. injection Hrun as <- <-. cbn.
    unfold labelled. cbn. destruct (TickLabels_hide s).
    all: split; [apply stable_refl|]; repeat split; try lia; constructor.
  - cbn [foldM] in Hrun. apply bind_returns in Hrun.
    destruct Hrun as (locals1 & w1 & Hseg & Hrest).
    cbn [segmentTrace]. rewrite Hseg.
    specialize (IH _ _ _ _ Hrest). cbn zeta in IH.
    set (tr := segmentTrace s posn parentposn outerbounds sign l locals1 w1) in *.
    destruct IH as (Hst & Hlen & Hmax & Hsup & Hc1 & Hc2 & Hc3 & Huni).
    apply drawSegment_returns in Hseg.
    destruct Hseg as (Hst1 & _ & _ & _ & Hmax1 & b & Hb & (a & _ & Ha) & Hd1 & Hd2 & Hd3).
    rewrite Hb. cbn [map fold_left fst snd length].
    split; [exact (stable_trans Hst1 Hst)|].
    split; [rewrite Hlen; reflexivity|].
    split; [rewrite Hmax, Hmax1; reflexivity|].
    split.
    { rewrite Hsup, Hb. destruct tr as [|p tr']; [reflexivity|].
      cbn [map]. apply (last_cons_default (map _ tr') (Some (snd p))). }
    split; [rewrite Hc1, Hd1; lia|].
    split.
    { rewrite Hc2, Hd2. unfold labelled. cbn [filter snd].
      destruct (TickLabels_hide s); cbn [negb andb]; [lia|].
      destruct b; cbn [negb length]; lia. }
    split; [rewrite Hc3, Hd3; reflexivity|].
    intros b0 Hb0. constructor; [|apply Huni, Hb0].
    cbn [snd]. rewrite Ha. apply Hb0.
Qed.

(** Lines 203-232, when they complete. *)
Lemma drawSegments_returns s posn parentposn outerbounds sign w suppresstext w' :
  drawSegments s posn parentposn outerbounds sign w = (Return suppresstext, w') ->
  let tr := segmentTrace s posn parentposn outerbounds sign
                         (seq 0 (breakvnum (self w))) (0, None) w in
  stable (self w) (self w') /\
  rangeswitch (self w') = None /\
  plottedrange (self w') = orig_plottedrange (self w) /\
  length tr = breakvnum (self w) /\
  _delta_axis (self w') = fold_left py_max (map fst tr) 0 /\
  suppresstext = last (map (fun x => Some (snd x)) tr) None /\
  count is_suppressText (calls w')
  = (count is_suppressText (calls w) + breakvnum (self w))%nat /\
  count is_drawTickLabels (calls w')
  = (count is_drawTickLabels (calls w) + labelled s tr)%nat /\
  count is_drawAxisLabel (calls w') = count is_drawAxisLabel (calls w) /\
  (forall b0, (forall a, Axis_suppressText a parentposn outerbounds = b0) ->
              Forall (fun x => snd x = b0) tr).
Proof.
  unfold drawSegments. cbv zeta. intros Hrun.
  apply bind_returns in Hrun. destruct Hrun as (a & w0 & Hget & Hrun).
  injection Hget as <- <-.
  apply bind_returns in Hrun. destruct Hrun as (locals & w1 & Hloop & Hrun).
  apply drawLoop_returns in Hloop. cbn zeta in Hloop.
  set (tr := segmentTrace s posn parentposn outerbounds sign
                          (seq 0 (breakvnum (self w))) (0, None) w) in *.
  destruct Hloop as (Hst & Hlen & Hmax & Hsup & Hc1 & Hc2 & Hc3 & Huni).
  rewrite length_seq in Hlen, Hc1. cbn [fst snd] in Hmax, Hsup.
  assert (Hwp : wp (switchBreak None posn None ;;
                    assign (set_delta_axis (fst locals)) ;; ret (snd locals))
                  (fun r w2 =>
                     r = snd locals /\
                     w2 = {| self := set_delta_axis (fst locals)
                                       (located posn None
                                          (set_plottedrange (orig_plottedrange (self w1))
                                             (set_rangeswitch None (self w1))));
                             calls := calls w1 |})
                  (fun _ _ => True) w1).
  { wp_steps. split; reflexivity. }
  destruct (wp_returns _ _ _ _ Hwp Hrun) as (-> & ->).
  cbn [self calls]. unfold stable in *.
  cbn [located set_pos set_location set_plottedrange set_rangeswitch set_delta_axis
       settings orig_plottedrange breakvnum breakvlist breakvstarts breakvstops
       minorticklist majorticklist coordReflected rangeswitch plottedrange _delta_axis].
  destruct Hst as (? & Horig & ? & ? & ? & ? & ? & ? & ?).
  repeat split; try assumption; try reflexivity.
Qed.

(** *** The mirrored copy *)

Lemma wp_mirrorSegment s posn otheredge i w :
  wp (mirrorSegment s posn otheredge i) (fun _ w' => quiet w w') (fun _ _ => True) w.
Proof.
  unfold mirrorSegment.
  wp_steps; try exact I.
  all: unfold quiet, stable;
       cbn [self calls located set_pos set_location set_plottedrange
            set_rangeswitch settings orig_plottedrange breakvnum breakvlist
            breakvstarts breakvstops minorticklist majorticklist coordReflected
            _delta_axis].
  all: rewrite ?count_snoc; cbn [is_suppressText is_drawTickLabels is_drawAxisLabel].
  all: repeat split; lia.
Qed.

Lemma quiet_refl w : quiet w w.
Proof. unfold quiet. repeat split. Qed.

Lemma quiet_trans w1 w2 w3 : quiet w1 w2 -> quiet w2 w3 -> quiet w1 w3.
Proof.
  unfold quiet. intros (S12 & ? & ? & ? & ?) (S23 & ? & ? & ? & ?).
  split; [exact (stable_trans S12 S23)|]. repeat split; congruence.
Qed.

Lemma wp_autoMirrorDraw posn w :
  wp (_autoMirrorDraw posn)
     (fun _ w' =>
        quiet w w' /\
        ((rangeswitch (self w') = rangeswitch (self w) /\
          plottedrange (self w') = plottedrange (self w)) \/
         (rangeswitch (self w') = None /\
          plottedrange (self w') = orig_plottedrange (self w))))
     (fun _ _ => True) w.
Proof.
  unfold _autoMirrorDraw. wp_step. wp_step.
  destruct (_shouldAutoMirror (self w)); cbn [negb].
  2:{ apply wp_ret. split; [apply quiet_refl | left; split; reflexivity]. }
  cbv zeta.
  set (otheredge := if Qltb (otherPosition (settings (self w))) 0.5 then 1 else 0).
  wp_step.
  apply wp_mono with (Q := fun _ w1 => quiet w w1) (E := fun _ _ => True); [| |auto].
  { apply wp_updateAxisLocation; [|auto].
    intros bounds' _. unfold quiet, stable. cbn. repeat split. }
  intros [] w1 Hq1. wp_step.
  apply wp_mono with (Q := fun _ w2 => quiet w w2) (E := fun _ _ => True); [| |auto].
  { wp_steps; try exact I; try exact Hq1.
    eapply quiet_trans; [exact Hq1|].
    unfold quiet, stable. cbn [self calls]. rewrite !count_snoc. cbn.
    repeat split; lia. }
  intros [] w2 Hq2. wp_step. wp_step. wp_step.
  apply wp_mono with (Q := fun _ w3 => quiet w w3) (E := fun _ _ => True); [| |auto].
  { apply (wp_for_ (mirrorSegment (settings (self w)) posn otheredge)
                   (fun _ w3 => quiet w w3)); [|exact Hq2].
    intros i rest w3 Hq3.
    eapply wp_mono; [apply wp_mirrorSegment| |auto].
    intros [] w4 Hq4. cbv beta in Hq4. exact (quiet_trans Hq3 Hq4). }
  intros [] w3 Hq3. wp_step.
  split.
  - eapply quiet_trans; [exact Hq3|]. unfold quiet, stable. cbn. repeat split.
  - right. cbn. split; [reflexivity|].
    destruct Hq3 as ((_ & Horig & _) & _). exact Horig.
Qed.

End DrawLoop.

(** Reduce a fact about a completed run to symbolic execution. *)
Ltac run_wp Hrun :=
  match type of Hrun with
  | ?m ?w = (Return ?r, ?w') =>
      pattern r, w'; refine (wp_returns m _ (fun _ _ => True) w _ Hrun)
  end.

Section AxisDraw.
Context {base : AxisBase}.

Lemma axisDraw_sign (a : Axis) :
  (let sign := 1%Z in
   let sign := match direction (settings a) with
               | vertical => (sign * -1)%Z
               | horizontal => sign
               end in
   if coordReflected a then (sign * -1)%Z else sign) = drawSign a.
Proof. reflexivity. Qed.

Lemma drawAxisLine_returns (b : bool) w r w' :
  when b _drawAxisLine w = (Return r, w') ->
  self w' = self w /\ quiet w w'.
Proof.
  intros Hrun.
  assert (Hwp : wp (when b _drawAxisLine) (fun _ w' => self w' = self w /\ quiet w w')
                  (fun _ _ => True) w).
  { wp_steps; try exact I.
    - split; [reflexivity|]. unfold quiet. cbn [self calls].
      rewrite !count_snoc. cbn. split; [apply stable_refl|]. repeat split; lia.
    - split; [reflexivity | apply quiet_refl]. }
  exact (wp_returns _ _ _ _ Hwp Hrun).
Qed.

Lemma axisLabel_returns (s : Settings) (suppresstext : option bool) sign w r w' :
  (if negb (Label_hide s)
   then suppresstext <- local suppresstext ;;
        when (negb suppresstext) (_drawAxisLabel sign)
   else ret tt) w = (Return r, w') ->
  self w' = self w /\
  count is_suppressText (calls w') = count is_suppressText (calls w) /\
  count is_drawTickLabels (calls w') = count is_drawTickLabels (calls w) /\
  count is_drawAxisLabel (calls w')
  = (count is_drawAxisLabel (calls w)
     + (if Label_hide s then 0
        else match suppresstext with Some false => 1 | _ => 0 end))%nat.
Proof.
  intros Hrun.
  run_wp Hrun.
  destruct (Label_hide s); cbn [negb].
  - apply wp_ret. repeat split; lia.
  - wp_steps; try exact I; subst suppresstext; cbn [self calls];
      rewrite ?count_snoc; cbn; repeat split; try lia.
    all: match goal with H : negb ?x = _ |- _ => destruct x; try discriminate H end.
    all: lia.
Qed.

Lemma drawFinish_returns posn w r w' :
  (_drawTextWithoutOverlap ;; setControlGraph posn) w = (Return r, w') ->
  self w' = self w /\ quiet w w'.
Proof.
  intros Hrun.
  run_wp Hrun.
  wp_steps; try exact I.
  split; [reflexivity|]. unfold quiet. cbn [self calls].
  rewrite !count_snoc. cbn. split; [apply stable_refl|]. repeat split; lia.
Qed.

Lemma autoMirror_returns (b : bool) posn w r w' :
  when b (_autoMirrorDraw posn) w = (Return r, w') ->
  quiet w w' /\
  ((rangeswitch (self w') = rangeswitch (self w) /\
    plottedrange (self w') = plottedrange (self w)) \/
   (rangeswitch (self w') = None /\
    plottedrange (self w') = orig_plottedrange (self w))).
Proof.
  intros Hrun.
  run_wp Hrun.
  apply wp_when; intros _.
  - apply wp_autoMirrorDraw.
  - split; [apply quiet_refl | left; split; reflexivity].
Qed.

(** A completed call of [_axisDraw], against what its loop observed. *)
Lemma axisDraw_returns posn parentposn outerbounds w w' :
  _axisDraw posn parentposn outerbounds w = (Return tt, w') ->
  axisDraw_post (drawTrace posn parentposn outerbounds w) w w'.
Proof.
  unfold _axisDraw. intros Hrun.
  apply bind_returns in Hrun. destruct Hrun as (a & w0 & Hget & Hrun).
  injection Hget as <- <-. cbv zeta in Hrun. rewrite axisDraw_sign in Hrun.
  apply bind_returns in Hrun. destruct Hrun as ([] & w1 & Hline & Hrun).
  apply bind_returns in Hrun. destruct Hrun as (suppresstext & w2 & Hsegs & Hrun).
  apply bind_returns in Hrun. destruct Hrun as ([] & w3 & Hlabel & Hrun).
  apply bind_returns in Hrun. destruct Hrun as ([] & w4 & Hmirror & Hrun).
  unfold drawTrace. cbv zeta. rewrite Hline.
  apply drawAxisLine_returns in Hline. destruct Hline as (Hself1 & Hq1).
  apply drawSegments_returns in Hsegs. cbv zeta in Hsegs.
  set (tr := segmentTrace (settings (self w)) posn parentposn outerbounds
                          (drawSign (self w)) (seq 0 (breakvnum (self w1))) (0, None) w1)
    in *.
  destruct Hsegs as (Hst2 & Hrs2 & Hpr2 & Hlen & Hdelta & Hsup & Hc1 & Hc2 & Hc3 & _).
  apply axisLabel_returns in Hlabel.
  destruct Hlabel as (Hself3 & Hl1 & Hl2 & Hl3).
  apply autoMirror_returns in Hmirror. destruct Hmirror as (Hq4 & Hsw4).
  apply drawFinish_returns in Hrun. destruct Hrun as (Hself5 & Hq5).
  destruct Hq1 as (_ & _ & Hq11 & Hq12 & Hq13).
  destruct Hq4 as (Hst4 & Hd4 & Hq41 & Hq42 & Hq43).
  destruct Hq5 as (_ & _ & Hq51 & Hq52 & Hq53).
  unfold axisDraw_post. cbv zeta.
  rewrite Hself1 in *. rewrite Hself5. rewrite Hself3 in *.
  split; [exact (stable_trans Hst2 Hst4)|].
  assert (Horig : orig_plottedrange (self w2) = orig_plottedrange (self w))
    by (destruct Hst2 as (_ & H & _); exact H).
  split; [destruct Hsw4 as [[-> _]|[-> _]]; [exact Hrs2 | reflexivity]|].
  split; [destruct Hsw4 as [[_ ->]|[_ ->]]; [exact Hpr2 | exact Horig]|].
  split; [exact Hlen|].
  split; [rewrite Hd4; exact Hdelta|].
  split; [lia|]. split; [lia|].
  unfold axisLabelDrawn. rewrite <- Hsup. lia.
Qed.

End AxisDraw.

(** ** What a completed draw pass leaves behind *)

(** *** The running maximum *)

Lemma py_max_cases a b : py_max a b = a \/ py_max a b = b.
Proof. unfold py_max. destruct (a ?= b); auto. Qed.

Lemma py_max_ge_l a b : a <= py_max a b.
Proof.
  unfold py_max. destruct (a ?= b) eqn:Hc.
  - apply Qle_refl.
  - apply Qlt_le_weak, Qlt_alt, Hc.
  - apply Qle_refl.
Qed.

Lemma py_max_ge_r a b : b <= py_max a b.
Proof.
  unfold py_max. destruct (a ?= b) eqn:Hc.
  - apply Qeq_alt in Hc. rewrite Hc. apply Qle_refl.
  - apply Qle_refl.
  - apply Qlt_le_weak, Qgt_alt, Hc.
Qed.

Lemma fold_py_max_ge_init l : forall init, init <= fold_left py_max l init.
Proof.
  induction l as [|d l IH]; intros init; simpl.
  - apply Qle_refl.
  - eapply Qle_trans; [apply py_max_ge_l | apply IH].
Qed.

Lemma fold_py_max_upper l :
  forall init, Forall (fun d => d <= fold_left py_max l init) l.
Proof.
  induction l as [|d l IH]; intros init; simpl; constructor.
  - eapply Qle_trans; [apply py_max_ge_r | apply fold_py_max_ge_init].
  - apply IH.
Qed.

Lemma fold_py_max_attained l :
  forall init, fold_left py_max l init = init \/ In (fold_left py_max l init) l.
Proof.
  induction l as [|d l IH]; intros init; simpl.
  - left; reflexivity.
  - destruct (IH (py_max init d)) as [H|H]; [|right; right; exact H].
    rewrite H. destruct (py_max_cases init d) as [-> | ->]; auto.
Qed.

(** For non-negative distances the value kept is the largest one. *)
Lemma fold_py_max_is_maximum l :
  Forall (fun d => 0 <= d) l -> l <> [] ->
  exists d, In d l /\ d == fold_left py_max l 0.
Proof.
  intros Hpos Hne.
  destruct (fold_py_max_attained l 0) as [H0|Hin].
  - destruct l as [|d l]; [contradiction|].
    exists d. split; [left; reflexivity|].
    pose proof (fold_py_max_upper (d :: l) 0) as Hup.
    apply Forall_inv in Hup. apply Forall_inv in Hpos.
    rewrite H0 in *. apply Qle_antisym; assumption.
  - exists (fold_left py_max l 0). split; [exact Hin | reflexivity].
Qed.

Section DrawClaims.
Context {base : AxisBase}.

(** C7: the value a completed draw pass leaves in [self._delta_axis]
    is the running maximum, from 0, of the values [_delta_axis] had at
    the end of each piece: it bounds every one of them and, the
    distances being non-negative, is one of them - not their sum and
    not the last one. *)
Theorem C7_max_label_overflow posn parentposn outerbounds (w w' : World) :
  _axisDraw posn parentposn outerbounds w = (Return tt, w') ->
  let overflows := map fst (drawTrace posn parentposn outerbounds w) in
  let recorded := _delta_axis (self w') in
  length overflows = breakvnum (self w) /\
  recorded = fold_left py_max overflows 0 /\
  Forall (fun d => d <= recorded) overflows /\
  0 <= recorded /\
  (recorded = 0 \/ In recorded overflows) /\
  (Forall (fun d => 0 <= d) overflows -> overflows <> [] ->
   exists d, In d overflows /\ d == recorded).
Proof.
  intros Hrun. cbv zeta. apply axisDraw_returns in Hrun.
  destruct Hrun as (_ & _ & _ & Hlen & Hdelta & _).
  rewrite Hdelta, length_map.
  split; [exact Hlen|]. split; [reflexivity|].
  split; [apply fold_py_max_upper|].
  split; [apply fold_py_max_ge_init|].
  split; [apply fold_py_max_attained|].
  apply fold_py_max_is_maximum.
Qed.

End DrawClaims.

Lemma C7_max_label_overflow_witness :
  let base := example_base (0, 100) overflow_3_7_2 never_raises in
  let w := laid_out (example_settings [20; 40; 60; 80] []) in
  let w' := snd (_axisDraw example_posn example_posn None w) in
  _axisDraw example_posn example_posn None w = (Return tt, w') /\
  map fst (drawTrace example_posn example_posn None w) = [3; 7; 2] /\
  _delta_axis (self w') = 7.
Proof.
  cbv zeta.
  set (base := example_base (0, 100) overflow_3_7_2 never_raises).
  set (w := laid_out (example_settings [20; 40; 60; 80] [])).
  assert (Hrun : _axisDraw example_posn example_posn None w
                 = (Return tt, snd (_axisDraw example_posn example_posn None w)))
    by (vm_compute; reflexivity).
  assert (Htrace : map fst (drawTrace example_posn example_posn None w) = [3; 7; 2])
    by (vm_compute; reflexivity).
  split; [exact Hrun|]. split; [exact Htrace|].
  destruct (@C7_max_label_overflow base example_posn example_posn None w _ Hrun)
    as (_ & Hmax & _).
  rewrite Hmax, Htrace. reflexivity.
Defined.

Section TickClaims.
Context {base : AxisBase}.

Lemma ticklists_computePlottedRange (a a' : Axis) :
  computePlottedRange_post a a' ->
  forall i r,
    valueRange a' i = Some r ->
    nth_error (majorticklist a') i = Some (fst (Axis_computeTicks (settings a) r false)) /\
    nth_error (minorticklist a') i = Some (snd (Axis_computeTicks (settings a) r false)).
Proof.
  intros Hpost i r Hr.
  rewrite (valueRange_computePlottedRange Hpost) in Hr.
  destruct Hpost as (_ & _ & _ & _ & _ & _ & _ & _ & _ & _ & Hmaj & Hmin & _).
  rewrite Hmaj, Hmin. rewrite !nth_error_map, !nth_error_seq.
  destruct (i <? length (breakPoints (settings a)) / 2 + 1)%nat; [|discriminate].
  injection Hr as <-. split; reflexivity.
Qed.

(** C8: for every piece, [computePlottedRange] stores the tick lists the
    tick generator returns for that piece's value range with
    [allowauto=False], and the draw loop recomputes the current ticks
    the same way; so, the generator keeping within the range it is given
    when automatic extension is off, every major and minor tick of a
    piece lies within that piece's value range, ends included. *)
Theorem C8_ticks_within_segments (a : Axis) (cs : list Call) :
  ticks_within_range ->
  (exists a',
     computePlottedRange {| self := a; calls := cs |}
     = (Return tt, {| self := a'; calls := cs |}) /\
     length (majorticklist a') = breakvnum a' /\
     length (minorticklist a') = breakvnum a' /\
     forall i, (i < breakvnum a')%nat ->
       exists r major minor,
         valueRange a' i = Some r /\
         nth_error (majorticklist a') i = Some major /\
         nth_error (minorticklist a') i = Some minor /\
         (major, minor) = Axis_computeTicks (settings a) r false /\
         Forall (within r) major /\
         Forall (within r) minor) /\
  (forall s posn parentposn outerbounds sign locals i w locals' w',
     drawSegment s posn parentposn outerbounds sign locals i w = (Return locals', w') ->
     valueRange (self w) i = Some (plottedrange (self w')) /\
     (majortickscalc (self w'), minortickscalc (self w'))
     = Axis_computeTicks (settings (self w)) (plottedrange (self w')) false /\
     Forall (within (plottedrange (self w'))) (majortickscalc (self w')) /\
     Forall (within (plottedrange (self w'))) (minortickscalc (self w'))).
Proof.
  intros Hticks. split.
  - destruct (computePlottedRange_run a cs) as (a' & Hrun & Hpost).
    exists a'. split; [exact Hrun|].
    pose proof (valueRange_computePlottedRange Hpost) as Hvr.
    pose proof (ticklists_computePlottedRange Hpost) as Htl.
    destruct Hpost as (_ & _ & _ & _ & Hnum & _ & _ & _ & _ & _ & Hmaj & Hmin & _).
    split; [rewrite Hmaj, length_map, length_seq, Hnum; reflexivity|].
    split; [rewrite Hmin, length_map, length_seq, Hnum; reflexivity|].
    intros i Hi. rewrite Hnum in Hi.
    specialize (Hvr i).
    destruct (Nat.ltb_spec i (length (breakPoints (settings a)) / 2 + 1)); [|lia].
    destruct (Htl i _ Hvr) as (Hmaj' & Hmin').
    eexists _, _, _. split; [exact Hvr|]. split; [exact Hmaj'|]. split; [exact Hmin'|].
    split; [symmetry; apply surjective_pairing|].
    apply Hticks.
  - intros s posn parentposn outerbounds sign locals i w locals' w' Hrun.
    apply drawSegment_returns in Hrun.
    destruct Hrun as (_ & _ & Hvr & HT & _).
    split; [exact Hvr|]. split; [exact HT|].
    destruct (Hticks (settings (self w)) (plottedrange (self w'))) as (Hmaj & Hmin).
    rewrite <- HT in Hmaj, Hmin. split; assumption.
Qed.

End TickClaims.

(** The example tick generator keeps within the range it is given. *)
Lemma example_base_ticks_within_range full overflow raises :
  @ticks_within_range (example_base full overflow raises).
Proof.
  intros s [lo hi]. unfold within. cbn.
  destruct (Qle_bool lo hi) eqn:Hle; cbn [fst snd].
  - apply Qle_bool_iff in Hle.
    split; repeat constructor; cbn [fst snd]; try apply Qle_refl; try exact Hle.
    + apply Qle_shift_div_l; [reflexivity | lra].
    + apply Qle_shift_div_r; [reflexivity | lra].
  - split; constructor.
Qed.

Lemma C8_ticks_within_segments_witness :
  let base := example_base (0, 100) (fun _ => 0) never_raises in
  let a := initial_axis (example_settings [20; 40] []) in
  exists a',
    computePlottedRange {| self := a; calls := [] |}
    = (Return tt, {| self := a'; calls := [] |}) /\
    forall i, (i < breakvnum a')%nat ->
      exists r major minor,
        valueRange a' i = Some r /\
        nth_error (majorticklist a') i = Some major /\
        nth_error (minorticklist a') i = Some minor /\
        Forall (within r) major /\
        Forall (within r) minor.
Proof.
  cbv zeta.
  destruct (@C8_ticks_within_segments
              (example_base (0, 100) (fun _ => 0) never_raises)
              (initial_axis (example_settings [20; 40] [])) []
              (example_base_ticks_within_range (0, 100) (fun _ => 0) never_raises))
    as ((a' & Hrun & _ & _ & Hticks) & _).
  exists a'. split; [exact Hrun|].
  intros i Hi. destruct (Hticks i Hi) as (r & major & minor & H1 & H2 & H3 & _ & H4 & H5).
  exists r, major, minor. repeat split; assumption.
Defined.

Lemma labelled_decisions s (tr : list (Q * bool)) :
  labelled s tr
  = if TickLabels_hide s then 0%nat else length (filter negb (map snd tr)).
Proof.
  unfold labelled. destruct (TickLabels_hide s); [reflexivity|].
  induction tr as [|x tr IH]; [reflexivity|].
  cbn [filter map]. destruct (negb (snd x)); cbn [length]; rewrite IH; reflexivity.
Qed.

Lemma axisLabelDrawn_decisions s (tr : list (Q * bool)) :
  axisLabelDrawn s tr
  = if Label_hide s then 0%nat
    else if last (map snd tr) true then 0%nat else 1%nat.
Proof.
  unfold axisLabelDrawn. destruct (Label_hide s); [reflexivity|].
  induction tr as [|x tr IH]; [reflexivity|].
  destruct tr as [|y tr]; [cbn; destruct (snd x); reflexivity|].
  exact IH.
Qed.

Section SuppressionClaims.
Context {base : AxisBase}.

Lemma segmentTrace_uniform s posn parentposn outerbounds sign (b : bool) :
  (forall a, Axis_suppressText a parentposn outerbounds = b) ->
  forall l locals w,
    Forall (fun x => snd x = b)
           (segmentTrace s posn parentposn outerbounds sign l locals w).
Proof.
  intros Hb. induction l as [|i l IH]; intros locals w; cbn [segmentTrace].
  - constructor.
  - destruct (drawSegment s posn parentposn outerbounds sign locals i w)
      as [[locals'|e] w'] eqn:Hseg; [|constructor].
    constructor; [|apply IH].
    apply drawSegment_returns in Hseg.
    destruct Hseg as (_ & _ & _ & _ & _ & b' & -> & (a & _ & ->) & _).
    cbn [snd]. apply Hb.
Qed.

Lemma Forall_eq_repeat (b : bool) (l : list bool) :
  Forall (fun x => x = b) l -> l = repeat b (length l).
Proof.
  induction 1 as [|x l Hx _ IH]; [reflexivity|].
  cbn. rewrite Hx, <- IH. reflexivity.
Qed.

End SuppressionClaims.

(** C9, as stated, fails: on an axis with one break the suppression is
    computed twice in one draw pass, once in each iteration of the
    loop. *)
Lemma C9_counterexample :
  let base := example_base (0, 100) (fun _ => 0) never_raises in
  let w := laid_out (example_settings [20; 40] []) in
  exists w',
    _axisDraw example_posn example_posn None w = (Return tt, w') /\
    breakvnum (self w) = 2%nat /\
    count is_suppressText (calls w) = 0%nat /\
    count is_suppressText (calls w') = 2%nat.
Proof.
  cbv zeta. eexists. split; [vm_compute; reflexivity|].
  repeat split; reflexivity.
Qed.

(** Nothing in the loop itself makes the decisions agree: were the
    inherited [_suppressText] to depend on the active piece, the first
    piece would get its tick labels, the second would not, and the axis
    label would follow the second. *)
Lemma suppression_follows_active_piece :
  let base := with_suppressText on_second_piece
                (example_base (0, 100) (fun _ => 0) never_raises) in
  let w := laid_out (example_settings [20; 40] []) in
  exists w',
    _axisDraw example_posn example_posn None w = (Return tt, w') /\
    map snd (drawTrace example_posn example_posn None w) = [false; true] /\
    count is_drawTickLabels (calls w') = 1%nat /\
    count is_drawAxisLabel (calls w') = 0%nat.
Proof.
  cbv zeta. eexists. split; [vm_compute; reflexivity|].
  repeat split; reflexivity.
Qed.

(** ** A draw pass on a laid-out axis cannot fail by itself *)

Lemma ready_stable a a' :
  stable a a' -> posstarts a' = posstarts a -> posstops a' = posstops a ->
  ready a -> ready a'.
Proof.
  unfold stable, ready. cbv zeta.
  intros (Hs & _ & Hn & _ & Hvs & Hve & Hmin & Hmaj & _) Hps Hpe.
  rewrite Hs, Hn, Hvs, Hve, Hmin, Hmaj, Hps, Hpe. auto.
Qed.

Lemma ready_in_range a i :
  ready a -> (i < breakvnum a)%nat ->
  valueRange a i <> None /\ posRange a i <> None /\
  nth_error (majorticklist a) i <> None /\
  nth_error (minorticklist a) i <> None.
Proof.
  unfold ready, valueRange, posRange. cbv zeta.
  intros (Hn & Hvs & Hve & Hmaj & Hmin & Hps & Hpe) Hi.
  assert (Hlps : (i < length (posstarts a))%nat).
  { rewrite Hps, length_collate_starts, length_resolve_posns. lia. }
  assert (Hlpe : (i < length (posstops a))%nat).
  { rewrite Hpe, length_collate_stops, length_resolve_posns. lia. }
  rewrite <- Hvs in Hi at 1. apply nth_error_Some in Hi as H1.
  rewrite Hvs, <- Hve in Hi. apply nth_error_Some in Hi as H2.
  rewrite Hve, <- Hmaj in Hi. apply nth_error_Some in Hi as H3.
  rewrite Hmaj, <- Hmin in Hi. apply nth_error_Some in Hi as H4.
  apply nth_error_Some in Hlps, Hlpe.
  destruct (nth_error (breakvstarts a) i), (nth_error (breakvstops a) i),
    (nth_error (posstarts a) i), (nth_error (posstops a) i); try congruence.
  repeat split; congruence.
Qed.

Section Totality.
Context {base : AxisBase}.

Lemma layout_ready (a : Axis) (cs : list Call) bounds otherposition :
  rangeswitch a = None ->
  exists a',
    (computePlottedRange ;; updateAxisLocation bounds otherposition)
      {| self := a; calls := cs |}
    = (Return tt, {| self := a'; calls := cs |}) /\
    ready a' /\ rangeswitch a' = None /\
    plottedrange a' = orig_plottedrange a'.
Proof.
  intros Hrs. destruct (@layout_run base a cs bounds otherposition Hrs)
    as (a1 & Hpost & Hrun).
  exists (located bounds otherposition a1). split; [exact Hrun|].
  destruct Hpost as (Hs & Hrs1 & Hpr & Horig & Hnum & _ & Hst & Hsp & _ & _
                     & Hmaj & Hmin & _).
  unfold ready. cbn. rewrite Hs, Hnum, Hst, Hsp, Hmaj, Hmin, Hpr, Horig.
  rewrite !length_map, !length_seq. repeat split; congruence.
Qed.

Hypothesis surface_sound : forall cs c, surfaceRaises cs c = false.

(** Discharge the exceptional branches of a symbolic execution on a
    laid-out axis with a sound surface. *)
Ltac no_raise Hready Hi :=
  match goal with
  | H : surfaceRaises _ _ = true |- _ =>
      rewrite surface_sound in H; discriminate H
  | H : valueRange _ _ = None \/ posRange _ _ = None |- _ =>
      destruct (ready_in_range Hready Hi) as (? & ? & _); destruct H; contradiction
  | H : nth_error (majorticklist _) _ = None |- _ =>
      destruct (ready_in_range Hready Hi) as (_ & _ & ? & _); contradiction
  | H : nth_error (minorticklist _) _ = None |- _ =>
      destruct (ready_in_range Hready Hi) as (_ & _ & _ & ?); contradiction
  end.

Lemma wp_drawSegment_total s posn parentposn outerbounds sign locals i w :
  ready (self w) -> (i < breakvnum (self w))%nat ->
  wp (drawSegment s posn parentposn outerbounds sign locals i)
     (fun locals' w' =>
        ready (self w') /\ breakvnum (self w') = breakvnum (self w) /\
        snd locals' <> None)
     (fun _ _ => False) w.
Proof.
  intros Hready Hi. unfold drawSegment. cbv zeta.
  wp_steps; cbn [majorticklist minorticklist set_tickscalc located set_pos
                 set_location set_plottedrange set_rangeswitch] in *;
    try solve [no_raise Hready Hi].
  all: split; [|split; [reflexivity | discriminate]].
  all: refine (ready_stable _ _ _ Hready);
       [unfold stable; cbn; repeat split | cbn | cbn];
       symmetry; apply Hready.
Qed.

Lemma wp_mirrorSegment_total s posn otheredge i w :
  ready (self w) -> (i < breakvnum (self w))%nat ->
  wp (mirrorSegment s posn otheredge i)
     (fun _ w' => ready (self w') /\ breakvnum (self w') = breakvnum (self w))
     (fun _ _ => False) w.
Proof.
  intros Hready Hi. unfold mirrorSegment.
  wp_steps; cbn [majorticklist minorticklist located set_pos
                 set_location set_plottedrange set_rangeswitch] in *;
    try solve [no_raise Hready Hi].
  all: split; [|reflexivity].
  all: refine (ready_stable _ _ _ Hready);
       [unfold stable; cbn; repeat split | cbn | cbn];
       symmetry; apply Hready.
Qed.

Lemma ready_located bounds otherposition a :
  ready a -> ready (located bounds otherposition a).
Proof.
  intros Hready. refine (ready_stable _ _ _ Hready);
    [unfold stable; cbn; repeat split | cbn | cbn]; symmetry; apply Hready.
Qed.

Lemma wp_autoMirrorDraw_total posn w :
  ready (self w) -> rangeswitch (self w) = None ->
  wp (_autoMirrorDraw posn) (fun _ w' => ready (self w')) (fun _ _ => False) w.
Proof.
  intros Hready Hrs. unfold _autoMirrorDraw. wp_step. wp_step.
  destruct (_shouldAutoMirror (self w)); cbn [negb]; [|apply wp_ret; exact Hready].
  cbv zeta.
  set (otheredge := if Qltb (otherPosition (settings (self w))) 0.5 then 1 else 0).
  set (n := breakvnum (self w)).
  wp_step.
  apply wp_mono with (Q := fun _ w1 => ready (self w1) /\ breakvnum (self w1) = n)
                     (E := fun _ _ => False); [| |auto].
  { apply wp_updateAxisLocation.
    - intros bounds' _. split; [apply ready_located, Hready | reflexivity].
    - intros (rs & Hrs' & _). congruence. }
  intros [] w1 (Hr1 & Hn1). wp_step.
  apply wp_mono with (Q := fun _ w2 => ready (self w2) /\ breakvnum (self w2) = n)
                     (E := fun _ _ => False); [| |auto].
  { wp_steps; try (split; assumption).
    rewrite surface_sound in *. discriminate. }
  intros [] w2 (Hr2 & Hn2). wp_step. wp_step. wp_step. rewrite Hn2.
  eapply wp_mono with (E := fun _ _ => False); [| |auto].
  { apply (wp_for_ (mirrorSegment (settings (self w)) posn otheredge)
             (fun rest w3 => ready (self w3) /\ breakvnum (self w3) = n /\
                             Forall (fun i => (i < n)%nat) rest)).
    - intros i rest w3 (Hr3 & Hn3 & Hall).
      eapply wp_mono; [apply wp_mirrorSegment_total; [exact Hr3|] | |auto].
      + rewrite Hn3. apply (Forall_inv Hall).
      + intros [] w4 (Hr4 & Hn4). cbv beta.
        split; [exact Hr4|]. split; [congruence | apply (Forall_inv_tail Hall)].
    - split; [exact Hr2|]. split; [exact Hn2|].
      apply Forall_forall. intros i Hi. apply in_seq in Hi. lia. }
  intros [] w3 (Hr3 & _). wp_step.
  refine (ready_stable _ _ _ Hr3);
    [unfold stable; cbn; repeat split | cbn | cbn]; symmetry; apply Hr3.
Qed.

(** On a laid-out axis, with a surface that does not fail, the draw
    entry point returns: none of its list accesses is out of range and
    [suppresstext] is bound when the axis label needs it. *)
Lemma axisDraw_total posn parentposn outerbounds w :
  ready (self w) ->
  exists w', _axisDraw posn parentposn outerbounds w = (Return tt, w').
Proof.
  intros Hready.
  enough (Hwp : wp (_axisDraw posn parentposn outerbounds)
                   (fun _ _ => True) (fun _ _ => False) w).
  { apply wp_total in Hwp. destruct Hwp as ([] & w' & Hrun & _). eauto. }
  unfold _axisDraw. wp_step. wp_step. cbv zeta. rewrite axisDraw_sign.
  set (n := breakvnum (self w)).
  assert (Hn : (1 <= n)%nat) by (subst n; destruct Hready as (-> & _); lia).
  wp_step.
  apply wp_mono with (Q := fun _ w1 => ready (self w1) /\ breakvnum (self w1) = n)
                     (E := fun _ _ => False); [| |auto].
  { wp_steps; try (split; [assumption|reflexivity]).
    rewrite surface_sound in *. discriminate. }
  intros [] w1 (Hr1 & Hn1). wp_step.
  apply wp_mono with (Q := fun st w2 => ready (self w2) /\ rangeswitch (self w2) = None /\
                                        st <> None)
                     (E := fun _ _ => False); [| |auto].
  { unfold drawSegments. cbv zeta. wp_step. wp_step. wp_step. rewrite Hn1.
    eapply wp_mono with (E := fun _ _ => False); [| |auto].
    - apply (wp_foldM (drawSegment (settings (self w)) posn parentposn outerbounds
                                   (drawSign (self w)))
               (fun locals rest w2 =>
                  ready (self w2) /\ breakvnum (self w2) = n /\
                  Forall (fun i => (i < n)%nat) rest /\
                  (snd locals <> None \/ rest <> []))).
      + intros locals i rest w2 (Hr2 & Hn2 & Hall & _).
        eapply wp_mono; [apply wp_drawSegment_total; [exact Hr2|] | |auto].
        * rewrite Hn2. apply (Forall_inv Hall).
        * intros locals' w3 (Hr3 & Hn3 & Hsome). cbv beta.
          split; [exact Hr3|]. split; [congruence|].
          split; [apply (Forall_inv_tail Hall) | left; exact Hsome].
      + split; [exact Hr1|]. split; [exact Hn1|]. split.
        * apply Forall_forall. intros i Hi. apply in_seq in Hi. lia.
        * right. destruct n; [lia | discriminate].
    - intros locals w2 (Hr2 & _ & _ & [Hsome|Hne]); [|contradiction].
      wp_steps. cbn.
      split; [|split; [reflexivity | exact Hsome]].
      refine (ready_stable _ _ _ Hr2);
        [unfold stable; cbn; repeat split | cbn | cbn]; symmetry; apply Hr2. }
  intros st w2 (Hr2 & Hrs2 & Hst). wp_step.
  apply wp_mono with (Q := fun _ w3 => ready (self w3) /\ rangeswitch (self w3) = None)
                     (E := fun _ _ => False); [| |auto].
  { destruct (Label_hide (settings (self w))); cbn [negb].
    - apply wp_ret. split; assumption.
    - wp_steps; try (split; assumption); congruence. }
  intros [] w3 (Hr3 & Hrs3). wp_step.
  apply wp_mono with (Q := fun _ _ => True) (E := fun _ _ => False); [| |auto].
  { apply wp_when; intros _; [|exact I].
    eapply wp_mono; [apply wp_autoMirrorDraw_total; assumption | auto | auto]. }
  intros [] w4 _.
  wp_steps; try exact I; rewrite surface_sound in *; discriminate.
Qed.

End Totality.



(** ** Every way out of a draw pass *)

Section DrawExits.
Context {base : AxisBase}.

Lemma inPass_step (w w1 : World) (a2 : Axis) cs :
  inPass w w1 ->
  stable (self w1) a2 ->
  posstarts a2 = posstarts (self w1) ->
  posstops a2 = posstops (self w1) ->
  inPass w {| self := a2; calls := cs |}.
Proof.
  intros (Hready & Hst) Hst2 Hps Hpe. split.
  - exact (ready_stable Hst2 Hps Hpe Hready).
  - exact (stable_trans Hst Hst2).
Qed.

Lemma switched_piece (w w1 : World) (a2 : Axis) i vstart vstop :
  inPass w w1 -> (i < breakvnum (self w1))%nat ->
  nth_error (breakvstarts (self w1)) i = Some vstart ->
  nth_error (breakvstops (self w1)) i = Some vstop ->
  rangeswitch a2 = Some i ->
  plottedrange a2 = (vstart, vstop) ->
  switched (self w) a2.
Proof.
  intros (_ & Hst) Hi Hvs Hve Hrs Hpr.
  destruct Hst as (_ & _ & Hn & _ & Hstarts & Hstops & _).
  exists i. split; [rewrite <- Hn; exact Hi|]. split; [exact Hrs|].
  unfold valueRange. rewrite <- Hstarts, <- Hstops, Hvs, Hve, Hpr. reflexivity.
Qed.

(** The exceptional branches of a piece: out-of-range accesses cannot
    happen on a laid-out axis, a refused call leaves the piece
    active. *)
Ltac piece_exit Hpass Hi :=
  match goal with
  | H : valueRange _ _ = None \/ posRange _ _ = None |- _ =>
      destruct (ready_in_range (proj1 Hpass) Hi) as (? & ? & _);
      destruct H; contradiction
  | H : nth_error (majorticklist _) _ = None |- _ =>
      destruct (ready_in_range (proj1 Hpass) Hi) as (_ & _ & ? & _); contradiction
  | H : nth_error (minorticklist _) _ = None |- _ =>
      destruct (ready_in_range (proj1 Hpass) Hi) as (_ & _ & _ & ?); contradiction
  | H : surfaceRaises _ ?c = true |- drawFailure _ _ _ =>
      split; [reflexivity|]; exists c; split; [exact H|];
      cbn [in_piece_loop is_ticks is_suppressText is_drawTickLabels orb];
      eapply switched_piece;
      [exact Hpass | exact Hi | eassumption | eassumption
      | reflexivity | reflexivity]
  end.

Ltac pass_goal Hpass :=
  refine (inPass_step _ Hpass _ _ _);
  [unfold stable; cbn; repeat split | cbn | cbn];
  symmetry; apply (proj1 Hpass).

Lemma wp_drawSegment_exit s posn parentposn outerbounds sign locals i w w1 :
  inPass w w1 -> (i < breakvnum (self w1))%nat ->
  wp (drawSegment s posn parentposn outerbounds sign locals i)
     (fun locals' w2 => inPass w w2 /\ snd locals' <> None)
     (drawFailure w) w1.
Proof.
  intros Hpass Hi. unfold drawSegment. cbv zeta.
  wp_steps; cbn [majorticklist minorticklist set_tickscalc located set_pos
                 set_location set_plottedrange set_rangeswitch] in *;
    try solve [piece_exit Hpass Hi].
  all: split; [|discriminate].
  all: pass_goal Hpass.
Qed.

Lemma wp_mirrorSegment_exit s posn otheredge i w w1 :
  inPass w w1 -> (i < breakvnum (self w1))%nat ->
  wp (mirrorSegment s posn otheredge i) (fun _ w2 => inPass w w2)
     (drawFailure w) w1.
Proof.
  intros Hpass Hi. unfold mirrorSegment.
  wp_steps; cbn [majorticklist minorticklist located set_pos
                 set_location set_plottedrange set_rangeswitch] in *;
    try solve [piece_exit Hpass Hi].
  all: pass_goal Hpass.
Qed.

(** A call refused where no piece is active. *)
Ltac rest_exit Hrest :=
  match goal with
  | H : surfaceRaises _ ?c = true |- drawFailure _ _ _ =>
      split; [reflexivity|]; exists c; split; [exact H|];
      cbn [in_piece_loop is_ticks is_suppressText is_drawTickLabels orb];
      exact (proj2 Hrest)
  end.

Lemma atRest_switchBreak_None (w w1 : World) posn cs :
  plottedrange (self w) = orig_plottedrange (self w) ->
  inPass w w1 ->
  atRest w {| self := located posn None
                        (set_plottedrange (orig_plottedrange (self w1))
                           (set_rangeswitch None (self w1)));
              calls := cs |}.
Proof.
  intros Hpre Hpass. split; [pass_goal Hpass|].
  split; [reflexivity|]. cbn.
  destruct Hpass as (_ & (_ & Horig & _)). rewrite Horig, Hpre. reflexivity.
Qed.

Lemma atRest_calls (w w1 : World) cs :
  atRest w w1 -> atRest w {| self := self w1; calls := cs |}.
Proof. intros H. exact H. Qed.

Lemma wp_autoMirrorDraw_exit posn w w1 :
  plottedrange (self w) = orig_plottedrange (self w) ->
  atRest w w1 ->
  wp (_autoMirrorDraw posn) (fun _ w2 => atRest w w2) (drawFailure w) w1.
Proof.
  intros Hpre Hrest. pose proof Hrest as (Hpass & Hrs & Hpr).
  unfold _autoMirrorDraw. wp_step. wp_step.
  destruct (_shouldAutoMirror (self w1)); cbn [negb]; [|apply wp_ret; exact Hrest].
  cbv zeta.
  set (otheredge := if Qltb (otherPosition (settings (self w1))) 0.5 then 1 else 0).
  set (n := breakvnum (self w1)).
  wp_step.
  apply wp_mono with (Q := fun _ w2 => atRest w w2 /\ breakvnum (self w2) = n)
                     (E := drawFailure w); [| |auto].
  { apply wp_updateAxisLocation.
    - intros bounds' _. split; [|reflexivity].
      split; [pass_goal Hpass | split; assumption].
    - intros (rs & Hrs' & _). congruence. }
  intros [] w2 (Hr2 & Hn2). wp_step.
  apply wp_mono with (Q := fun _ w3 => atRest w w3 /\ breakvnum (self w3) = n)
                     (E := drawFailure w); [| |auto].
  { wp_steps; try (split; assumption). rest_exit Hr2. }
  intros [] w3 (Hr3 & Hn3). wp_step. wp_step. wp_step. rewrite Hn3.
  eapply wp_mono with (E := drawFailure w); [| |auto].
  { apply (wp_for_ (mirrorSegment (settings (self w1)) posn otheredge)
             (fun rest w4 => inPass w w4 /\ breakvnum (self w4) = n /\
                             Forall (fun i => (i < n)%nat) rest)).
    - intros i rest w4 (Hp4 & Hn4 & Hall).
      eapply wp_mono; [apply wp_mirrorSegment_exit; [exact Hp4|] | |auto].
      + rewrite Hn4. apply (Forall_inv Hall).
      + intros [] w5 Hp5. cbv beta.
        split; [exact Hp5|]. split; [|apply (Forall_inv_tail Hall)].
        destruct Hp5 as (_ & (_ & _ & Hn5 & _)), Hp4 as (_ & (_ & _ & Hn4' & _)).
        congruence.
    - split; [exact (proj1 Hr3)|]. split; [exact Hn3|].
      apply Forall_forall. intros i Hi. apply in_seq in Hi. lia. }
  intros [] w4 (Hp4 & _). wp_step.
  apply atRest_switchBreak_None; assumption.
Qed.

Lemma wp_axisDraw_exit posn parentposn outerbounds w :
  plottedrange (self w) = orig_plottedrange (self w) ->
  ready (self w) ->
  rangeswitch (self w) = None ->
  wp (_axisDraw posn parentposn outerbounds) (fun _ w' => atRest w w')
     (drawFailure w) w.
Proof.
  intros Hpre Hready Hrs.
  assert (Hrest : atRest w w).
  { split; [split; [exact Hready | apply stable_refl]|].
    split; [exact Hrs | reflexivity]. }
  unfold _axisDraw. wp_step. wp_step. cbv zeta. rewrite axisDraw_sign.
  set (n := breakvnum (self w)).
  assert (Hn : (1 <= n)%nat) by (subst n; destruct Hready as (-> & _); lia).
  wp_step.
  apply wp_mono with (Q := fun _ w1 => atRest w w1 /\ breakvnum (self w1) = n)
                     (E := drawFailure w); [| |auto].
  { wp_steps; try (split; [assumption|reflexivity]). rest_exit Hrest. }
  intros [] w1 (Hr1 & Hn1). wp_step.
  apply wp_mono with (Q := fun st w2 => atRest w w2 /\ st <> None)
                     (E := drawFailure w); [| |auto].
  { unfold drawSegments. cbv zeta. wp_step. wp_step. wp_step. rewrite Hn1.
    eapply wp_mono with (E := drawFailure w); [| |auto].
    - apply (wp_foldM (drawSegment (settings (self w)) posn parentposn outerbounds
                                   (drawSign (self w)))
               (fun locals rest w2 =>
                  inPass w w2 /\ breakvnum (self w2) = n /\
                  Forall (fun i => (i < n)%nat) rest /\
                  (snd locals <> None \/ rest <> []))).
      + intros locals i rest w2 (Hp2 & Hn2 & Hall & _).
        eapply wp_mono; [apply wp_drawSegment_exit; [exact Hp2|] | |auto].
        * rewrite Hn2. apply (Forall_inv Hall).
        * intros locals' w3 (Hp3 & Hsome). cbv beta.
          split; [exact Hp3|]. split.
          { destruct Hp3 as (_ & (_ & _ & Hn3 & _)). exact Hn3. }
          split; [apply (Forall_inv_tail Hall) | left; exact Hsome].
      + split; [exact (proj1 Hr1)|]. split; [exact Hn1|]. split.
        * apply Forall_forall. intros i Hi. apply in_seq in Hi. lia.
        * right. destruct n; [lia | discriminate].
    - intros locals w2 (Hp2 & _ & _ & [Hsome|Hne]); [|contradiction].
      wp_steps. cbn [self calls].
      split; [|exact Hsome].
      pose proof (@atRest_switchBreak_None w w2 posn (calls w2) Hpre Hp2) as H.
      destruct H as (Hp & Hre). split; [|exact Hre].
      pass_goal Hp. }
  intros st w2 (Hr2 & Hst). wp_step.
  apply wp_mono with (Q := fun _ w3 => atRest w w3) (E := drawFailure w); [| |auto].
  { destruct (Label_hide (settings (self w))); cbn [negb].
    - apply wp_ret. assumption.
    - wp_steps; try assumption; try congruence. rest_exit Hr2. }
  intros [] w3 Hr3. wp_step.
  apply wp_mono with (Q := fun _ w4 => atRest w w4) (E := drawFailure w); [| |auto].
  { apply wp_when; intros _; [|exact Hr3].
    apply wp_autoMirrorDraw_exit; assumption. }
  intros [] w4 Hr4.
  wp_steps; try exact Hr4.
  - rest_exit Hr4.
  - rest_exit Hr4.
Qed.

End DrawExits.


Section ExitClaims.
Context {base : AxisBase}.

(** C6, as amended: the state the draw entry point leaves behind, on
    an axis whose plotted range is the unbroken one.  When it returns
    (the early return of the auto-mirror step included) the
    active-piece flag is [None] and the plotted range is the one it had
    before the draw.  When it ends early on a laid-out, unbroken axis,
    it is with the exception of a call the surface refused; the axis
    is restored in the same way when that call was made outside the
    loops over the pieces (the axis line, the axis label, the line of
    the mirrored copy, the collected text, the control graph), and is
    left switched to the piece being drawn, its plotted range narrowed
    to that piece, when the call was made inside the loop of
    [_axisDraw] or of [_autoMirrorDraw] (tick marks, the text
    suppression test, tick labels). *)
Theorem C6_draw_exits posn parentposn outerbounds (w : World) :
  plottedrange (self w) = orig_plottedrange (self w) ->
  (forall w',
      _axisDraw posn parentposn outerbounds w = (Return tt, w') ->
      rangeswitch (self w') = None /\
      plottedrange (self w') = plottedrange (self w)) /\
  (ready (self w) -> rangeswitch (self w) = None ->
   forall e w',
     _axisDraw posn parentposn outerbounds w = (Raise e, w') ->
     e = SurfaceError /\
     exists c,
       surfaceRaises (calls w') c = true /\
       if in_piece_loop c then switched (self w) (self w')
       else restored (self w) (self w')).
Proof.
  intros Hpre. split.
  - intros w' Hrun. apply axisDraw_returns in Hrun.
    destruct Hrun as (_ & Hrs & Hpr & _).
    split; [exact Hrs | rewrite Hpr, Hpre; reflexivity].
  - intros Hready Hrs e w' Hrun.
    exact (wp_raises _ _ _ _
             (@wp_axisDraw_exit base posn parentposn outerbounds w Hpre Hready Hrs)
             Hrun).
Qed.

End ExitClaims.

(** C6, as stated, fails: a surface error raised while the first piece
    is being drawn leaves the axis switched to that piece, with its
    plotted range narrowed to (0, 20). *)
Lemma C6_counterexample :
  let base := example_base (0, 100) (fun _ => 0) raises_on_major_ticks in
  let w := laid_out (example_settings [20; 40] []) in
  exists w',
    _axisDraw example_posn example_posn None w = (Raise SurfaceError, w') /\
    rangeswitch (self w) = None /\
    plottedrange (self w) = (0, 100) /\
    rangeswitch (self w') = Some 0%nat /\
    plottedrange (self w') = (0, 20).
Proof.
  cbv zeta. eexists. split; [vm_compute; reflexivity|].
  repeat split; reflexivity.
Qed.

Lemma C6_draw_exits_witness :
  (let base := example_base (0, 100) (fun _ => 0) never_raises in
   let w := laid_out (example_settings [20; 40] []) in
   let w' := snd (_axisDraw example_posn example_posn None w) in
   _axisDraw example_posn example_posn None w = (Return tt, w') /\
   rangeswitch (self w') = None /\
   plottedrange (self w') = (0, 100)) /\
  (let base := example_base (0, 100) (fun _ => 0) raises_on_major_ticks in
   let w := laid_out (example_settings [20; 40] []) in
   let w' := snd (_axisDraw example_posn example_posn None w) in
   _axisDraw example_posn example_posn None w = (Raise SurfaceError, w') /\
   switched (self w) (self w')) /\
  (let base := example_base (0, 100) (fun _ => 0) raises_on_axis_label in
   let w := laid_out (example_settings [20; 40] []) in
   let w' := snd (_axisDraw example_posn example_posn None w) in
   _axisDraw example_posn example_posn None w = (Raise SurfaceError, w') /\
   restored (self w) (self w')).
Proof.
  cbv zeta. split; [|split].
  - set (base := example_base (0, 100) (fun _ => 0) never_raises).
    set (w := laid_out (example_settings [20; 40] [])).
    assert (Hrun : _axisDraw example_posn example_posn None w
                   = (Return tt, snd (_axisDraw example_posn example_posn None w)))
      by (vm_compute; reflexivity).
    split; [exact Hrun|].
    exact (proj1 (@C6_draw_exits base example_posn example_posn None w eq_refl)
                 _ Hrun).
  - set (base := example_base (0, 100) (fun _ => 0) raises_on_major_ticks).
    set (w := laid_out (example_settings [20; 40] [])).
    assert (Hready : ready (self w)) by (vm_compute; repeat split).
    assert (Hrun : _axisDraw example_posn example_posn None w
                   = (Raise SurfaceError,
                      snd (_axisDraw example_posn example_posn None w)))
      by (vm_compute; reflexivity).
    split; [exact Hrun|].
    destruct (proj2 (@C6_draw_exits base example_posn example_posn None w eq_refl)
                    Hready eq_refl _ _ Hrun) as (_ & c & Hc & Hstate).
    destruct c; try discriminate Hc; exact Hstate.
  - set (base := example_base (0, 100) (fun _ => 0) raises_on_axis_label).
    set (w := laid_out (example_settings [20; 40] [])).
    assert (Hready : ready (self w)) by (vm_compute; repeat split).
    assert (Hrun : _axisDraw example_posn example_posn None w
                   = (Raise SurfaceError,
                      snd (_axisDraw example_posn example_posn None w)))
      by (vm_compute; reflexivity).
    split; [exact Hrun|].
    destruct (proj2 (@C6_draw_exits base example_posn example_posn None w eq_refl)
                    Hready eq_refl _ _ Hrun) as (_ & c & Hc & Hstate).
    destruct c; try discriminate Hc; exact Hstate.
Defined.


(** ** Further properties of the layout *)

(** Pairing the even-indexed and the odd-indexed elements of a list of
    even length and laying the pairs out again gives the list back. *)
Lemma interleave_even_odd (n : nat) :
  forall l : list Q,
    length l = (n * 2)%nat ->
    flat_map (fun p => [fst p; snd p])
      (combine (map (fun i => nth (i * 2) l 0) (seq 0 n))
               (map (fun i => nth (i * 2 + 1) l 0) (seq 0 n)))
    = l.
Proof.
  induction n as [|n IH]; intros l Hlen.
  - destruct l; [reflexivity | discriminate].
  - destruct l as [|x [|y l]]; try discriminate.
    cbn [seq map combine flat_map fst snd app Nat.mul Nat.add nth].
    rewrite <- seq_shift, !map_map. f_equal. f_equal.
    etransitivity; [|apply (IH l); simpl in Hlen; lia].
    reflexivity.
Qed.

Section LayoutFacts.
Context {base : AxisBase}.

(** X1: the value pieces tile the plotted range around the breaks.
    After [computePlottedRange], laying the (start, stop) pairs of the
    pieces end to end gives [breakvlist] back; the first piece starts at
    the low end of the full range, the last stops at its high end, and
    between piece [i] and piece [i+1] lies exactly the [i]-th pair of
    break points. *)
Theorem X1_pieces_tile_the_range (a : Axis) (cs : list Call) :
  let points := breakPoints (settings a) in
  let full := Axis_computePlottedRange a in
  exists a',
    computePlottedRange {| self := a; calls := cs |}
    = (Return tt, {| self := a'; calls := cs |}) /\
    flat_map (fun p => [fst p; snd p])
      (combine (breakvstarts a') (breakvstops a')) = breakvlist a' /\
    nth_error (breakvstarts a') 0 = Some (fst full) /\
    nth_error (breakvstops a') (length points / 2) = Some (snd full) /\
    forall i, (i < length points / 2)%nat ->
      nth_error (breakvstops a') i = nth_error points (2 * i) /\
      nth_error (breakvstarts a') (S i) = nth_error points (2 * i + 1).
Proof.
  cbv zeta.
  destruct (computePlottedRange_run a cs) as (a' & Hrun & Hpost).
  exists a'. split; [exact Hrun|].
  destruct Hpost as (_ & _ & _ & _ & _ & Hfl & Hst & Hsp & _).
  cbv zeta in *.
  set (points := breakPoints (settings a)) in *.
  set (full := Axis_computePlottedRange a) in *.
  pose proof (length_flat_values full points) as Hlen.
  set (k := (length points / 2)%nat) in *.
  assert (Hk : (k * 2 <= length points)%nat).
  { subst k. pose proof (Nat.div_mod_eq (length points) 2). lia. }
  assert (Hstop : forall i, (i < k)%nat ->
             nth (i * 2 + 1) (flat_values full points) 0 = nth (2 * i) points 0).
  { intros i Hi. unfold flat_values. cbn [app].
    replace (i * 2 + 1)%nat with (S (2 * i)) by lia. cbn [nth].
    rewrite app_nth1 by (rewrite length_firstn; lia).
    rewrite nth_firstn.
    destruct (Nat.ltb_spec (2 * i) (length points / 2 * 2)); [reflexivity | lia]. }
  assert (Hstart : forall i, (i < k)%nat ->
             nth (S i * 2) (flat_values full points) 0 = nth (2 * i + 1) points 0).
  { intros i Hi. unfold flat_values. cbn [app].
    replace (S i * 2)%nat with (S (2 * i + 1)) by lia. cbn [nth].
    rewrite app_nth1 by (rewrite length_firstn; lia).
    rewrite nth_firstn.
    destruct (Nat.ltb_spec (2 * i + 1) (length points / 2 * 2)); [reflexivity | lia]. }
  split; [rewrite Hst, Hsp, Hfl; apply interleave_even_odd, Hlen|].
  split.
  { rewrite Hst, nth_error_map, nth_error_seq.
    destruct (Nat.ltb_spec 0 (k + 1)); [reflexivity | lia]. }
  split.
  { rewrite Hsp, nth_error_map, nth_error_seq.
    destruct (Nat.ltb_spec k (k + 1)); [|lia].
    cbn [option_map Nat.add fst snd]. f_equal.
    unfold flat_values. cbn [app].
    replace (k * 2 + 1)%nat with (S (k * 2)) by lia. cbn [nth].
    rewrite app_nth2 by (rewrite length_firstn; lia).
    rewrite length_firstn. replace (_ - _)%nat with 0%nat by lia. reflexivity. }
  intros i Hi. split.
  - rewrite Hsp, nth_error_map, nth_error_seq.
    destruct (Nat.ltb_spec i (k + 1)); [|lia].
    cbn [option_map Nat.add fst snd]. rewrite Hstop by exact Hi.
    symmetry. apply nth_error_nth'. lia.
  - rewrite Hst, nth_error_map, nth_error_seq.
    destruct (Nat.ltb_spec (S i) (k + 1)); [|lia].
    cbn [option_map Nat.add fst snd]. rewrite Hstart by exact Hi.
    symmetry. apply nth_error_nth'. lia.
Qed.

End LayoutFacts.


(** *** [switchBreak], step by step *)

Lemma switchBreak_None_run posn otherposition (w : World) :
  switchBreak None posn otherposition w
  = (Return tt,
     {| self := located posn otherposition
                  (set_plottedrange (orig_plottedrange (self w))
                     (set_rangeswitch None (self w)));
        calls := calls w |}).
Proof.
  assert (Hwp : wp (switchBreak None posn otherposition)
                  (fun _ w' =>
                     w' = {| self := located posn otherposition
                                       (set_plottedrange (orig_plottedrange (self w))
                                          (set_rangeswitch None (self w)));
                             calls := calls w |})
                  (fun _ _ => False) w)
    by (apply wp_switchBreak_None; reflexivity).
  apply wp_total in Hwp. destruct Hwp as ([] & w' & Hrun & ->). exact Hrun.
Qed.

Lemma switchBreak_Some_run i posn otherposition (w : World) vstart vstop pstart pstop :
  valueRange (self w) i = Some (vstart, vstop) ->
  posRange (self w) i = Some (pstart, pstop) ->
  switchBreak (Some i) posn otherposition w
  = (Return tt,
     {| self := located (segmentBounds (direction (settings (self w)))
                           posn pstart pstop) otherposition
                  (set_plottedrange (vstart, vstop)
                     (set_rangeswitch (Some i) (self w)));
        calls := calls w |}).
Proof.
  unfold valueRange, posRange. intros Hvr Hpr.
  destruct (nth_error (breakvstarts (self w)) i) as [vs|] eqn:E1; [|discriminate].
  destruct (nth_error (breakvstops (self w)) i) as [ve|] eqn:E2; [|discriminate].
  destruct (nth_error (posstarts (self w)) i) as [ps|] eqn:E3; [|discriminate].
  destruct (nth_error (posstops (self w)) i) as [pe|] eqn:E4; [|discriminate].
  injection Hvr as <- <-. injection Hpr as <- <-.
  assert (Hwp : wp (switchBreak (Some i) posn otherposition)
                  (fun _ w' =>
                     w' = {| self := located (segmentBounds (direction (settings (self w)))
                                                posn ps pe) otherposition
                                       (set_plottedrange (vs, ve)
                                          (set_rangeswitch (Some i) (self w)));
                             calls := calls w |})
                  (fun _ _ => False) w).
  { apply wp_switchBreak_Some.
    - intros vs' ve' ps' pe' H1 H2 H3 H4.
      rewrite E1 in H1. rewrite E2 in H2. rewrite E3 in H3. rewrite E4 in H4.
      injection H1 as <-. injection H2 as <-. injection H3 as <-. injection H4 as <-.
      reflexivity.
    - unfold valueRange, posRange. rewrite E1, E2, E3, E4.
      intros [H|H]; discriminate H. }
  apply wp_total in Hwp. destruct Hwp as ([] & w' & Hrun & ->). exact Hrun.
Qed.

(** X2: switching to a piece and back leaves nothing behind.
    [switchBreak(i, ...)] followed by [switchBreak(None, posn)] ends in
    exactly the state [switchBreak(None, posn)] alone gives: no active
    piece, the plotted range saved by [computePlottedRange], the full
    bounds. *)
Theorem X2_switch_and_back (w : World) (i : nat) posn otherposition
    posn' otherposition' :
  valueRange (self w) i <> None ->
  posRange (self w) i <> None ->
  (switchBreak (Some i) posn otherposition ;; switchBreak None posn' otherposition') w
  = switchBreak None posn' otherposition' w /\
  exists a',
    switchBreak None posn' otherposition' w
    = (Return tt, {| self := a'; calls := calls w |}) /\
    rangeswitch a' = None /\
    plottedrange a' = orig_plottedrange (self w) /\
    location a' = (posn', otherposition').
Proof.
  intros Hvr Hpr.
  destruct (valueRange (self w) i) as [[vs ve]|] eqn:E1; [|contradiction].
  destruct (posRange (self w) i) as [[ps pe]|] eqn:E2; [|contradiction].
  split.
  - unfold bind. rewrite (switchBreak_Some_run _ _ _ _ E1 E2).
    rewrite !switchBreak_None_run. destruct w as [a cs]. destruct a. reflexivity.
  - eexists. split; [apply switchBreak_None_run|]. repeat split.
Qed.

(** X3: [switchBreak] stores the piece number before it looks the
    piece up.  For a number with no value range it raises
    [IndexError], and the widget is left with [rangeswitch] set to that
    number while its plotted range and location are untouched. *)
Theorem X3_switch_out_of_range (w : World) (i : nat) posn otherposition :
  valueRange (self w) i = None ->
  exists a',
    switchBreak (Some i) posn otherposition w
    = (Raise IndexError, {| self := a'; calls := calls w |}) /\
    rangeswitch a' = Some i /\
    plottedrange a' = plottedrange (self w) /\
    location a' = location (self w).
Proof.
  unfold valueRange. intros Hnone.
  exists (set_rangeswitch (Some i) (self w)).
  split; [|repeat split].
  unfold switchBreak, bind, assign, get_self, index. cbn.
  destruct (nth_error (breakvstarts (self w)) i); [|reflexivity].
  destruct (nth_error (breakvstops (self w)) i); [discriminate | reflexivity].
Qed.

(** X4: the pixel bounds a piece is drawn in.  With piece [rs] active,
    [updateAxisLocation] hands the inherited method bounds that differ
    from the given ones only along the axis: for a horizontal axis
    [bounds[0]] and [bounds[2]] become the points at the fractions
    [pstart] and [pstop] of the way from [bounds[0]] to [bounds[2]],
    for a vertical one [bounds[3]] and [bounds[1]] the points at those
    fractions of the way from [bounds[3]] (fraction 0, the bottom) to
    [bounds[1]].  For fractions within [0, 1] the piece lies between
    the ends of the full axis, and its length is the full length times
    [pstop - pstart]. *)
Theorem X4_piece_pixel_bounds (w : World) bounds otherposition (rs : nat)
    (pstart pstop : Q) :
  rangeswitch (self w) = Some rs ->
  posRange (self w) rs = Some (pstart, pstop) ->
  0 <= pstart <= 1 ->
  0 <= pstop <= 1 ->
  exists bounds',
    updateAxisLocation bounds otherposition w
    = (Return tt, {| self := located bounds' otherposition (self w);
                     calls := calls w |}) /\
    match direction (settings (self w)) with
    | horizontal =>
        b1 bounds' = b1 bounds /\ b3 bounds' = b3 bounds /\
        b0 bounds' == b0 bounds + (b2 bounds - b0 bounds) * pstart /\
        b2 bounds' == b0 bounds + (b2 bounds - b0 bounds) * pstop /\
        between (b0 bounds) (b2 bounds) (b0 bounds') /\
        between (b0 bounds) (b2 bounds) (b2 bounds') /\
        b2 bounds' - b0 bounds' == (b2 bounds - b0 bounds) * (pstop - pstart)
    | vertical =>
        b0 bounds' = b0 bounds /\ b2 bounds' = b2 bounds /\
        b3 bounds' == b3 bounds + (b1 bounds - b3 bounds) * pstart /\
        b1 bounds' == b3 bounds + (b1 bounds - b3 bounds) * pstop /\
        between (b3 bounds) (b1 bounds) (b3 bounds') /\
        between (b3 bounds) (b1 bounds) (b1 bounds') /\
        b1 bounds' - b3 bounds' == (b1 bounds - b3 bounds) * (pstop - pstart)
    end.
Proof.
  intros Hrs Hpr [Hs0 Hs1] [He0 He1].
  exists (segmentBounds (direction (settings (self w))) bounds pstart pstop).
  split.
  - assert (Hwp : wp (updateAxisLocation bounds otherposition)
                    (fun _ w' =>
                       w' = {| self := located
                                         (segmentBounds (direction (settings (self w)))
                                            bounds pstart pstop)
                                         otherposition (self w);
                               calls := calls w |})
                    (fun _ _ => False) w).
    { unfold posRange in Hpr.
      destruct (nth_error (posstarts (self w)) rs) as [ps|] eqn:E1; [|discriminate].
      destruct (nth_error (posstops (self w)) rs) as [pe|] eqn:E2; [|discriminate].
      injection Hpr as <- <-.
      apply wp_updateAxisLocation; rewrite Hrs.
      - intros bounds' (ps' & pe' & H1 & H2 & ->).
        rewrite E1 in H1. rewrite E2 in H2.
        injection H1 as <-. injection H2 as <-. reflexivity.
      - intros (rs' & [= <-] & Hnone). unfold posRange in Hnone.
        rewrite E1, E2 in Hnone. discriminate. }
    apply wp_total in Hwp. destruct Hwp as ([] & w' & Hrun & ->). exact Hrun.
  - unfold between.
    destruct (direction (settings (self w))); cbn [segmentBounds b0 b1 b2 b3].
    + split; [reflexivity|]. split; [reflexivity|].
      split; [reflexivity|]. split; [reflexivity|].
      split; [|split; [|ring]].
      * destruct (Qlt_le_dec (b2 bounds) (b0 bounds)); [right | left]; split; nra.
      * destruct (Qlt_le_dec (b2 bounds) (b0 bounds)); [right | left]; split; nra.
    + split; [reflexivity|]. split; [reflexivity|].
      split; [reflexivity|]. split; [reflexivity|].
      split; [|split; [|ring]].
      * destruct (Qlt_le_dec (b1 bounds) (b3 bounds)); [right | left]; split; nra.
      * destruct (Qlt_le_dec (b1 bounds) (b3 bounds)); [right | left]; split; nra.
Qed.


Lemma py_insert_Permutation x l : Permutation (x :: l) (py_insert x l).
Proof.
  induction l as [|y l IH]; simpl; [reflexivity|].
  destruct (Qle_bool x y); [reflexivity|].
  rewrite perm_swap. apply perm_skip, IH.
Qed.

Lemma py_sort_Permutation l : Permutation l (py_sort l).
Proof.
  induction l as [|x l IH]; simpl; [reflexivity|].
  rewrite <- py_insert_Permutation. apply perm_skip, IH.
Qed.

(** X7: what [updateAxisLocation] does with the [breakPosns] setting.
    The positions it uses start with the explicit positions, sorted
    ascending (a rearrangement of the setting); there are as many as
    the larger of the number of explicit positions and the number of
    breaks, so surplus positions are never dropped; and when there are
    at least as many explicit positions as breaks nothing is added. *)
Theorem X7_explicit_positions_kept (points breakPosns : list Q) :
  let posns := resolve_posns points breakPosns in
  let explicit := firstn (length breakPosns) posns in
  Permutation breakPosns explicit /\
  ascending explicit /\
  length posns = Nat.max (length breakPosns) (length points / 2) /\
  ((length points / 2 <= length breakPosns)%nat -> posns = explicit).
Proof.
  cbv zeta.
  assert (Hfirst : firstn (length breakPosns) (resolve_posns points breakPosns)
                   = py_sort breakPosns).
  { unfold resolve_posns. cbv zeta.
    destruct (length (py_sort breakPosns) <? length points / 2)%nat.
    - rewrite <- (length_py_sort breakPosns) at 1.
      rewrite firstn_app, Nat.sub_diag, firstn_all. cbn. apply app_nil_r.
    - rewrite <- (length_py_sort breakPosns) at 1. apply firstn_all. }
  rewrite Hfirst.
  split; [apply py_sort_Permutation|].
  split; [apply py_sort_ascending|].
  split; [apply length_resolve_posns|].
  intros Hle. unfold resolve_posns. cbv zeta.
  destruct (Nat.ltb_spec (length (py_sort breakPosns)) (length points / 2)) as [Hlt|_];
    [|reflexivity].
  rewrite length_py_sort in Hlt. lia.
Qed.

(** *** Where the pieces lie *)

Lemma breakgap_halves : breakgap == 2 * (breakgap / 2) /\ 0 < breakgap / 2.
Proof. split; reflexivity. Qed.

(** Linear arithmetic with [breakgap] and its half as unknowns. *)
Ltac gap_arith :=
  let Hbg := fresh "Hbg" in
  let Hpos := fresh "Hpos" in
  destruct breakgap_halves as [Hbg Hpos];
  generalize dependent (breakgap / 2); generalize dependent breakgap;
  intros; lra.

Lemma nth_error_collate_starts posns i p :
  nth_error posns i = Some p ->
  nth_error (fst (collate posns)) (S i) = Some (p + breakgap / 2).
Proof.
  intros Hp. rewrite collate_eq. cbn [fst nth_error].
  rewrite nth_error_map, Hp. reflexivity.
Qed.

Lemma nth_error_collate_stops posns i p :
  nth_error posns i = Some p ->
  nth_error (snd (collate posns)) i = Some (p - breakgap / 2).
Proof.
  intros Hp. rewrite collate_eq. cbn [snd].
  rewrite nth_error_app1
    by (rewrite length_map; apply nth_error_Some; rewrite Hp; discriminate).
  rewrite nth_error_map, Hp. reflexivity.
Qed.

Lemma pieceLengths_sum (h : Q) (posns : list Q) :
  forall s0,
    Qsum (pieceLengths (s0 :: map (fun pos => pos + h) posns)
                       (map (fun pos => pos - h) posns ++ [1]))
    == 1 - s0 - Qnat (length posns) * (2 * h).
Proof.
  induction posns as [|p l IH]; intros s0.
  - cbn. unfold Qnat. cbn. ring.
  - cbn [map app length]. unfold pieceLengths in *.
    cbn [combine map Qsum fold_right fst snd].
    change (fold_right Qplus 0 ?l) with (Qsum l).
    rewrite (IH (p + h)), Qnat_succ. ring.
Qed.

(** X9: how much of the axis the pieces get.  Taking the floats as
    exact rationals: one piece is stored per break position and one
    more, without any check; the piece between two consecutive
    positions [p] and [q] has the length [(q - p) - breakgap], which is
    zero or negative when the positions are no more than [breakgap]
    apart; and the lengths of all pieces add up to one minus
    [breakgap] for each position, wherever the positions lie. *)
Theorem X9_piece_lengths (posns : list Q) :
  let starts := fst (collate posns) in
  let stops := snd (collate posns) in
  length starts = S (length posns) /\
  length stops = S (length posns) /\
  (forall i p q,
      nth_error posns i = Some p ->
      nth_error posns (S i) = Some q ->
      exists pstart pstop,
        nth_error starts (S i) = Some pstart /\
        nth_error stops (S i) = Some pstop /\
        pstop - pstart == (q - p) - breakgap) /\
  Qsum (pieceLengths starts stops) == 1 - Qnat (length posns) * breakgap.
Proof.
  cbv zeta.
  split; [apply length_collate_starts|].
  split; [apply length_collate_stops|].
  split.
  - intros i p q Hp Hq.
    exists (p + breakgap / 2), (q - breakgap / 2).
    split; [apply nth_error_collate_starts, Hp|].
    split; [apply nth_error_collate_stops, Hq|].
    field.
  - rewrite collate_eq. cbn [fst snd].
    rewrite pieceLengths_sum. field.
Qed.

Lemma switchBreak_no_piece (w : World) (i : nat) posn otherposition :
  valueRange (self w) i = None ->
  switchBreak (Some i) posn otherposition w
  = (Raise IndexError,
     {| self := set_rangeswitch (Some i) (self w); calls := calls w |}).
Proof.
  unfold valueRange. intros Hnone.
  unfold switchBreak, bind, assign, get_self, index. cbn.
  destruct (nth_error (breakvstarts (self w)) i); [|reflexivity].
  destruct (nth_error (breakvstops (self w)) i); [discriminate | reflexivity].
Qed.

Section PixelFacts.
Context {base : AxisBase}.

(** X5: an axis without breaks is drawn as one piece that is the whole
    axis.  With no break points and no break positions, after a layout
    pass switching to piece 0 installs the full plotted range and
    bounds equal to the full bounds; there is no piece 1. *)
Theorem X5_unbroken_piece_is_whole_axis (a : Axis) (cs : list Call)
    bounds otherposition posn otherposition' :
  breakPoints (settings a) = [] ->
  breakPosns (settings a) = [] ->
  rangeswitch a = None ->
  exists a1 a2 bounds' a3,
    (computePlottedRange ;; updateAxisLocation bounds otherposition)
      {| self := a; calls := cs |}
    = (Return tt, {| self := a1; calls := cs |}) /\
    switchBreak (Some 0%nat) posn otherposition' {| self := a1; calls := cs |}
    = (Return tt, {| self := a2; calls := cs |}) /\
    plottedrange a2 = Axis_computePlottedRange a /\
    location a2 = (bounds', otherposition') /\
    Bounds_eq bounds' posn /\
    switchBreak (Some 1%nat) posn otherposition' {| self := a1; calls := cs |}
    = (Raise IndexError, {| self := a3; calls := cs |}).
Proof.
  intros Hpoints Hposns Hrs.
  destruct (@layout_run base a cs bounds otherposition Hrs) as (a0 & Hpost & Hrun).
  pose proof (valueRange_computePlottedRange Hpost) as Hvr.
  destruct Hpost as (Hs & _).
  rewrite Hpoints in Hvr.
  set (a1 := located bounds otherposition a0) in *.
  assert (Hvr0 : valueRange a1 0 = Some (Axis_computePlottedRange a)).
  { subst a1. rewrite valueRange_located, Hvr. cbn.
    destruct (Axis_computePlottedRange a); reflexivity. }
  assert (Hpr0 : posRange a1 0 = Some (0, 1)).
  { subst a1. rewrite posRange_located, Hs, Hpoints, Hposns. reflexivity. }
  assert (Hvr1 : valueRange a1 1 = None).
  { subst a1. rewrite valueRange_located, Hvr. reflexivity. }
  destruct (Axis_computePlottedRange a) as [lo hi] eqn:Hfull.
  pose proof (@switchBreak_Some_run 0 posn otherposition'
                {| self := a1; calls := cs |} _ _ _ _ Hvr0 Hpr0) as Hsw.
  pose proof (@switchBreak_no_piece {| self := a1; calls := cs |} 1 posn
                otherposition' Hvr1) as Hraise.
  cbn [self calls] in Hsw, Hraise.
  eexists a1, _, _, _.
  split; [exact Hrun|]. split; [exact Hsw|].
  split; [reflexivity|]. split; [reflexivity|].
  split; [|exact Hraise].
  unfold Bounds_eq.
  destruct (direction (settings a1)); cbn [segmentBounds b0 b1 b2 b3];
    repeat split; try reflexivity; ring.
Qed.

End PixelFacts.


Lemma ready_posRange a i :
  ready a -> (S i < breakvnum a)%nat ->
  exists p pstart pstop',
    posRange a i = Some (pstart, p - breakgap / 2) /\
    posRange a (S i) = Some (p + breakgap / 2, pstop').
Proof.
  intros Hready Hi.
  destruct (ready_in_range Hready (i := i)) as (_ & Hpi & _); [lia|].
  destruct (ready_in_range Hready Hi) as (_ & HpS & _).
  destruct Hready as (Hn & _ & _ & _ & _ & Hps & Hpe). cbv zeta in *.
  set (posns := resolve_posns (breakPoints (settings a)) (breakPosns (settings a))) in *.
  assert (Hlen : (i < length posns)%nat).
  { subst posns. rewrite length_resolve_posns. lia. }
  destruct (nth_error posns i) as [p|] eqn:Hp;
    [|apply nth_error_None in Hp; lia].
  unfold posRange in *. rewrite Hps, Hpe in *.
  rewrite (nth_error_collate_stops _ _ Hp) in *.
  rewrite (nth_error_collate_starts _ _ Hp) in *.
  destruct (nth_error (fst (collate posns)) i) as [ps|]; [|contradiction].
  destruct (nth_error (snd (collate posns)) (S i)) as [pe|]; [|contradiction].
  exists p, ps, pe. split; reflexivity.
Qed.

Lemma ready_valueRange a i :
  ready a -> (i < breakvnum a)%nat -> exists r, valueRange a i = Some r.
Proof.
  intros Hready Hi. destruct (ready_in_range Hready Hi) as (Hvr & _).
  destruct (valueRange a i) as [r|]; [eauto | contradiction].
Qed.

(** X6: the visible gap.  On a laid-out axis, switch to piece [i] and
    then to piece [i+1] as the draw loop does: along the axis, the
    bounds of piece [i+1] begin [breakgap] times the full length of the
    axis after the bounds of piece [i] end (for a horizontal axis from
    [bounds[2]] of the one to [bounds[0]] of the other, for a vertical
    axis from [bounds[1]] to [bounds[3]]). *)
Theorem X6_pixel_gap_between_pieces (w : World) (i : nat) posn otherposition :
  ready (self w) ->
  (S i < breakvnum (self w))%nat ->
  exists w1 w2,
    switchBreak (Some i) posn otherposition w = (Return tt, w1) /\
    switchBreak (Some (S i)) posn otherposition w1 = (Return tt, w2) /\
    let piece := fst (location (self w1)) in
    let next := fst (location (self w2)) in
    match direction (settings (self w)) with
    | horizontal => b0 next - b2 piece == breakgap * (b2 posn - b0 posn)
    | vertical => b3 next - b1 piece == breakgap * (b1 posn - b3 posn)
    end.
Proof.
  intros Hready Hi.
  destruct (ready_posRange Hready Hi) as (p & ps & pe' & Hpi & HpS).
  destruct (@ready_valueRange (self w) i Hready) as ([vs ve] & Hvi); [lia|].
  destruct (ready_valueRange Hready Hi) as ([vs' ve'] & HvS).
  pose proof (@switchBreak_Some_run i posn otherposition w _ _ _ _ Hvi Hpi) as Hrun1.
  set (w1 := {| self := located _ otherposition _; calls := calls w |}) in Hrun1.
  assert (HvS1 : valueRange (self w1) (S i) = Some (vs', ve')) by exact HvS.
  assert (HpS1 : posRange (self w1) (S i) = Some (p + breakgap / 2, pe')).
  { subst w1. cbn [self]. rewrite posRange_located.
    cbn [settings set_plottedrange set_rangeswitch].
    destruct Hready as (_ & _ & _ & _ & _ & Hps & Hpe). cbv zeta in *.
    unfold posRange in HpS. rewrite Hps, Hpe in HpS. exact HpS. }
  pose proof (@switchBreak_Some_run (S i) posn otherposition w1 _ _ _ _ HvS1 HpS1) as Hrun2.
  change (direction (settings (self w1))) with (direction (settings (self w)))
    in Hrun2.
  eexists w1, _. split; [exact Hrun1|]. split; [exact Hrun2|].
  subst w1. cbn [self location located set_pos set_location fst].
  destruct (direction (settings (self w)));
    cbn [segmentBounds b0 b1 b2 b3]; field.
Qed.

Lemma X2_switch_and_back_witness :
  let base := example_base (0, 100) (fun _ => 0) never_raises in
  let w := laid_out (example_settings [20; 40] []) in
  (switchBreak (Some 1%nat) example_posn None ;; switchBreak None example_posn None) w
  = switchBreak None example_posn None w.
Proof.
  cbv zeta.
  refine (proj1 (@X2_switch_and_back
                   (laid_out (base := example_base (0, 100) (fun _ => 0) never_raises)
                      (example_settings [20; 40] []))
                   1 example_posn None example_posn None _ _));
    vm_compute; discriminate.
Defined.

Lemma X3_switch_out_of_range_witness :
  let base := example_base (0, 100) (fun _ => 0) never_raises in
  let w := laid_out (example_settings [20; 40] []) in
  exists a',
    switchBreak (Some 2%nat) example_posn None w
    = (Raise IndexError, {| self := a'; calls := calls w |}) /\
    rangeswitch a' = Some 2%nat.
Proof.
  cbv zeta.
  destruct (@X3_switch_out_of_range
              (laid_out (base := example_base (0, 100) (fun _ => 0) never_raises)
                 (example_settings [20; 40] []))
              2 example_posn None eq_refl) as (a' & Hrun & Hrs & _).
  exists a'. split; assumption.
Defined.

Lemma X6_pixel_gap_between_pieces_witness :
  let base := example_base (0, 100) (fun _ => 0) never_raises in
  let w := laid_out (example_settings [20; 40] []) in
  exists w1 w2,
    switchBreak (Some 0%nat) example_posn None w = (Return tt, w1) /\
    switchBreak (Some 1%nat) example_posn None w1 = (Return tt, w2) /\
    b0 (fst (location (self w2))) - b2 (fst (location (self w1))) == 10.
Proof.
  cbv zeta.
  set (w := laid_out (base := example_base (0, 100) (fun _ => 0) never_raises)
              (example_settings [20; 40] [])).
  assert (Hready : ready (self w)) by (vm_compute; repeat split).
  assert (Hi : (1 < breakvnum (self w))%nat) by (vm_compute; lia).
  destruct (@X6_pixel_gap_between_pieces w 0 example_posn None Hready Hi)
    as (w1 & w2 & Hrun1 & Hrun2 & Hgap).
  exists w1, w2. split; [exact Hrun1|]. split; [exact Hrun2|].
  cbv zeta in Hgap. change (direction (settings (self w))) with horizontal in Hgap.
  rewrite Hgap. reflexivity.
Defined.

Lemma X4_piece_pixel_bounds_witness :
  let w := {| self := set_pos [0; 21 # 40] [19 # 40; 1]
                        (set_rangeswitch (Some 1%nat)
                           (initial_axis (example_settings [20; 40] [])));
              calls := [] |} in
  exists bounds',
    updateAxisLocation example_posn None w
    = (Return tt, {| self := located bounds' None (self w); calls := calls w |}) /\
    b1 bounds' = 0 /\ b3 bounds' = 100 /\
    b0 bounds' == 105 /\ b2 bounds' == 200.
Proof.
  cbv zeta.
  set (w := {| self := set_pos [0; 21 # 40] [19 # 40; 1]
                         (set_rangeswitch (Some 1%nat)
                            (initial_axis (example_settings [20; 40] [])));
               calls := [] |}).
  destruct (@X4_piece_pixel_bounds w example_posn None 1 (21 # 40) 1
              eq_refl eq_refl)
    as (bounds' & Hrun & Hb1 & Hb3 & Hb0 & Hb2 & _).
  { split; discriminate. }
  { split; discriminate. }
  cbn [direction settings self w set_pos set_rangeswitch initial_axis
       example_settings] in *.
  exists bounds'. split; [exact Hrun|].
  split; [exact Hb1|]. split; [exact Hb3|].
  split; [rewrite Hb0 | rewrite Hb2]; reflexivity.
Defined.

Lemma X5_unbroken_piece_is_whole_axis_witness :
  let base := example_base (0, 100) (fun _ => 0) never_raises in
  let a := initial_axis (example_settings [] []) in
  exists a1 a2,
    (computePlottedRange ;; updateAxisLocation example_posn None)
      {| self := a; calls := [] |}
    = (Return tt, {| self := a1; calls := [] |}) /\
    switchBreak (Some 0%nat) example_posn None {| self := a1; calls := [] |}
    = (Return tt, {| self := a2; calls := [] |}) /\
    plottedrange a2 = (0, 100).
Proof.
  cbv zeta.
  destruct (@X5_unbroken_piece_is_whole_axis
              (example_base (0, 100) (fun _ => 0) never_raises)
              (initial_axis (example_settings [] [])) [] example_posn None
              example_posn None eq_refl eq_refl eq_refl)
    as (a1 & a2 & bounds' & a3 & Hrun & Hsw & Hpr & _).
  exists a1, a2. split; [exact Hrun|]. split; [exact Hsw | exact Hpr].
Defined.


(** ** Frame rules *)

Lemma appends_refl P w : appends P w w.
Proof. exists []. split; [symmetry; apply app_nil_r | constructor]. Qed.

Lemma appends_trans P w1 w2 w3 : appends P w1 w2 -> appends P w2 w3 -> appends P w1 w3.
Proof.
  intros (cs1 & H1 & F1) (cs2 & H2 & F2). exists (cs1 ++ cs2).
  split; [rewrite H2, H1; symmetry; apply app_assoc | apply Forall_app; auto].
Qed.

Lemma keeps_refl P w : keeps P w w.
Proof. split; [apply stable_refl | apply appends_refl]. Qed.

Lemma keeps_trans P w1 w2 w3 : keeps P w1 w2 -> keeps P w2 w3 -> keeps P w1 w3.
Proof.
  intros (S1 & A1) (S2 & A2).
  split; [exact (stable_trans S1 S2) | exact (appends_trans A1 A2)].
Qed.

Lemma keeps_mono (P P' : Call -> Prop) w w' :
  (forall c, P c -> P' c) -> keeps P w w' -> keeps P' w w'.
Proof.
  intros HP (S1 & cs & Hcs & F). split; [exact S1|].
  exists cs. split; [exact Hcs | exact (Forall_impl _ HP F)].
Qed.

Lemma frames_mono {A} (P P' : Call -> Prop) (m : M A) :
  (forall c, P c -> P' c) -> frames P m -> frames P' m.
Proof.
  intros HP Hm w. eapply wp_mono; [apply Hm | |];
    intros ? w'; apply keeps_mono; exact HP.
Qed.

Lemma frames_ret {A} P (a : A) : frames P (ret a).
Proof. intros w. apply keeps_refl. Qed.

Lemma frames_raise {A} P e : frames P (@raise A e).
Proof. intros w. apply keeps_refl. Qed.

Lemma frames_bind {A B} P (m : M A) (f : A -> M B) :
  frames P m -> (forall a, frames P (f a)) -> frames P (bind m f).
Proof.
  intros Hm Hf w. apply wp_bind.
  eapply wp_mono; [apply Hm | | auto].
  intros a w1 H1. cbv beta.
  eapply wp_mono; [apply Hf | |]; intros ? w2 H2; exact (keeps_trans H1 H2).
Qed.

Lemma frames_get_self P : frames P get_self.
Proof. intros w. apply keeps_refl. Qed.

Lemma frames_assign P (f : Axis -> Axis) :
  (forall a, stable a (f a)) -> frames P (assign f).
Proof.
  intros Hf w. split; [apply Hf | apply (@appends_refl P w)].
Qed.

Lemma frames_when P (b : bool) m : frames P m -> frames P (when b m).
Proof. destruct b; [auto | intros _; apply frames_ret]. Qed.

Lemma frames_index {A} P (l : list A) i : frames P (index l i).
Proof.
  unfold index. destruct (nth_error l i); [apply frames_ret | apply frames_raise].
Qed.

Lemma frames_local {A} P (v : option A) : frames P (local v).
Proof. destruct v; [apply frames_ret | apply frames_raise]. Qed.

Lemma frames_foldM {A B} P (body : A -> B -> M A) :
  (forall acc x, frames P (body acc x)) ->
  forall l acc, frames P (foldM body l acc).
Proof.
  intros Hbody. induction l as [|x l IH]; intros acc; simpl.
  - apply frames_ret.
  - apply frames_bind; [apply Hbody | intros acc'; apply IH].
Qed.

Lemma frames_for_ {B} P (body : B -> M unit) l :
  (forall x, frames P (body x)) -> frames P (for_ l body).
Proof. intros Hbody. apply frames_foldM. intros _ x. apply Hbody. Qed.

Lemma stable_set_rangeswitch v a : stable a (set_rangeswitch v a).
Proof. unfold stable. cbn. repeat split. Qed.

Lemma stable_set_plottedrange v a : stable a (set_plottedrange v a).
Proof. unfold stable. cbn. repeat split. Qed.

Lemma stable_set_tickscalc v v' a : stable a (set_tickscalc v v' a).
Proof. unfold stable. cbn. repeat split. Qed.

Lemma stable_set_delta_axis v a : stable a (set_delta_axis v a).
Proof. unfold stable. cbn. repeat split. Qed.

Lemma stable_set_location v a : stable a (set_location v a).
Proof. unfold stable. cbn. repeat split. Qed.

Lemma stable_set_pos v v' a : stable a (set_pos v v' a).
Proof. unfold stable. cbn. repeat split. Qed.

Section Frames.
Context {base : AxisBase}.

Lemma frames_call (P : Call -> Prop) c : P c -> frames P (call c).
Proof.
  intros Hc w. apply wp_call; intros _; [|apply keeps_refl].
  split; [apply stable_refl|]. exists [c]. split; [reflexivity | auto].
Qed.

Lemma frames_computeTicks P allowauto : frames P (computeTicks allowauto).
Proof.
  intros w. apply wp_computeTicks. cbv zeta.
  split; [apply stable_set_tickscalc | apply (@appends_refl P w)].
Qed.

Lemma frames_updateAxisLocation P bounds otherposition :
  frames P (updateAxisLocation bounds otherposition).
Proof.
  unfold updateAxisLocation.
  apply frames_bind; [apply frames_get_self | intros a]. cbv zeta.
  apply frames_bind.
  { destruct (rangeswitch a); [|apply frames_ret].
    destruct (direction (settings a));
      repeat (apply frames_bind; [apply frames_index | intros ?]);
      apply frames_ret. }
  intros bounds'. apply frames_bind.
  { apply frames_assign, stable_set_location. }
  intros _. destruct (collate _) as [starts stops].
  apply frames_assign, stable_set_pos.
Qed.

Lemma frames_switchBreak P num posn otherposition :
  frames P (switchBreak num posn otherposition).
Proof.
  unfold switchBreak.
  apply frames_bind; [apply frames_assign, stable_set_rangeswitch | intros _].
  apply frames_bind; [|intros _; apply frames_updateAxisLocation].
  destruct num.
  - apply frames_bind; [apply frames_get_self | intros a].
    repeat (apply frames_bind; [apply frames_index | intros ?]).
    apply frames_assign, stable_set_plottedrange.
  - apply frames_bind; [apply frames_get_self | intros a].
    apply frames_assign, stable_set_plottedrange.
Qed.

End Frames.

(** Discharge a frame goal by following the structure of the method. *)
Ltac frame_step :=
  lazymatch goal with
  | |- frames _ (bind _ _) => apply frames_bind; [|intros ?]
  | |- frames _ get_self => apply frames_get_self
  | |- frames _ (ret _) => apply frames_ret
  | |- frames _ (when _ _) => apply frames_when
  | |- frames _ (index _ _) => apply frames_index
  | |- frames _ (local _) => apply frames_local
  | |- frames _ (call _) => apply frames_call
  | |- frames _ (computeTicks _) => apply frames_computeTicks
  | |- frames _ (switchBreak _ _ _) => apply frames_switchBreak
  | |- frames _ (updateAxisLocation _ _) => apply frames_updateAxisLocation
  | |- frames _ (assign (set_delta_axis _)) => apply frames_assign, stable_set_delta_axis
  | |- frames _ (for_ _ _) => apply frames_for_; intros ?
  | |- frames _ (foldM _ _ _) => apply frames_foldM; intros ? ?
  | |- frames _ _drawAxisLine => unfold _drawAxisLine
  | |- frames _ (_drawMinorTicks _) => unfold _drawMinorTicks
  | |- frames _ (_drawMajorTicks _) => unfold _drawMajorTicks
  | |- frames _ (_suppressText _ _) => unfold _suppressText
  | |- frames _ (_drawTickLabels _ _) => unfold _drawTickLabels
  | |- frames _ (_drawAxisLabel _) => unfold _drawAxisLabel
  | |- frames _ _drawTextWithoutOverlap => unfold _drawTextWithoutOverlap
  | |- frames _ (setControlGraph _) => unfold setControlGraph
  | |- frames _ (if ?b then _ else _) => destruct b
  end.

Section FrameMethods.
Context {base : AxisBase}.

Lemma frames_mirrorSegment s posn otheredge i :
  frames (fun c => is_ticks c = true) (mirrorSegment s posn otheredge i).
Proof. unfold mirrorSegment. repeat frame_step; reflexivity. Qed.

Lemma frames_autoMirrorDraw posn :
  frames (fun c => is_finish c = false) (_autoMirrorDraw posn).
Proof.
  unfold _autoMirrorDraw. frame_step; [frame_step|]. cbv zeta.
  frame_step; [frame_step|].
  repeat frame_step; try reflexivity.
  eapply frames_mono; [|apply frames_mirrorSegment].
  intros []; cbn; congruence.
Qed.

Lemma frames_drawSegment s posn parentposn outerbounds sign locals i :
  frames (fun c => is_finish c = false)
         (drawSegment s posn parentposn outerbounds sign locals i).
Proof. unfold drawSegment. cbv zeta. repeat frame_step; reflexivity. Qed.

Lemma frames_drawSegments s posn parentposn outerbounds sign :
  frames (fun c => is_finish c = false)
         (drawSegments s posn parentposn outerbounds sign).
Proof.
  unfold drawSegments. cbv zeta. repeat frame_step.
  apply frames_drawSegment.
Qed.

Lemma frames_axisDraw posn parentposn outerbounds :
  frames (fun _ => True) (_axisDraw posn parentposn outerbounds).
Proof.
  unfold _axisDraw. frame_step; [frame_step|]. cbv zeta. rewrite axisDraw_sign.
  repeat frame_step; try exact I.
  - eapply frames_mono; [|apply frames_drawSegments]. auto.
  - eapply frames_mono; [|apply frames_autoMirrorDraw]. auto.
Qed.

End FrameMethods.


(** ** How a draw pass can end *)

Ltac ready_goal Hready :=
  refine (ready_stable _ _ _ Hready);
  [unfold stable; cbn; repeat split | cbn | cbn]; symmetry; apply Hready.

Section Endings.
Context {base : AxisBase}.

Ltac in_range Hready Hi :=
  match goal with
  | H : valueRange _ _ = None \/ posRange _ _ = None |- _ =>
      destruct (ready_in_range Hready Hi) as (? & ? & _); destruct H; contradiction
  | H : nth_error (majorticklist _) _ = None |- _ =>
      destruct (ready_in_range Hready Hi) as (_ & _ & ? & _); contradiction
  | H : nth_error (minorticklist _) _ = None |- _ =>
      destruct (ready_in_range Hready Hi) as (_ & _ & _ & ?); contradiction
  end.

Ltac refused Hready :=
  match goal with
  | H : surfaceRaises _ ?c = true |- surface_failure _ _ =>
      split; [reflexivity|]; split; [|exists c; exact H];
      cbn [self calls]; try exact Hready; ready_goal Hready
  end.

Lemma wp_drawSegment_ready s posn parentposn outerbounds sign locals i w :
  ready (self w) -> (i < breakvnum (self w))%nat ->
  wp (drawSegment s posn parentposn outerbounds sign locals i)
     (fun locals' w' =>
        ready (self w') /\ breakvnum (self w') = breakvnum (self w) /\
        snd locals' <> None)
     surface_failure w.
Proof.
  intros Hready Hi. unfold drawSegment. cbv zeta.
  wp_steps; cbn [majorticklist minorticklist set_tickscalc located set_pos
                 set_location set_plottedrange set_rangeswitch] in *;
    try solve [in_range Hready Hi]; try solve [refused Hready].
  all: split; [|split; [reflexivity | discriminate]].
  all: ready_goal Hready.
Qed.

Lemma wp_mirrorSegment_ready s posn otheredge i w :
  ready (self w) -> (i < breakvnum (self w))%nat ->
  wp (mirrorSegment s posn otheredge i)
     (fun _ w' => ready (self w') /\ breakvnum (self w') = breakvnum (self w))
     surface_failure w.
Proof.
  intros Hready Hi. unfold mirrorSegment.
  wp_steps; cbn [majorticklist minorticklist located set_pos
                 set_location set_plottedrange set_rangeswitch] in *;
    try solve [in_range Hready Hi]; try solve [refused Hready].
  all: split; [|reflexivity].
  all: ready_goal Hready.
Qed.

Lemma handed_back_switchBreak_None posn (a : Axis) :
  ready a ->
  handed_back posn (located posn None
                      (set_plottedrange (orig_plottedrange a)
                         (set_rangeswitch None a))).
Proof.
  intros Hready. split; [ready_goal Hready|]. cbn. repeat split.
Qed.

Lemma wp_autoMirrorDraw_ready posn w :
  handed_back posn (self w) ->
  wp (_autoMirrorDraw posn) (fun _ w' => handed_back posn (self w'))
     surface_failure w.
Proof.
  intros Hback. pose proof Hback as (Hready & Hrs & _).
  unfold _autoMirrorDraw. wp_step. wp_step.
  destruct (_shouldAutoMirror (self w)); cbn [negb]; [|apply wp_ret; exact Hback].
  cbv zeta.
  set (otheredge := if Qltb (otherPosition (settings (self w))) 0.5 then 1 else 0).
  set (n := breakvnum (self w)).
  wp_step.
  apply wp_mono with (Q := fun _ w1 => ready (self w1) /\ breakvnum (self w1) = n)
                     (E := surface_failure); [| |auto].
  { apply wp_updateAxisLocation.
    - intros bounds' _. split; [apply ready_located, Hready | reflexivity].
    - intros (rs & Hrs' & _). congruence. }
  intros [] w1 (Hr1 & Hn1). wp_step.
  apply wp_mono with (Q := fun _ w2 => ready (self w2) /\ breakvnum (self w2) = n)
                     (E := surface_failure); [| |auto].
  { wp_steps; try (split; assumption). refused Hr1. }
  intros [] w2 (Hr2 & Hn2). wp_step. wp_step. wp_step. rewrite Hn2.
  eapply wp_mono with (E := surface_failure); [| |auto].
  { apply (wp_for_ (mirrorSegment (settings (self w)) posn otheredge)
             (fun rest w3 => ready (self w3) /\ breakvnum (self w3) = n /\
                             Forall (fun i => (i < n)%nat) rest)).
    - intros i rest w3 (Hr3 & Hn3 & Hall).
      eapply wp_mono; [apply wp_mirrorSegment_ready; [exact Hr3|] | |auto].
      + rewrite Hn3. apply (Forall_inv Hall).
      + intros [] w4 (Hr4 & Hn4). cbv beta.
        split; [exact Hr4|]. split; [congruence | apply (Forall_inv_tail Hall)].
    - split; [exact Hr2|]. split; [exact Hn2|].
      apply Forall_forall. intros i Hi. apply in_seq in Hi. lia. }
  intros [] w3 (Hr3 & _). wp_step.
  apply handed_back_switchBreak_None, Hr3.
Qed.

Lemma wp_axisDraw_ready posn parentposn outerbounds w :
  ready (self w) ->
  wp (_axisDraw posn parentposn outerbounds)
     (fun _ w' => handed_back posn (self w')) surface_failure w.
Proof.
  intros Hready.
  unfold _axisDraw. wp_step. wp_step. cbv zeta. rewrite axisDraw_sign.
  set (n := breakvnum (self w)).
  assert (Hn : (1 <= n)%nat) by (subst n; destruct Hready as (-> & _); lia).
  wp_step.
  apply wp_mono with (Q := fun _ w1 => ready (self w1) /\ breakvnum (self w1) = n)
                     (E := surface_failure); [| |auto].
  { wp_steps; try (split; [assumption|reflexivity]). refused Hready. }
  intros [] w1 (Hr1 & Hn1). wp_step.
  apply wp_mono with (Q := fun st w2 => handed_back posn (self w2) /\ st <> None)
                     (E := surface_failure); [| |auto].
  { unfold drawSegments. cbv zeta. wp_step. wp_step. wp_step. rewrite Hn1.
    eapply wp_mono with (E := surface_failure); [| |auto].
    - apply (wp_foldM (drawSegment (settings (self w)) posn parentposn outerbounds
                                   (drawSign (self w)))
               (fun locals rest w2 =>
                  ready (self w2) /\ breakvnum (self w2) = n /\
                  Forall (fun i => (i < n)%nat) rest /\
                  (snd locals <> None \/ rest <> []))).
      + intros locals i rest w2 (Hr2 & Hn2 & Hall & _).
        eapply wp_mono; [apply wp_drawSegment_ready; [exact Hr2|] | |auto].
        * rewrite Hn2. apply (Forall_inv Hall).
        * intros locals' w3 (Hr3 & Hn3 & Hsome). cbv beta.
          split; [exact Hr3|]. split; [congruence|].
          split; [apply (Forall_inv_tail Hall) | left; exact Hsome].
      + split; [exact Hr1|]. split; [exact Hn1|]. split.
        * apply Forall_forall. intros i Hi. apply in_seq in Hi. lia.
        * right. destruct n; [lia | discriminate].
    - intros locals w2 (Hr2 & _ & _ & [Hsome|Hne]); [|contradiction].
      wp_steps. cbn [self calls].
      split; [|exact Hsome].
      split; [ready_goal Hr2|]. cbn. repeat split. }
  intros st w2 (Hb2 & Hst). wp_step.
  apply wp_mono with (Q := fun _ w3 => handed_back posn (self w3))
                     (E := surface_failure); [| |auto].
  { destruct (Label_hide (settings (self w))); cbn [negb].
    - apply wp_ret. assumption.
    - wp_steps; try assumption; try congruence. refused (proj1 Hb2). }
  intros [] w3 Hb3. wp_step.
  apply wp_mono with (Q := fun _ w4 => handed_back posn (self w4))
                     (E := surface_failure); [| |auto].
  { apply wp_when; intros _; [|exact Hb3].
    apply wp_autoMirrorDraw_ready, Hb3. }
  intros [] w4 Hb4.
  wp_steps; try exact Hb4.
  - refused (proj1 Hb4).
  - refused (proj1 Hb4).
Qed.

(** X12: a draw pass on a laid-out axis ends early only because the
    surface refused a call: the exception is the surface's, never an
    index error nor an unbound local; the axis is then still laid out,
    and [switchBreak None] brings it back to the unbroken state the
    draw pass would have returned it in. *)
Theorem X12_only_the_surface_fails posn parentposn outerbounds (w w' : World) (e : Exn) :
  ready (self w) ->
  _axisDraw posn parentposn outerbounds w = (Raise e, w') ->
  e = SurfaceError /\
  (exists c, surfaceRaises (calls w') c = true) /\
  ready (self w') /\
  exists a'',
    switchBreak None posn None w' = (Return tt, {| self := a''; calls := calls w' |}) /\
    handed_back posn a'' /\
    orig_plottedrange a'' = orig_plottedrange (self w).
Proof.
  intros Hready Hrun.
  pose proof (wp_raises _ _ _ _ (@wp_axisDraw_ready posn parentposn outerbounds w Hready) Hrun)
    as (He & Hr' & Hc).
  split; [exact He|]. split; [exact Hc|]. split; [exact Hr'|].
  pose proof (frames_axisDraw posn parentposn outerbounds w) as Hk.
  apply (fun H => wp_raises _ _ _ _ H Hrun) in Hk.
  destruct Hk as ((_ & Horig & _) & _).
  eexists. split; [apply switchBreak_None_run|].
  split; [apply (handed_back_switchBreak_None posn Hr') | exact Horig].
Qed.

(** X13: laying the axis out and drawing it, on a surface that accepts
    every call, always returns, whatever the settings: the lists that
    the draw pass indexes have the length it relies on, and the local
    [suppresstext] is bound when the axis label needs it.  The axis is
    handed back laid out, unbroken and at the bounds given. *)
Theorem X13_layout_then_draw_returns (a : Axis) (cs : list Call)
    posn parentposn outerbounds :
  (forall cs c, surfaceRaises cs c = false) ->
  rangeswitch a = None ->
  exists w',
    ((computePlottedRange ;; updateAxisLocation posn None) ;;
     _axisDraw posn parentposn outerbounds) {| self := a; calls := cs |}
    = (Return tt, w') /\
    handed_back posn (self w').
Proof.
  intros Hsound Hrs.
  destruct (layout_ready a cs posn None Hrs) as (a1 & Hlay & Hready & _).
  pose proof (@wp_axisDraw_ready posn parentposn outerbounds
                {| self := a1; calls := cs |} Hready) as Hwp.
  unfold bind at 1. rewrite Hlay.
  unfold wp in Hwp.
  destruct (_axisDraw posn parentposn outerbounds {| self := a1; calls := cs |})
    as [[[]|e] w'].
  - exists w'. split; [reflexivity | exact Hwp].
  - destruct Hwp as (_ & _ & c & Hc). rewrite Hsound in Hc. discriminate.
Qed.

End Endings.


(** ** The calls a draw pass makes *)

Section CallOrder.
Context {base : AxisBase}.

Lemma drawAxisLine_calls (b : bool) w r w' :
  when b _drawAxisLine w = (Return r, w') ->
  self w' = self w /\
  calls w' = calls w ++ (if b then [call_drawAxisLine (location (self w))] else []).
Proof.
  intros Hrun. run_wp Hrun.
  wp_steps; try exact I; subst b; cbn [self calls].
  - split; reflexivity.
  - split; [reflexivity | symmetry; apply app_nil_r].
Qed.

Lemma drawFinish_calls posn w r w' :
  (_drawTextWithoutOverlap ;; setControlGraph posn) w = (Return r, w') ->
  calls w' = calls w ++ [call_drawTextWithoutOverlap; call_setControlGraph posn].
Proof.
  intros Hrun. run_wp Hrun.
  wp_steps; try exact I. rewrite <- app_assoc. reflexivity.
Qed.

Lemma frames_axisLabel (s : Settings) (suppresstext : option bool) sign :
  frames (fun c => is_finish c = false)
    (if negb (Label_hide s)
     then suppresstext <- local suppresstext ;;
          when (negb suppresstext) (_drawAxisLabel sign)
     else ret tt).
Proof. repeat frame_step; reflexivity. Qed.

(** X11: no method of the draw pass assigns what [computePlottedRange]
    computed.  Whether they return or raise, [_axisDraw],
    [_autoMirrorDraw], [switchBreak] and [updateAxisLocation] leave the
    settings, the full range, the break values, the value lists of the
    pieces and their stored ticks as they were, and never remove a call
    from the surface; [switchBreak] and [updateAxisLocation] make no
    call at all, and the mirror pass never ends the text or sets the
    control graph. *)
Theorem X11_draw_pass_keeps_layout posn parentposn outerbounds num otherposition :
  frames (fun _ => True) (_axisDraw posn parentposn outerbounds) /\
  frames (fun c => is_finish c = false) (_autoMirrorDraw posn) /\
  frames (fun _ => False) (switchBreak num posn otherposition) /\
  frames (fun _ => False) (updateAxisLocation posn otherposition).
Proof.
  split; [apply frames_axisDraw|].
  split; [apply frames_autoMirrorDraw|].
  split; [apply frames_switchBreak | apply frames_updateAxisLocation].
Qed.

(** X14: the calls of a completed draw pass.  The axis line, unless
    hidden, comes first and is drawn at the location the axis has on
    entry, before any piece is switched to; the pass ends with
    [_drawTextWithoutOverlap] and then [setControlGraph] for the
    bounds given, and neither is called before. *)
Theorem X14_draw_call_skeleton posn parentposn outerbounds (w w' : World) :
  _axisDraw posn parentposn outerbounds w = (Return tt, w') ->
  exists mid,
    calls w'
    = calls w
      ++ (if Line_hide (settings (self w)) then []
          else [call_drawAxisLine (location (self w))])
      ++ mid
      ++ [call_drawTextWithoutOverlap; call_setControlGraph posn] /\
    Forall (fun c => is_finish c = false) mid.
Proof.
  unfold _axisDraw. intros Hrun.
  apply bind_returns in Hrun. destruct Hrun as (a & w0 & Hget & Hrun).
  injection Hget as <- <-. cbv zeta in Hrun. rewrite axisDraw_sign in Hrun.
  apply bind_returns in Hrun. destruct Hrun as ([] & w1 & Hline & Hrun).
  apply bind_returns in Hrun. destruct Hrun as (suppresstext & w2 & Hsegs & Hrun).
  apply bind_returns in Hrun. destruct Hrun as ([] & w3 & Hlabel & Hrun).
  apply bind_returns in Hrun. destruct Hrun as ([] & w4 & Hmirror & Hrun).
  apply drawAxisLine_calls in Hline. destruct Hline as (_ & Hc1).
  apply drawFinish_calls in Hrun.
  pose proof (wp_returns _ _ _ _ (frames_drawSegments _ _ _ _ _ w1) Hsegs)
    as (_ & cs2 & Hc2 & F2).
  pose proof (wp_returns _ _ _ _ (frames_axisLabel _ _ _ w2) Hlabel)
    as (_ & cs3 & Hc3 & F3).
  pose proof (wp_returns _ _ _ _
                (@frames_when _ _ _ (frames_autoMirrorDraw posn) w3) Hmirror)
    as (_ & cs4 & Hc4 & F4).
  exists (cs2 ++ cs3 ++ cs4). split.
  - rewrite Hrun, Hc4, Hc3, Hc2, Hc1.
    destruct (Line_hide (settings (self w))); cbn [negb];
      rewrite <- ?app_assoc; reflexivity.
  - repeat (apply Forall_app; split); assumption.
Qed.

Lemma wp_mirrorSegment_calls s posn otheredge i w :
  wp (mirrorSegment s posn otheredge i)
     (fun _ w' =>
        stable (self w) (self w') /\
        exists cs, calls w' = calls w ++ cs /\
                   Forall (fun c => is_ticks c = true) cs /\
                   length cs = tickCalls s)
     (fun _ _ => True) w.
Proof.
  unfold mirrorSegment, tickCalls.
  wp_steps; try exact I.
  all: repeat match goal with
         | H : negb ?b = _ |- _ => destruct b; try discriminate H; clear H
         end.
  all: split; [unfold stable; cbn; repeat split|]; cbn [self calls].
  - eexists [_; _]. rewrite <- app_assoc. split; [reflexivity|].
    split; [repeat constructor | reflexivity].
  - eexists [_]. split; [reflexivity|]. split; [repeat constructor | reflexivity].
  - eexists [_]. split; [reflexivity|]. split; [repeat constructor | reflexivity].
  - exists []. split; [symmetry; apply app_nil_r|]. split; [constructor | reflexivity].
Qed.

Lemma mirrorLoop_calls s posn otheredge l w r w' :
  for_ l (mirrorSegment s posn otheredge) w = (Return r, w') ->
  stable (self w) (self w') /\
  exists cs, calls w' = calls w ++ cs /\
             Forall (fun c => is_ticks c = true) cs /\
             length cs = (tickCalls s * length l)%nat.
Proof.
  intros Hrun. run_wp Hrun.
  eapply wp_mono with (E := fun _ _ => True); [| |auto].
  - apply (wp_for_ (mirrorSegment s posn otheredge)
             (fun rest w1 =>
                stable (self w) (self w1) /\
                exists cs, calls w1 = calls w ++ cs /\
                           Forall (fun c => is_ticks c = true) cs /\
                           (length cs + tickCalls s * length rest
                            = tickCalls s * length l)%nat)).
    + intros i rest w1 (S1 & cs & Hcs & F & Hlen).
      eapply wp_mono; [apply wp_mirrorSegment_calls | |auto].
      intros [] w2 (S2 & cs' & Hcs' & F' & Hlen'). cbv beta.
      split; [exact (stable_trans S1 S2)|].
      exists (cs ++ cs'). split; [rewrite Hcs', Hcs; symmetry; apply app_assoc|].
      split; [apply Forall_app; auto|].
      rewrite length_app, Hlen'. cbn [length] in Hlen. lia.
    + split; [apply stable_refl|]. exists [].
      split; [symmetry; apply app_nil_r|]. split; [constructor | reflexivity].
  - intros [] w1 (S1 & cs & Hcs & F & Hlen). cbv beta.
    split; [exact S1|]. exists cs. cbn [length] in Hlen.
    repeat split; try assumption. lia.
Qed.

(** X15: the mirrored copy.  When the inherited [_shouldAutoMirror]
    declines, [_autoMirrorDraw] does nothing.  Otherwise, started on
    the unbroken axis, a completed call draws the axis line once on the
    other edge of the graph (edge 1 when the axis sits below 0.5, else
    edge 0), then for every piece its minor and major ticks as far as
    they are shown and nothing else (no labels, no text), and puts the
    axis back: unbroken, on its own side, on its full range. *)
Theorem X15_mirror_pass posn (w w' : World) :
  rangeswitch (self w) = None ->
  _autoMirrorDraw posn w = (Return tt, w') ->
  if _shouldAutoMirror (self w) then
    let s := settings (self w) in
    exists ticks,
      calls w'
      = calls w
        ++ (if Line_hide s then []
            else [call_drawAxisLine (posn, Some (otherEdge s))])
        ++ ticks /\
      Forall (fun c => is_ticks c = true) ticks /\
      length ticks = (tickCalls s * breakvnum (self w))%nat /\
      location (self w') = (posn, None) /\
      rangeswitch (self w') = None /\
      plottedrange (self w') = orig_plottedrange (self w)
  else w' = w.
Proof.
  intros Hrs. unfold _autoMirrorDraw. intros Hrun.
  apply bind_returns in Hrun. destruct Hrun as (a & w0 & Hget & Hrun).
  injection Hget as <- <-.
  destruct (_shouldAutoMirror (self w)); cbn [negb] in Hrun;
    [|injection Hrun as <-; reflexivity].
  cbv zeta in *. fold (otherEdge (settings (self w))) in Hrun.
  apply bind_returns in Hrun. destruct Hrun as ([] & w1 & Hloc & Hrun).
  rewrite (updateAxisLocation_unbroken _ _ _ Hrs) in Hloc. injection Hloc as <-.
  apply bind_returns in Hrun. destruct Hrun as ([] & w2 & Hline & Hrun).
  apply drawAxisLine_calls in Hline. destruct Hline as (Hs2 & Hc2).
  cbn [self calls] in Hs2, Hc2.
  apply bind_returns in Hrun. destruct Hrun as (a2 & w2' & Hget & Hrun).
  injection Hget as <- <-.
  apply bind_returns in Hrun. destruct Hrun as ([] & w3 & Hloop & Hrun).
  apply mirrorLoop_calls in Hloop.
  destruct Hloop as (S3 & ticks & Hc3 & F3 & Hlen).
  rewrite switchBreak_None_run in Hrun. injection Hrun as <-.
  exists ticks. cbn [self calls].
  split; [|split; [exact F3|]; split; [|split; [reflexivity|]; split; [reflexivity|]]].
  - rewrite Hc3, Hc2.
    destruct (Line_hide (settings (self w))); cbn [negb];
      rewrite <- ?app_assoc; reflexivity.
  - rewrite Hlen, length_seq, Hs2. reflexivity.
  - cbn. destruct S3 as (_ & Horig & _). rewrite Horig, Hs2. reflexivity.
Qed.

End CallOrder.


Lemma X12_only_the_surface_fails_witness :
  let base := example_base (0, 100) (fun _ => 0) raises_on_major_ticks in
  let w := laid_out (example_settings [20; 40] []) in
  let w' := snd (_axisDraw example_posn example_posn None w) in
  _axisDraw example_posn example_posn None w = (Raise SurfaceError, w') /\
  ready (self w') /\
  exists a'',
    switchBreak None example_posn None w'
    = (Return tt, {| self := a''; calls := calls w' |}) /\
    handed_back example_posn a''.
Proof.
  cbv zeta.
  set (base := example_base (0, 100) (fun _ => 0) raises_on_major_ticks).
  set (w := laid_out (example_settings [20; 40] [])).
  assert (Hready : ready (self w)) by (vm_compute; repeat split).
  assert (Hrun : _axisDraw example_posn example_posn None w
                 = (Raise SurfaceError, snd (_axisDraw example_posn example_posn None w)))
    by (vm_compute; reflexivity).
  destruct (@X12_only_the_surface_fails base example_posn example_posn None w _ _
              Hready Hrun) as (_ & _ & Hr' & a'' & Hsw & Hback & _).
  split; [exact Hrun|]. split; [exact Hr'|].
  exists a''. split; [exact Hsw | exact Hback].
Defined.

Lemma X13_layout_then_draw_returns_witness :
  let base := example_base (0, 100) (fun _ => 0) never_raises in
  exists w',
    ((computePlottedRange ;; updateAxisLocation example_posn None) ;;
     _axisDraw example_posn example_posn None)
      (initial_world (example_settings [20; 40] []))
    = (Return tt, w') /\
    handed_back example_posn (self w').
Proof.
  cbv zeta.
  apply (@X13_layout_then_draw_returns
           (example_base (0, 100) (fun _ => 0) never_raises)
           (initial_axis (example_settings [20; 40] [])) []
           example_posn example_posn None).
  - intros cs c. reflexivity.
  - reflexivity.
Defined.

Lemma X14_draw_call_skeleton_witness :
  let base := example_base (0, 100) (fun _ => 0) never_raises in
  let w := laid_out (example_settings [20; 40] []) in
  let w' := snd (_axisDraw example_posn example_posn None w) in
  exists mid,
    calls w'
    = [call_drawAxisLine (example_posn, None)] ++ mid
      ++ [call_drawTextWithoutOverlap; call_setControlGraph example_posn] /\
    Forall (fun c => is_finish c = false) mid.
Proof.
  cbv zeta.
  set (base := example_base (0, 100) (fun _ => 0) never_raises).
  set (w := laid_out (example_settings [20; 40] [])).
  assert (Hrun : _axisDraw example_posn example_posn None w
                 = (Return tt, snd (_axisDraw example_posn example_posn None w)))
    by (vm_compute; reflexivity).
  destruct (@X14_draw_call_skeleton base example_posn example_posn None w _ Hrun)
    as (mid & Hcalls & Hmid).
  exists mid. split; [exact Hcalls | exact Hmid].
Defined.

Lemma X15_mirror_pass_witness :
  let base := example_base (0, 100) (fun _ => 0) never_raises in
  let w := laid_out (example_settings [20; 40] []) in
  let w' := snd (_autoMirrorDraw example_posn w) in
  exists ticks,
    calls w' = [call_drawAxisLine (example_posn, Some 1)] ++ ticks /\
    Forall (fun c => is_ticks c = true) ticks /\
    length ticks = 4%nat.
Proof.
  cbv zeta.
  set (base := example_base (0, 100) (fun _ => 0) never_raises).
  set (w := laid_out (example_settings [20; 40] [])).
  assert (Hrs : rangeswitch (self w) = None) by reflexivity.
  assert (Hrun : _autoMirrorDraw example_posn w
                 = (Return tt, snd (_autoMirrorDraw example_posn w)))
    by (vm_compute; reflexivity).
  pose proof (@X15_mirror_pass base example_posn w _ Hrs Hrun) as H.
  change (_shouldAutoMirror (self w)) with true in H. cbv zeta in H.
  destruct H as (ticks & Hcalls & Hticks & Hlen & _).
  exists ticks. split; [exact Hcalls|]. split; [exact Hticks|].
  rewrite Hlen. reflexivity.
Defined.


(** *** Pieces in order *)

Lemma ascending_nth_step (l : list Q) (i : nat) :
  ascending l -> (S i < length l)%nat -> nth i l 0 <= nth (S i) l 0.
Proof.
  revert i. induction l as [|x l IH]; intros i Hasc Hi; [simpl in Hi; lia|].
  destruct Hasc as (Hhd & Htl).
  destruct i as [|i].
  - destruct l as [|y l]; [simpl in Hi; lia | exact Hhd].
  - change (nth i l 0 <= nth (S i) l 0). apply IH; [exact Htl | simpl in Hi; lia].
Qed.

Lemma ascending_nth_le (l : list Q) (i j : nat) :
  ascending l -> (i <= j)%nat -> (j < length l)%nat -> nth i l 0 <= nth j l 0.
Proof.
  intros Hasc Hij. induction Hij as [|j Hij IH]; intros Hj.
  - apply Qle_refl.
  - eapply Qle_trans; [apply IH; lia | apply ascending_nth_step; assumption].
Qed.

Section OrderFacts.
Context {base : AxisBase}.

(** X10: break points in ascending order give pieces in ascending
    order.  When the low end of the full range, the break points in
    use and the high end ascend, every piece computed by
    [computePlottedRange] runs forwards and stays within the full
    range, and each piece ends no later than the next one starts. *)
Theorem X10_pieces_in_order (a : Axis) (cs : list Call) :
  let full := Axis_computePlottedRange a in
  ascending (flat_values full (breakPoints (settings a))) ->
  exists a',
    computePlottedRange {| self := a; calls := cs |}
    = (Return tt, {| self := a'; calls := cs |}) /\
    forall i vstart vstop,
      valueRange a' i = Some (vstart, vstop) ->
      fst full <= vstart /\ vstart <= vstop /\ vstop <= snd full /\
      forall vstart' vstop',
        valueRange a' (S i) = Some (vstart', vstop') -> vstop <= vstart'.
Proof.
  cbv zeta. intros Hasc.
  destruct (computePlottedRange_run a cs) as (a' & Hrun & Hpost).
  exists a'. split; [exact Hrun|].
  pose proof (valueRange_computePlottedRange Hpost) as Hvr.
  set (points := breakPoints (settings a)) in *.
  set (full := Axis_computePlottedRange a) in *.
  pose proof (length_flat_values full points) as Hlen.
  set (flat := flat_values full points) in *.
  assert (Hfirst : nth 0 flat 0 = fst full) by reflexivity.
  assert (Hlast : nth (length points / 2 * 2 + 1) flat 0 = snd full).
  { unfold flat, flat_values. cbn [app nth].
    replace (length points / 2 * 2 + 1)%nat
      with (S (length points / 2 * 2)) by lia. cbn [nth].
    assert (Hk : (length points / 2 * 2 <= length points)%nat).
    { pose proof (Nat.div_mod_eq (length points) 2). lia. }
    rewrite app_nth2 by (rewrite length_firstn; lia).
    rewrite length_firstn. replace (_ - _)%nat with 0%nat by lia. reflexivity. }
  clearbody flat.
  intros i vstart vstop Hi. rewrite Hvr in Hi.
  destruct (Nat.ltb_spec i (length points / 2 + 1)) as [Hlt|]; [|discriminate].
  injection Hi as <- <-.
  split; [rewrite <- Hfirst; apply ascending_nth_le; [exact Hasc | lia | lia]|].
  split; [apply ascending_nth_le; [exact Hasc | lia | lia]|].
  split; [rewrite <- Hlast; apply ascending_nth_le; [exact Hasc | lia | lia]|].
  intros vstart' vstop' Hi'. rewrite Hvr in Hi'.
  destruct (Nat.ltb_spec (S i) (length points / 2 + 1)) as [Hlt'|]; [|discriminate].
  injection Hi' as <- <-.
  apply ascending_nth_le; [exact Hasc | lia | lia].
Qed.

End OrderFacts.

Lemma X10_pieces_in_order_witness :
  let base := example_base (0, 100) (fun _ => 0) never_raises in
  exists a',
    computePlottedRange (initial_world (example_settings [20; 40] []))
    = (Return tt, {| self := a'; calls := [] |}) /\
    valueRange a' 0 = Some (0, 20) /\
    valueRange a' 1 = Some (40, 100).
Proof.
  cbv zeta.
  destruct (@X10_pieces_in_order
              (example_base (0, 100) (fun _ => 0) never_raises)
              (initial_axis (example_settings [20; 40] [])) [])
    as (a' & Hrun & _).
  { cbn. repeat split; discriminate. }
  exists a'. split; [exact Hrun|].
  unfold initial_world in Hrun.
  assert (Hw : snd (computePlottedRange
                      {| self := initial_axis (example_settings [20; 40] []);
                         calls := [] |})
               = {| self := a'; calls := [] |}) by (rewrite Hrun; reflexivity).
  apply (f_equal self) in Hw. cbn [self] in Hw. rewrite <- Hw.
  split; vm_compute; reflexivity.
Defined.


(** ** One piece of the draw pass *)

Section PieceCalls.
Context {base : AxisBase}.

(** X16: what the draw pass does for one piece.  A completed iteration
    for piece [i] makes the piece active, then calls, in this order:
    the minor ticks and the major ticks (each unless hidden), the text
    suppression test, and the tick labels unless they are hidden or
    suppressed.  The ticks drawn are the ones [computePlottedRange]
    stored for the piece, projected while the piece is active, and the
    labels go to the major ticks.  [_delta_axis] is zero afterwards
    unless labels were drawn. *)
Theorem X16_calls_for_one_piece s posn parentposn outerbounds sign locals i
    (w w' : World) (locals' : Q * option bool) :
  drawSegment s posn parentposn outerbounds sign locals i w = (Return locals', w') ->
  exists majorticks minorticks a1 suppresstext,
    nth_error (majorticklist (self w)) i = Some majorticks /\
    nth_error (minorticklist (self w)) i = Some minorticks /\
    pieceActive (self w) posn i a1 /\
    snd locals' = Some suppresstext /\
    calls w'
    = calls w ++ pieceCalls s parentposn outerbounds sign
                   (_graphToPlotter a1 minorticks) (_graphToPlotter a1 majorticks)
                   suppresstext /\
    (negb (TickLabels_hide s) && negb suppresstext = false ->
     _delta_axis (self w') = 0).
Proof.
  intros Hrun. run_wp Hrun.
  unfold drawSegment. cbv zeta.
  wp_steps; try exact I.
  all: match goal with
       | Hmaj : nth_error (majorticklist ?a1) _ = Some ?maj,
         Hmin : nth_error (minorticklist ?a1) _ = Some ?mi |- _ =>
           exists maj, mi, a1
       end.
  all: eexists.
  all: cbn [majorticklist minorticklist set_tickscalc located set_pos
            set_location set_plottedrange set_rangeswitch] in *.
  all: split; [eassumption|]; split; [eassumption|].
  all: split;
    [ split; [unfold stable; cbn; repeat split|];
      split; [reflexivity|];
      split; [unfold valueRange; cbn;
              repeat match goal with
                | H : nth_error (breakvstarts _) _ = Some _ |- _ => rewrite H; clear H
                | H : nth_error (breakvstops _) _ = Some _ |- _ => rewrite H; clear H
                end; reflexivity|];
      do 2 eexists; split;
        [unfold posRange;
         repeat match goal with
           | H : nth_error (posstarts _) _ = Some _ |- _ => rewrite H; clear H
           | H : nth_error (posstops _) _ = Some _ |- _ => rewrite H; clear H
           end; reflexivity
        | reflexivity]
    |].
  all: split; [reflexivity|].
  all: unfold pieceCalls.
  all: repeat match goal with
         | H : negb ?b = _ |- _ => destruct b; try discriminate H; clear H
         end.
  all: repeat match goal with
         | H : _ && _ = _ |- _ => rewrite H
         end.
  all: cbn [app]; rewrite <- ?app_assoc; cbn [app].
  all: split; [reflexivity|].
  all: cbn [self _delta_axis set_delta_axis]; try reflexivity.
  all: intros; congruence.
Qed.

End PieceCalls.


Lemma X16_calls_for_one_piece_witness :
  let base := example_base (0, 100) (fun _ => 0) never_raises in
  let s := example_settings [20; 40] [] in
  let w := laid_out s in
  let w' := snd (drawSegment s example_posn example_posn None 1 (0, None) 1 w) in
  exists coordminorticks coordticks,
    calls w' = [call_drawMinorTicks coordminorticks;
                call_drawMajorTicks coordticks;
                call_suppressText example_posn None;
                call_drawTickLabels coordticks 1] /\
    rangeswitch (self w') = Some 1%nat.
Proof.
  cbv zeta.
  set (base := example_base (0, 100) (fun _ => 0) never_raises).
  set (s := example_settings [20; 40] []).
  set (w := laid_out s).
  assert (Hrun : drawSegment s example_posn example_posn None 1 (0, None) 1 w
                 = (Return (0, Some false),
                    snd (drawSegment s example_posn example_posn None 1 (0, None) 1 w)))
    by (vm_compute; reflexivity).
  destruct (@X16_calls_for_one_piece base s example_posn example_posn None 1
              (0, None) 1 w _ _ Hrun)
    as (majorticks & minorticks & a1 & b & _ & _ & _ & Hb & Hcalls & _).
  injection Hb as <-.
  exists (_graphToPlotter a1 minorticks), (_graphToPlotter a1 majorticks).
  split; [exact Hcalls | reflexivity].
Defined.


(** *** Pieces from left to right *)

Lemma ascending_map_shift (c : Q) (l : list Q) :
  ascending l -> ascending (map (fun pos => pos + c) l).
Proof.
  induction l as [|x l IH]; [exact (fun H => H)|].
  intros (Hhd & Htl). cbn [map ascending]. split; [|apply IH, Htl].
  destruct l as [|y l]; [exact I|]. cbn [map]. lra.
Qed.

Lemma resolve_posns_head (points breakPosns : list Q) :
  Forall (fun p => 0 <= p <= 1) breakPosns ->
  match resolve_posns points breakPosns with
  | [] => True
  | p :: _ => 0 <= p
  end.
Proof.
  intros Hrange. unfold resolve_posns. cbv zeta.
  destruct (py_sort breakPosns) as [|x sorted] eqn:Hsorted.
  - cbn [length Nat.eqb negb app].
    destruct (0 <? length points / 2)%nat; [|exact I].
    rewrite Nat.sub_0_r. unfold synthesized.
    destruct (length points / 2)%nat as [|n]; [exact I|].
    cbn [seq map].
    destruct (@synthesized_factor 0 (S n)) as (_ & H0); [lra|].
    change (Qnat 1) with 1. lra.
  - assert (Hx : 0 <= x).
    { rewrite Forall_forall in Hrange. apply Hrange.
      apply (proj1 (py_sort_In breakPosns x)). rewrite Hsorted. left. reflexivity. }
    destruct (_ <? _)%nat; exact Hx.
Qed.

(** X8: pieces from left to right.  With the explicit break positions
    inside [0, 1], the positions [updateAxisLocation] uses ascend
    although the list is not sorted again after positions are added,
    and so do the starts of the pieces; when no position had to be
    added, the stops of the pieces ascend as well. *)
Theorem X8_pieces_left_to_right (points breakPosns : list Q) :
  Forall (fun p => 0 <= p <= 1) breakPosns ->
  let posns := resolve_posns points breakPosns in
  ascending posns /\
  ascending (fst (collate posns)) /\
  ((length points / 2 <= length breakPosns)%nat ->
   ascending (snd (collate posns))).
Proof.
  intros Hrange. cbv zeta.
  pose proof (resolve_posns_ascending points Hrange) as Hasc.
  pose proof (resolve_posns_head points Hrange) as Hhead.
  split; [exact Hasc|]. rewrite collate_eq. cbn [fst snd].
  split.
  - cbn [ascending]. split; [|apply ascending_map_shift, Hasc].
    destruct (resolve_posns points breakPosns) as [|p l]; [exact I|].
    cbn [map]. destruct breakgap_halves as (_ & Hpos). lra.
  - intros Hle.
    assert (Hposns : resolve_posns points breakPosns = py_sort breakPosns).
    { unfold resolve_posns. cbv zeta. rewrite length_py_sort.
      destruct (Nat.ltb_spec (length breakPosns) (length points / 2));
        [lia | reflexivity]. }
    rewrite Hposns in *.
    apply ascending_app.
    + apply (@ascending_map_shift (- (breakgap / 2))), Hasc.
    + exact (conj I I).
    + intros x y Hx [<-|[]]. apply in_map_iff in Hx.
      destruct Hx as (p & <- & Hp).
      rewrite Forall_forall in Hrange.
      apply (proj1 (py_sort_In breakPosns p)), Hrange in Hp.
      destruct breakgap_halves as (_ & Hpos). lra.
Qed.

Lemma X8_pieces_left_to_right_witness :
  ascending (resolve_posns [1; 2; 3; 4; 5; 6] [0.9; 0.1]) /\
  ascending (fst (collate (resolve_posns [1; 2; 3; 4; 5; 6] [0.9; 0.1]))).
Proof.
  destruct (@X8_pieces_left_to_right [1; 2; 3; 4; 5; 6] [0.9; 0.1])
    as (H1 & H2 & _).
  { repeat constructor; discriminate. }
  split; [exact H1 | exact H2].
Defined.


(** ** Text suppression, piece by piece *)

Lemma textSteps_app cs1 cs2 : textSteps (cs1 ++ cs2) = textSteps cs1 ++ textSteps cs2.
Proof. apply flat_map_app. Qed.

Lemma textSteps_no_text cs :
  Forall (fun c => is_text c = false) cs -> textSteps cs = [].
Proof.
  induction 1 as [|c cs Hc _ IH]; [reflexivity|].
  unfold textSteps in *. cbn [flat_map]. rewrite IH, app_nil_r.
  destruct c; try reflexivity; discriminate Hc.
Qed.

Lemma Forall2_Forall_r {A B} (R : A -> B -> Prop) (P : B -> Prop) l l' :
  Forall2 R l l' -> (forall x y, In x l -> R x y -> P y) -> Forall P l'.
Proof.
  induction 1 as [|x y l l' Hxy _ IH]; intros HP; constructor.
  - apply (HP x y); [left; reflexivity | exact Hxy].
  - apply IH. intros x' y' Hin. apply HP. right. exact Hin.
Qed.

Section Suppression.
Context {base : AxisBase}.

Lemma pieceState_stable (a a' : Axis) posn i :
  stable a a' -> posstarts a' = posstarts a -> posstops a' = posstops a ->
  pieceState a' posn i = pieceState a posn i.
Proof.
  unfold stable. destruct a, a'. cbn.
  intros (-> & -> & -> & -> & -> & -> & -> & -> & ->) -> ->. reflexivity.
Qed.

Lemma wp_drawSegment_text s posn parentposn outerbounds sign locals i w :
  wp (drawSegment s posn parentposn outerbounds sign locals i)
     (fun locals' w' =>
        exists d cs,
          snd locals' = Some d /\
          pieceDecision (self w) posn parentposn outerbounds i d /\
          calls w' = calls w ++ cs /\
          textSteps cs = pieceTextSteps s d /\
          stable (self w) (self w') /\
          posstarts (self w') = posstarts (located posn None (self w)) /\
          posstops (self w') = posstops (located posn None (self w)))
     (fun _ _ => True) w.
Proof.
  unfold drawSegment. cbv zeta.
  wp_steps; try exact I.
  all: eexists; eexists.
  all: split; [reflexivity|].
  all: split;
    [ eexists; split; [|reflexivity];
      unfold pieceState, valueRange, posRange;
      repeat match goal with
        | H : nth_error _ _ = Some _ |- _ => rewrite H; clear H
        end; reflexivity |].
  all: cbn [self calls].
  all: split; [rewrite <- ?app_assoc; reflexivity|].
  all: unfold pieceTextSteps.
  all: repeat match goal with
         | H : _ && _ = _ |- _ => rewrite H
         end.
  all: split; [reflexivity|].
  all: split; [unfold stable; cbn; repeat split|].
  all: split; reflexivity.
Qed.

Lemma drawLoop_text s posn parentposn outerbounds sign l :
  forall locals w locals' w',
    foldM (drawSegment s posn parentposn outerbounds sign) l locals w
    = (Return locals', w') ->
    let decisions :=
      map snd (segmentTrace s posn parentposn outerbounds sign l locals w) in
    (exists cs, calls w' = calls w ++ cs /\
                textSteps cs = flat_map (pieceTextSteps s) decisions) /\
    (posstarts (self w) = posstarts (located posn None (self w)) ->
     posstops (self w) = posstops (located posn None (self w)) ->
     Forall2 (pieceDecision (self w) posn parentposn outerbounds) l decisions).
Proof.
  induction l as [|i l IH]; intros locals w locals' w' Hrun; cbn zeta.
  - cbn in Hrun. injection Hrun as <- <-. cbn. split.
    + exists []. split; [symmetry; apply app_nil_r | reflexivity].
    + intros _ _. constructor.
  - cbn [foldM] in Hrun. apply bind_returns in Hrun.
    destruct Hrun as (locals1 & w1 & Hseg & Hrest).
    cbn [segmentTrace]. rewrite Hseg.
    specialize (IH _ _ _ _ Hrest). cbn zeta in IH.
    destruct IH as ((cs' & Hcs' & Hsteps') & Hdec').
    pose proof (wp_returns _ _ _ _
                  (wp_drawSegment_text s posn parentposn outerbounds sign locals i w)
                  Hseg) as (d & cs & Hd & Hpiece & Hcs & Hsteps & Hst & Hps & Hpe).
    rewrite Hd. cbn [map snd flat_map].
    split.
    + exists (cs ++ cs'). split; [rewrite Hcs', Hcs; symmetry; apply app_assoc|].
      rewrite textSteps_app, Hsteps, Hsteps'. reflexivity.
    + intros Hps0 Hpe0. constructor; [exact Hpiece|].
      assert (Hps1 : posstarts (self w1) = posstarts (self w)) by congruence.
      assert (Hpe1 : posstops (self w1) = posstops (self w)) by congruence.
      assert (Hps2 : posstarts (self w1) = posstarts (located posn None (self w1))).
      { rewrite Hps. unfold located. cbn. destruct Hst as (-> & _). reflexivity. }
      assert (Hpe2 : posstops (self w1) = posstops (located posn None (self w1))).
      { rewrite Hpe. unfold located. cbn. destruct Hst as (-> & _). reflexivity. }
      specialize (Hdec' Hps2 Hpe2).
      eapply Forall2_impl; [|exact Hdec'].
      intros j dj (a1 & Ha1 & Hdj). exists a1. split; [|exact Hdj].
      rewrite <- Ha1. symmetry. apply pieceState_stable; assumption.
Qed.

Lemma drawSegments_text s posn parentposn outerbounds sign w suppresstext w' :
  drawSegments s posn parentposn outerbounds sign w = (Return suppresstext, w') ->
  let decisions :=
    map snd (segmentTrace s posn parentposn outerbounds sign
                          (seq 0 (breakvnum (self w))) (0, None) w) in
  (exists cs, calls w' = calls w ++ cs /\
              textSteps cs = flat_map (pieceTextSteps s) decisions) /\
  (ready (self w) ->
   Forall2 (pieceDecision (self w) posn parentposn outerbounds)
           (seq 0 (breakvnum (self w))) decisions).
Proof.
  unfold drawSegments. cbv zeta. intros Hrun.
  apply bind_returns in Hrun. destruct Hrun as (a & w0 & Hget & Hrun).
  injection Hget as <- <-.
  apply bind_returns in Hrun. destruct Hrun as (locals & w1 & Hloop & Hrun).
  apply drawLoop_text in Hloop. cbn zeta in Hloop.
  destruct Hloop as ((cs & Hcs & Hsteps) & Hdec).
  assert (Hwp : wp (switchBreak None posn None ;;
                    assign (set_delta_axis (fst locals)) ;; ret (snd locals))
                  (fun _ w2 => calls w2 = calls w1) (fun _ _ => True) w1).
  { wp_steps. reflexivity. }
  pose proof (wp_returns _ _ _ _ Hwp Hrun) as Hcalls.
  split.
  - exists cs. split; [rewrite Hcalls; exact Hcs | exact Hsteps].
  - intros Hready. apply Hdec; unfold located; cbn; apply Hready.
Qed.

Lemma axisLabel_text (s : Settings) (suppresstext : option bool) sign w r w' :
  (if negb (Label_hide s)
   then suppresstext <- local suppresstext ;;
        when (negb suppresstext) (_drawAxisLabel sign)
   else ret tt) w = (Return r, w') ->
  exists cs,
    calls w' = calls w ++ cs /\
    textSteps cs = if Label_hide s then []
                   else match suppresstext with
                        | Some false => [step_drawAxisLabel]
                        | _ => []
                        end.
Proof.
  intros Hrun. run_wp Hrun.
  destruct (Label_hide s); cbn [negb].
  - apply wp_ret. exists []. split; [symmetry; apply app_nil_r | reflexivity].
  - wp_steps; try exact I; subst suppresstext; cbn [self calls].
    all: match goal with H : negb ?x = _ |- _ => destruct x; try discriminate H end.
    + eexists [_]. split; reflexivity.
    + exists []. split; [symmetry; apply app_nil_r | reflexivity].
Qed.

Lemma frames_autoMirrorDraw_text posn :
  frames (fun c => is_text c = false) (_autoMirrorDraw posn).
Proof.
  unfold _autoMirrorDraw. frame_step; [frame_step|]. cbv zeta.
  frame_step; [frame_step|].
  repeat frame_step; try reflexivity.
  eapply frames_mono; [|apply frames_mirrorSegment].
  intros []; cbn; congruence.
Qed.

Lemma last_decision (tr : list (Q * bool)) :
  match last (map (fun x => Some (snd x)) tr) None with
  | Some false => [step_drawAxisLabel]
  | _ => []
  end
  = if last (map snd tr) true then [] else [step_drawAxisLabel].
Proof.
  induction tr as [|x tr IH]; [reflexivity|].
  destruct tr as [|y tr]; [cbn; destruct (snd x); reflexivity|].
  exact IH.
Qed.

(** C9, as amended: in a completed draw pass the text suppression is
    computed once per piece, inside the loop: there are as many
    [_suppressText] calls as pieces; the tick labels of a piece are
    drawn, right after the test made for that piece, unless hidden or
    suppressed by its answer, and the shared axis label comes after
    all pieces unless hidden or suppressed by the answer for the last
    piece.  On a laid-out axis the answer for piece [i] is that of
    [_suppressText] on the axis switched to piece [i] (its range, its
    bounds within [posn], its ticks computed, [_delta_axis] reset);
    when these answers are all the same, that one decision applies to
    the tick labels of every piece and to the axis label. *)
Theorem C9_suppression_per_segment posn parentposn outerbounds (w w' : World) :
  _axisDraw posn parentposn outerbounds w = (Return tt, w') ->
  let s := settings (self w) in
  let decisions := map snd (drawTrace posn parentposn outerbounds w) in
  length decisions = breakvnum (self w) /\
  count is_suppressText (calls w')
  = (count is_suppressText (calls w) + breakvnum (self w))%nat /\
  count is_drawTickLabels (calls w')
  = (count is_drawTickLabels (calls w)
     + (if TickLabels_hide s then 0 else length (filter negb decisions)))%nat /\
  count is_drawAxisLabel (calls w')
  = (count is_drawAxisLabel (calls w)
     + (if Label_hide s then 0 else if last decisions true then 0 else 1))%nat /\
  (forall b, (forall a, Axis_suppressText a parentposn outerbounds = b) ->
             decisions = repeat b (breakvnum (self w))) /\
  (exists new,
      calls w' = calls w ++ new /\
      textSteps new
      = flat_map (pieceTextSteps s) decisions
        ++ (if Label_hide s then []
            else if last decisions true then [] else [step_drawAxisLabel])) /\
  (ready (self w) ->
   Forall2 (pieceDecision (self w) posn parentposn outerbounds)
           (seq 0 (breakvnum (self w))) decisions /\
   forall b,
     (forall i a, (i < breakvnum (self w))%nat ->
                  pieceState (self w) posn i = Some a ->
                  Axis_suppressText a parentposn outerbounds = b) ->
     decisions = repeat b (breakvnum (self w))).
Proof.
  intros Hrun. cbv zeta. pose proof Hrun as Hret.
  apply axisDraw_returns in Hret.
  destruct Hret as (_ & _ & _ & Hlen & _ & Hc1 & Hc2 & Hc3).
  rewrite labelled_decisions in Hc2. rewrite axisLabelDrawn_decisions in Hc3.
  rewrite length_map.
  split; [exact Hlen|]. split; [exact Hc1|]. split; [exact Hc2|]. split; [exact Hc3|].
  split.
  { intros b Hb. rewrite <- Hlen, <- (length_map snd).
    apply Forall_eq_repeat. apply Forall_map.
    unfold drawTrace. cbv zeta.
    destruct (when (negb (Line_hide (settings (self w)))) _drawAxisLine w)
      as [[r|e] w1]; [|constructor].
    apply segmentTrace_uniform, Hb. }
  unfold _axisDraw in Hrun.
  apply bind_returns in Hrun. destruct Hrun as (a & w0 & Hget & Hrun).
  injection Hget as <- <-. cbv zeta in Hrun. rewrite axisDraw_sign in Hrun.
  apply bind_returns in Hrun. destruct Hrun as ([] & w1 & Hline & Hrun).
  apply bind_returns in Hrun. destruct Hrun as (suppresstext & w2 & Hsegs & Hrun).
  apply bind_returns in Hrun. destruct Hrun as ([] & w3 & Hlabel & Hrun).
  apply bind_returns in Hrun. destruct Hrun as ([] & w4 & Hmirror & Hrun).
  unfold drawTrace in *. cbv zeta in *. rewrite Hline in *.
  apply drawAxisLine_calls in Hline. destruct Hline as (Hself1 & Hcs1).
  pose proof (drawSegments_returns _ _ _ _ _ _ Hsegs) as Hsr.
  cbv zeta in Hsr. destruct Hsr as (_ & _ & _ & _ & _ & Hsup & _).
  apply drawSegments_text in Hsegs. cbv zeta in Hsegs.
  rewrite Hself1 in *.
  set (tr := segmentTrace (settings (self w)) posn parentposn outerbounds
                          (drawSign (self w)) (seq 0 (breakvnum (self w)))
                          (0, None) w1) in *.
  destruct Hsegs as ((cs2 & Hcs2 & Hsteps2) & Hdec).
  apply axisLabel_text in Hlabel. destruct Hlabel as (cs3 & Hcs3 & Hsteps3).
  pose proof (wp_returns _ _ _ _
                (@frames_when _ _ _ (frames_autoMirrorDraw_text posn) w3) Hmirror)
    as (_ & cs4 & Hcs4 & F4).
  apply drawFinish_calls in Hrun.
  split.
  { eexists. split.
    - rewrite Hrun, Hcs4, Hcs3, Hcs2, Hcs1, <- !app_assoc. reflexivity.
    - rewrite !textSteps_app, Hsteps2, Hsteps3, (textSteps_no_text F4).
      rewrite Hsup, last_decision.
      destruct (negb (Line_hide (settings (self w)))); cbn [textSteps flat_map app];
        rewrite ?app_nil_r; reflexivity. }
  intros Hready. specialize (Hdec Hready). split; [exact Hdec|].
  intros b Hb.
  rewrite <- Hlen, <- (length_map snd). apply Forall_eq_repeat.
  eapply Forall2_Forall_r; [exact Hdec|].
  intros i d Hi (a1 & Ha1 & ->). apply in_seq in Hi.
  apply (Hb i a1); [lia | exact Ha1].
Qed.

End Suppression.


Lemma C9_suppression_per_segment_witness :
  let base := example_base (0, 100) (fun _ => 0) never_raises in
  let w := laid_out (example_settings [20; 40] []) in
  let w' := snd (_axisDraw example_posn example_posn None w) in
  _axisDraw example_posn example_posn None w = (Return tt, w') /\
  map snd (drawTrace example_posn example_posn None w) = [false; false] /\
  count is_suppressText (calls w') = 2%nat /\
  count is_drawTickLabels (calls w') = 2%nat /\
  count is_drawAxisLabel (calls w') = 1%nat /\
  textSteps (calls w')
  = [step_suppressText; step_drawTickLabels;
     step_suppressText; step_drawTickLabels; step_drawAxisLabel].
Proof.
  cbv zeta.
  set (base := example_base (0, 100) (fun _ => 0) never_raises).
  set (w := laid_out (example_settings [20; 40] [])).
  assert (Hready : ready (self w)) by (vm_compute; repeat split).
  assert (Hrun : _axisDraw example_posn example_posn None w
                 = (Return tt, snd (_axisDraw example_posn example_posn None w)))
    by (vm_compute; reflexivity).
  destruct (@C9_suppression_per_segment base example_posn example_posn None w _ Hrun)
    as (_ & Hc1 & Hc2 & Hc3 & _ & (new & Hnew & Hsteps) & Hpieces).
  destruct (Hpieces Hready) as (_ & Huni).
  assert (Hdec : map snd (drawTrace example_posn example_posn None w) = [false; false])
    by (apply (Huni false); intros i a _ _; reflexivity).
  rewrite Hdec in Hc2, Hc3, Hsteps.
  split; [exact Hrun|]. split; [exact Hdec|].
  split; [exact Hc1|]. split; [exact Hc2|]. split; [exact Hc3|].
  rewrite Hnew. exact Hsteps.
Defined.


(** * Facts about [utils/slowfuncs.py] *)

Lemma fold_append_map {A B} (f : A -> B) (l : list A) :
  forall acc, fold_left (fun acc a => acc ++ [f a]) l acc = acc ++ map f l.
Proof.
  induction l as [|a l IH]; intros acc; simpl.
  - symmetry. apply app_nil_r.
  - rewrite IH, <- app_assoc. reflexivity.
Qed.

Lemma py_min_le a b : SlowFuncs.py_min a b <= b /\ SlowFuncs.py_min a b <= a.
Proof.
  unfold SlowFuncs.py_min. destruct (b ?= a) eqn:E.
  - apply Qeq_alt in E. split; [rewrite E|]; apply Qle_refl.
  - apply Qlt_alt in E. split; [apply Qle_refl | apply Qlt_le_weak, E].
  - apply Qgt_alt in E. split; [apply Qlt_le_weak, E | apply Qle_refl].
Qed.

Lemma py_min_id a b : a <= b -> SlowFuncs.py_min a b = a.
Proof.
  intros H. unfold SlowFuncs.py_min. destruct (b ?= a) eqn:E; try reflexivity.
  apply Qlt_alt in E. exfalso. apply (Qlt_not_le _ _ E H).
Qed.

Lemma py_max_id a b : b <= a -> py_max a b = a.
Proof.
  intros H. unfold py_max. destruct (a ?= b) eqn:E; try reflexivity.
  apply Qlt_alt in E. exfalso. apply (Qlt_not_le _ _ E H).
Qed.

Lemma limit_coordinate (v : Q) :
  - 32767 <= py_max (SlowFuncs.py_min v 32767) (- 32767) <= 32767.
Proof.
  split; [apply py_max_ge_r|].
  destruct (py_max_cases (SlowFuncs.py_min v 32767) (- 32767)) as [-> | ->].
  - apply py_min_le.
  - discriminate.
Qed.

Lemma limit_coordinate_id (v : Q) :
  - 32767 <= v <= 32767 -> py_max (SlowFuncs.py_min v 32767) (- 32767) = v.
Proof.
  intros [Hlo Hhi]. rewrite (py_min_id Hhi). apply py_max_id, Hlo.
Qed.

Lemma limited_inDeviceRange p : SlowFuncs.inDeviceRange (SlowFuncs.limited p).
Proof. split; apply limit_coordinate. Qed.

Lemma limited_id p : SlowFuncs.inDeviceRange p -> SlowFuncs.limited p = p.
Proof.
  intros [Hx Hy]. destruct p as [px py]. unfold SlowFuncs.limited.
  cbn [SlowFuncs.x SlowFuncs.y] in *.
  rewrite (limit_coordinate_id Hx), (limit_coordinate_id Hy). reflexivity.
Qed.

Lemma polygonClip_eq inpoly rect outpoly :
  SlowFuncs.polygonClip inpoly rect outpoly
  = outpoly ++ map SlowFuncs.limited inpoly.
Proof. apply (fold_append_map SlowFuncs.limited). Qed.

Lemma map_id_Forall {A} (f : A -> A) (P : A -> Prop) (l : list A) :
  (forall a, P a -> f a = a) -> Forall P l -> map f l = l.
Proof.
  intros Hf. induction 1 as [|a l Ha _ IH]; simpl; [reflexivity|].
  rewrite (Hf a Ha), IH. reflexivity.
Qed.

(** X17: [polygonClip] does not clip to the rectangle.  It appends one
    point per input point, in order, to what [outpoly] already holds;
    each appended point has both coordinates limited to the range
    -32767 .. 32767; the rectangle passed has no influence on the
    result; and a polygon already within that range is appended
    unchanged. *)
Theorem X17_polygonClip_limits_only inpoly rect outpoly :
  exists added,
    SlowFuncs.polygonClip inpoly rect outpoly = outpoly ++ added /\
    length added = length inpoly /\
    Forall SlowFuncs.inDeviceRange added /\
    (forall rect', SlowFuncs.polygonClip inpoly rect' outpoly
                   = SlowFuncs.polygonClip inpoly rect outpoly) /\
    (Forall SlowFuncs.inDeviceRange inpoly -> added = inpoly).
Proof.
  exists (map SlowFuncs.limited inpoly).
  split; [apply polygonClip_eq|].
  split; [apply length_map|].
  split; [apply Forall_map, Forall_forall; intros p _; apply limited_inDeviceRange|].
  split; [intros rect'; rewrite !polygonClip_eq; reflexivity|].
  apply map_id_Forall, limited_id.
Qed.

(** X18: clipping twice is clipping once.  Feeding the output of
    [polygonClip] through it again, with any rectangle, changes
    nothing. *)
Theorem X18_polygonClip_idempotent inpoly rect rect' :
  SlowFuncs.polygonClip (SlowFuncs.polygonClip inpoly rect []) rect' []
  = SlowFuncs.polygonClip inpoly rect [].
Proof.
  rewrite !polygonClip_eq. cbn [app].
  apply map_id_Forall with (P := SlowFuncs.inDeviceRange); [apply limited_id|].
  apply Forall_map, Forall_forall. intros p _. apply limited_inDeviceRange.
Qed.

Section PainterFacts.
Variable QPainterPath : Type.

(** X19: the two clipped plots.  [plotClippedPolygon] and
    [plotClippedPolyline] each make exactly one call on the painter,
    after the calls it already received, and both pass the same
    points: one per input point, limited to -32767 .. 32767 in both
    coordinates, and the input itself when it already lies in that
    range.  The clip rectangle and [autoexpand] make no difference. *)
Theorem X19_clipped_plots_one_call (painter : SlowFuncs.QPainter QPainterPath)
    (rect : SlowFuncs.QRectF) (pts : SlowFuncs.QPolygonF) :
  exists ptsout,
    (forall rect' autoexpand',
        SlowFuncs.plotClippedPolygon painter rect' pts autoexpand'
        = painter ++ [SlowFuncs.drawPolygon QPainterPath ptsout]) /\
    (forall rect' autoexpand',
        SlowFuncs.plotClippedPolyline painter rect' pts autoexpand'
        = painter ++ [SlowFuncs.drawPolyline QPainterPath ptsout]) /\
    ptsout = SlowFuncs.polygonClip pts rect [] /\
    length ptsout = length pts /\
    Forall SlowFuncs.inDeviceRange ptsout /\
    (Forall SlowFuncs.inDeviceRange pts -> ptsout = pts).
Proof.
  exists (map SlowFuncs.limited pts).
  split.
  { intros rect' autoexpand'. unfold SlowFuncs.plotClippedPolygon. cbv zeta.
    rewrite polygonClip_eq. reflexivity. }
  split.
  { intros rect' autoexpand'. unfold SlowFuncs.plotClippedPolyline. cbv zeta.
    rewrite (fold_append_map SlowFuncs.limited). reflexivity. }
  split; [rewrite polygonClip_eq; reflexivity|].
  split; [apply length_map|].
  split; [apply Forall_map, Forall_forall; intros p _; apply limited_inDeviceRange|].
  apply map_id_Forall, limited_id.
Qed.

Lemma plotPathsToPainter_eq (painter : SlowFuncs.QPainter QPainterPath) path x y :
  SlowFuncs.plotPathsToPainter painter path x y
  = painter
    ++ flat_map (fun p => [SlowFuncs.translate QPainterPath (fst p) (snd p);
                           SlowFuncs.drawPath path;
                           SlowFuncs.translate QPainterPath (- fst p) (- snd p)])
         (combine x y).
Proof.
  unfold SlowFuncs.plotPathsToPainter. revert painter.
  induction (combine x y) as [|[xp yp] l IH]; intros painter; cbn [fold_left flat_map].
  - symmetry. apply app_nil_r.
  - rewrite IH, <- app_assoc. reflexivity.
Qed.

Lemma origin_app (p1 p2 : SlowFuncs.QPainter QPainterPath) o :
  SlowFuncs.origin (p1 ++ p2) o = SlowFuncs.origin p2 (SlowFuncs.origin p1 o).
Proof. apply fold_left_app. Qed.

Lemma pathsDrawnAt_app (p1 p2 : SlowFuncs.QPainter QPainterPath) :
  forall o,
    SlowFuncs.pathsDrawnAt (p1 ++ p2) o
    = SlowFuncs.pathsDrawnAt p1 o
      ++ SlowFuncs.pathsDrawnAt p2 (SlowFuncs.origin p1 o).
Proof.
  induction p1 as [|c p1 IH]; intros o; [reflexivity|].
  destruct c; cbn [app SlowFuncs.pathsDrawnAt]; rewrite IH; reflexivity.
Qed.

Lemma paths_block path (l : list (Q * Q)) :
  forall o o0,
    Qpair_eq o o0 ->
    let block :=
      flat_map (fun p => [SlowFuncs.translate QPainterPath (fst p) (snd p);
                          SlowFuncs.drawPath path;
                          SlowFuncs.translate QPainterPath (- fst p) (- snd p)]) l in
    Qpair_eq (SlowFuncs.origin block o) o0 /\
    Forall2 Qpair_eq (SlowFuncs.pathsDrawnAt block o)
            (map (fun p => (fst o0 + fst p, snd o0 + snd p)) l).
Proof.
  cbv zeta. induction l as [|[xp yp] l IH]; intros o o0 Ho.
  - split; [exact Ho | constructor].
  - cbn [flat_map app SlowFuncs.pathsDrawnAt map fst snd].
    unfold SlowFuncs.origin. cbn [fold_left fst snd].
    fold (SlowFuncs.origin (QPainterPath := QPainterPath)).
    destruct Ho as (H1 & H2).
    destruct (IH (fst o + xp + - xp, snd o + yp + - yp) o0) as (Hor & Hat).
    { split; cbn [fst snd]; [rewrite <- H1 | rewrite <- H2]; ring. }
    split; [exact Hor|].
    constructor; [|exact Hat].
    split; cbn [fst snd]; [rewrite H1 | rewrite H2]; reflexivity.
Qed.

(** X20: [plotPathsToPainter] draws the path once per (x, y) pair, as
    many times as the shorter of the two arrays is long, after the
    calls the painter already received; in exact arithmetic each copy
    is drawn with the origin moved by that pair from where it was on
    entry, and the origin is back there on return. *)
Theorem X20_paths_drawn_and_origin_restored (painter : SlowFuncs.QPainter QPainterPath)
    path x y o :
  let painter' := SlowFuncs.plotPathsToPainter painter path x y in
  let o1 := SlowFuncs.origin painter o in
  exists added,
    painter' = painter ++ added /\
    length added = (3 * Nat.min (length x) (length y))%nat /\
    Qpair_eq (SlowFuncs.origin painter' o) o1 /\
    Forall2 Qpair_eq (SlowFuncs.pathsDrawnAt added o1)
            (map (fun p => (fst o1 + fst p, snd o1 + snd p)) (combine x y)).
Proof.
  cbv zeta. rewrite plotPathsToPainter_eq. eexists. split; [reflexivity|].
  split.
  { rewrite <- length_combine. induction (combine x y) as [|p l IH]; [reflexivity|].
    cbn [flat_map app length] in *. rewrite IH. lia. }
  rewrite origin_app.
  apply paths_block. split; reflexivity.
Qed.

Lemma fold_lines (l : list (Q * Q * Q * Q)) :
  forall acc,
    fold_left
      (fun lines '(a, b, c, d) =>
         lines ++ [{| SlowFuncs.x1 := a; SlowFuncs.y1 := b;
                      SlowFuncs.x2 := c; SlowFuncs.y2 := d |}]) l acc
    = acc ++ map (fun '(a, b, c, d) =>
                    {| SlowFuncs.x1 := a; SlowFuncs.y1 := b;
                       SlowFuncs.x2 := c; SlowFuncs.y2 := d |}) l.
Proof.
  induction l as [|[[[a b] c] d] l IH]; intros acc; cbn [fold_left map].
  - symmetry. apply app_nil_r.
  - rewrite IH, <- app_assoc. reflexivity.
Qed.

(** X21: [plotLinesToPainter] makes exactly one [drawLines] call, even
    for empty arrays; it carries as many lines as the shortest of the
    four arrays is long, line [i] running from [(x1[i], y1[i])] to
    [(x2[i], y2[i])]; [clip] and [autoexpand] are not looked at. *)
Theorem X21_lines_one_call (painter : SlowFuncs.QPainter QPainterPath)
    x1 y1 x2 y2 clip autoexpand :
  exists lines,
    SlowFuncs.plotLinesToPainter painter x1 y1 x2 y2 clip autoexpand
    = painter ++ [SlowFuncs.drawLines QPainterPath lines] /\
    length lines
    = Nat.min (Nat.min (Nat.min (length x1) (length y1)) (length x2)) (length y2) /\
    (forall i a b c d,
        nth_error x1 i = Some a -> nth_error y1 i = Some b ->
        nth_error x2 i = Some c -> nth_error y2 i = Some d ->
        nth_error lines i
        = Some {| SlowFuncs.x1 := a; SlowFuncs.y1 := b;
                  SlowFuncs.x2 := c; SlowFuncs.y2 := d |}) /\
    forall clip' autoexpand',
      SlowFuncs.plotLinesToPainter painter x1 y1 x2 y2 clip' autoexpand'
      = painter ++ [SlowFuncs.drawLines QPainterPath lines].
Proof.
  unfold SlowFuncs.plotLinesToPainter. cbv zeta. rewrite fold_lines. cbn [app].
  eexists. split; [reflexivity|].
  split; [rewrite length_map, !length_combine; reflexivity|].
  split; [|reflexivity].
  intros i a b c d Ha Hb Hc Hd.
  rewrite nth_error_map.
  assert (H : nth_error (combine (combine (combine x1 y1) x2) y2) i
              = Some (a, b, c, d)).
  { clear - Ha Hb Hc Hd. revert x1 y1 x2 y2 Ha Hb Hc Hd.
    induction i as [|i IH]; intros [|a' x1] [|b' y1] [|c' x2] [|d' y2];
      cbn [nth_error combine]; try discriminate.
    - intros [= ->] [= ->] [= ->] [= ->]. reflexivity.
    - apply IH. }
  rewrite H. reflexivity.
Qed.

End PainterFacts.

(** *** [addNumpyToPolygonF] *)

Lemma pairs_rows (f g : nat -> Q) (l : list nat) :
  SlowFuncs.pairs (concat (map (fun i => [f i; g i]) l))
  = map (fun i => (f i, g i)) l.
Proof.
  induction l as [|i l IH]; [reflexivity|].
  cbn [map concat app SlowFuncs.pairs]. rewrite IH. reflexivity.
Qed.

Lemma combine_by_index (xs ys : list Q) :
  map (fun i => (nth i xs 0, nth i ys 0))
      (seq 0 (Nat.min (length xs) (length ys)))
  = combine xs ys.
Proof.
  revert ys. induction xs as [|a xs IH]; intros [|b ys]; try reflexivity.
  cbn [length Nat.min seq map combine nth].
  rewrite <- seq_shift, map_map. cbn [nth]. rewrite IH. reflexivity.
Qed.

Lemma length_pairs (l : list Q) : length (SlowFuncs.pairs l) = (length l / 2)%nat.
Proof.
  enough (H : forall n l, (length l <= n)%nat ->
                          length (SlowFuncs.pairs l) = (length l / 2)%nat)
    by (apply (H (length l)); lia).
  clear l. induction n as [|n IH]; intros l Hl.
  - destruct l; [reflexivity | simpl in Hl; lia].
  - destruct l as [|a [|b l]]; [reflexivity | reflexivity |].
    cbn [SlowFuncs.pairs length] in *. rewrite IH by lia.
    change (S (S (length l))) with (1 * 2 + length l)%nat.
    rewrite Nat.div_add_l by lia. lia.
Qed.

Lemma length_concat_rows {A} (f : nat -> list A) (k : nat) (l : list nat) :
  (forall i, length (f i) = k) -> length (concat (map f l)) = (length l * k)%nat.
Proof.
  intros Hf. induction l as [|i l IH]; [reflexivity|].
  cbn [map concat]. rewrite length_app, Hf, IH. simpl. lia.
Qed.

(** X22: [addNumpyToPolygonF] on an x and a y array appends the points
    [(x[i], y[i])] in order, as many as the shorter array is long, and
    keeps what the polygon held; on two pairs of arrays it appends for
    each index the point of the first pair and then the point of the
    second. *)
Theorem X22_arrays_to_points (poly : SlowFuncs.QPolygonF) (xs ys xs' ys' : list Q) :
  SlowFuncs.addNumpyToPolygonF poly [xs; ys]
  = inl (poly ++ map (fun p => {| SlowFuncs.x := fst p; SlowFuncs.y := snd p |})
                     (combine xs ys)) /\
  SlowFuncs.addNumpyToPolygonF poly [xs; ys; xs'; ys']
  = inl (poly ++ flat_map
                   (fun '(a, b, c, d) =>
                      [{| SlowFuncs.x := a; SlowFuncs.y := b |};
                       {| SlowFuncs.x := c; SlowFuncs.y := d |}])
                   (combine (combine (combine xs ys) xs') ys')).
Proof.
  split.
  - unfold SlowFuncs.addNumpyToPolygonF. cbn [map fold_left length].
    rewrite Nat.div_mul, Nat.eqb_refl by lia.
    rewrite (pairs_rows (fun i => nth i xs 0) (fun i => nth i ys 0)).
    rewrite combine_by_index.
    apply f_equal.
    apply (fold_append_map
             (fun p => {| SlowFuncs.x := fst p; SlowFuncs.y := snd p |})).
  - unfold SlowFuncs.addNumpyToPolygonF. cbn [map fold_left length].
    set (n := Nat.min (Nat.min (Nat.min (length xs) (length ys)) (length xs'))
                      (length ys')).
    replace (n * 4 / 2 * 2)%nat with (n * 4)%nat
      by (replace (n * 4)%nat with (n * 2 * 2)%nat by lia;
          rewrite Nat.div_mul by lia; reflexivity).
    rewrite Nat.eqb_refl.
    rewrite (fold_append_map
               (fun p => {| SlowFuncs.x := fst p; SlowFuncs.y := snd p |})).
    do 2 apply f_equal. subst n.
    revert ys xs' ys'.
    induction xs as [|a xs IH]; intros [|b ys] [|c xs'] [|d ys']; try reflexivity.
    cbn [length Nat.min seq map concat app SlowFuncs.pairs combine flat_map nth
         fst snd].
    do 2 f_equal.
    rewrite <- seq_shift, map_map. cbn [nth]. apply IH.
Qed.

(** X23: when [addNumpyToPolygonF] fails.  With no arrays it raises
    ([min] of an empty list); with arrays it raises exactly when the
    number of values taken, the shortest length times the number of
    arrays, is odd (the reshape into pairs fails), for instance for a
    single array of odd length; otherwise it appends half that many
    points and keeps what the polygon held. *)
Theorem X23_arrays_failures (poly : SlowFuncs.QPolygonF) (a : list Q)
    (args : list (list Q)) :
  let minlen := fold_left Nat.min (map (@length Q) args) (length a) in
  let values := (minlen * S (length args))%nat in
  SlowFuncs.addNumpyToPolygonF poly [] = inr SlowFuncs.ValueError /\
  (Nat.odd values = true ->
   SlowFuncs.addNumpyToPolygonF poly (a :: args) = inr SlowFuncs.ValueError) /\
  (Nat.odd values = false ->
   exists added,
     SlowFuncs.addNumpyToPolygonF poly (a :: args) = inl (poly ++ added) /\
     length added = (values / 2)%nat).
Proof.
  cbv zeta. split; [reflexivity|].
  unfold SlowFuncs.addNumpyToPolygonF. cbn [map length].
  set (minlen := fold_left Nat.min (map (@length Q) args) (length a)).
  set (values := (minlen * S (length args))%nat).
  pose proof (Nat.div_mod_eq values 2) as Hdm.
  assert (Hodd : Nat.odd values = (values mod 2 =? 1)%nat).
  { destruct (Nat.odd values) eqn:E.
    - apply Nat.odd_spec in E. destruct E as [k Hk].
      rewrite Hk, Nat.add_comm, Nat.mul_comm, Nat.Div0.mod_add. reflexivity.
    - unfold Nat.odd in E. apply negb_false_iff in E.
      apply Nat.even_spec in E. destruct E as [k Hk].
      rewrite Hk, Nat.mul_comm, Nat.Div0.mod_mul. reflexivity. }
  split.
  - intros Ho. rewrite Hodd in Ho. apply Nat.eqb_eq in Ho.
    destruct (Nat.eqb_spec (values / 2 * 2) values) as [He|_]; [lia | reflexivity].
  - intros He. rewrite Hodd in He. apply Nat.eqb_neq in He.
    pose proof (Nat.mod_upper_bound values 2).
    destruct (Nat.eqb_spec (values / 2 * 2) values) as [_|Hne]; [|lia].
    rewrite (fold_append_map
               (fun p => {| SlowFuncs.x := fst p; SlowFuncs.y := snd p |})).
    eexists. split; [reflexivity|].
    rewrite length_map, length_pairs.
    rewrite (@length_concat_rows _ _ (S (length args))).
    + rewrite length_seq. reflexivity.
    + intros i. cbn [map length]. rewrite length_map. reflexivity.
Qed.


(** * Facts about [document/doc.py] *)

Section DocumentFacts.
Variable Dataset : Type.
Variable Widget : Type.
Variable Root : Widget.

Lemma modifications_app (s1 s2 : list Doc.Signal) :
  Doc.modifications (s1 ++ s2) = Doc.modifications s1 ++ Doc.modifications s2.
Proof. apply flat_map_app. Qed.

Lemma counted_setModified b (d : Doc.Document Dataset Widget) :
  Doc.changeset d = length (Doc.modifications (Doc.emitted d)) ->
  Doc.counted (Doc.setModified b d).
Proof.
  intros Hc. unfold Doc.counted, Doc.setModified, Doc.emit.
  cbn [Doc.changeset Doc.emitted Doc.modified].
  rewrite modifications_app. cbn [Doc.modifications flat_map app].
  rewrite length_app, last_last. cbn [length]. split; [lia | reflexivity].
Qed.

Lemma counted_perform (d : Doc.Document Dataset Widget) (c : Doc.Call Dataset) :
  Doc.counted d -> Doc.counted (Doc.perform Root d c).
Proof.
  intros (Hc & _). destruct c as [|name dataset|b]; cbn [Doc.perform].
  - unfold Doc.wipe. cbv zeta.
    destruct (counted_setModified true
                {| Doc.changeset := Doc.changeset d; Doc.data := [];
                   Doc.basewidget := Root; Doc.modified := Doc.modified d;
                   Doc.emitted := Doc.emitted d |} Hc) as (H1 & H2).
    unfold Doc.counted, Doc.emit. cbn [Doc.changeset Doc.emitted Doc.modified].
    rewrite modifications_app. cbn [Doc.modifications flat_map].
    rewrite app_nil_r. split; assumption.
  - unfold Doc.setData. cbv zeta. apply counted_setModified. exact Hc.
  - apply counted_setModified. exact Hc.
Qed.

(** X24: the document keeps count of its modifications.  From
    [__init__] on, after any sequence of [wipe], [setData] and
    [setModified] calls, [changeset] equals the number of [sigModified]
    signals emitted, which is one more than the number of calls made
    (a new document is at change 1, not 0), and the [modified] flag is
    the argument of the last [sigModified] emitted. *)
Theorem X24_changeset_counts_signals (cs : list (Doc.Call Dataset)) :
  let d := fold_left (Doc.perform Root) cs (Doc.__init__ Dataset Root) in
  Doc.changeset d = length (Doc.modifications (Doc.emitted d)) /\
  Doc.changeset d = S (length cs) /\
  last (Doc.modifications (Doc.emitted d)) false = Doc.isModified d.
Proof.
  cbv zeta.
  assert (H : forall (l : list (Doc.Call Dataset)) d0,
             Doc.counted d0 ->
             Doc.counted (fold_left (Doc.perform Root) l d0) /\
             Doc.changeset (fold_left (Doc.perform Root) l d0)
             = (Doc.changeset d0 + length l)%nat).
  { induction l as [|c l IH]; intros d0 H0; cbn [fold_left length].
    - split; [exact H0 | lia].
    - destruct (IH _ (counted_perform c H0)) as (H1 & H2).
      split; [exact H1|]. rewrite H2.
      destruct c; cbn; lia. }
  destruct (H cs (Doc.__init__ Dataset Root)) as ((H1 & H2) & H3).
  { split; reflexivity. }
  split; [exact H1|]. split; [rewrite H3; reflexivity | exact H2].
Qed.

Lemma lookup_store_same (d : Doc.Dict Dataset) name dataset :
  Doc.lookup (Doc.store d name dataset) name = Some dataset.
Proof. unfold Doc.store. cbn. rewrite String.eqb_refl. reflexivity. Qed.

Lemma lookup_store_other (d : Doc.Dict Dataset) name dataset other :
  other <> name ->
  Doc.lookup (Doc.store d name dataset) other = Doc.lookup d other.
Proof.
  intros Hne. unfold Doc.store. cbn [Doc.lookup].
  destruct (String.eqb_spec name other) as [->|_]; [contradiction|].
  induction d as [|[k v] d IH]; [reflexivity|].
  cbn [filter fst Doc.lookup].
  destruct (String.eqb_spec k name) as [->|Hk]; cbn [negb].
  - destruct (String.eqb_spec name other) as [->|_]; [contradiction | exact IH].
  - cbn [Doc.lookup]. destruct (String.eqb k other); [reflexivity | exact IH].
Qed.

(** X25: datasets by name.  After [setData(name, dataset)],
    [getData(name)] returns that dataset and [hasData(name)] holds,
    whatever was stored under the name before; every other name is
    unaffected; the document is marked modified.  [getData] raises
    [KeyError] exactly for the names [hasData] denies, and after
    [wipe] that is every name. *)
Theorem X25_datasets_by_name (d : Doc.Document Dataset Widget) name dataset other :
  let d' := Doc.setData name dataset d in
  Doc.getData name d' = inl dataset /\
  Doc.hasData name d' = true /\
  Doc.isModified d' = true /\
  (other <> name ->
   Doc.getData other d' = Doc.getData other d /\
   Doc.hasData other d' = Doc.hasData other d) /\
  (Doc.hasData other d = false <-> Doc.getData other d = inr Doc.KeyError) /\
  Doc.hasData other (Doc.wipe Root d) = false.
Proof.
  cbv zeta. unfold Doc.getData, Doc.hasData, Doc.setData, Doc.setModified, Doc.emit.
  cbn [Doc.data Doc.isModified Doc.modified].
  rewrite lookup_store_same.
  split; [reflexivity|]. split; [reflexivity|]. split; [reflexivity|].
  split; [intros Hne; rewrite (lookup_store_other _ _ Hne); split; reflexivity|].
  split; [|reflexivity].
  destruct (Doc.lookup (Doc.data d) other); split; congruence.
Qed.

End DocumentFacts.


(** ** Printing *)

Section PrintFacts.
Variable Dataset : Type.
Variable Widget : Type.
Variable Page : Type.
Variable Distance : Type.
Variable children : Widget -> list Page.
Variable width height : Widget -> Distance.
Variable cnvtDists : Distance * Distance -> Q -> Q * Q.

Lemma getitem_range {A} (l : list A) (p : Z) :
  Doc.getitem l p <> None <->
  (- Z.of_nat (length l) <= p < Z.of_nat (length l))%Z.
Proof.
  unfold Doc.getitem. cbv zeta.
  destruct (Z.leb_spec 0 p), (Z.ltb_spec p (Z.of_nat (length l)));
    cbn [andb].
  - rewrite nth_error_Some. lia.
  - destruct (Z.leb_spec (- Z.of_nat (length l)) p), (Z.ltb_spec p 0);
      cbn [andb]; try lia; split; try congruence; lia.
  - destruct (Z.leb_spec (- Z.of_nat (length l)) p), (Z.ltb_spec p 0);
      cbn [andb]; try lia.
    + rewrite nth_error_Some. lia.
    + split; [congruence | lia].
  - destruct (Z.leb_spec (- Z.of_nat (length l)) p), (Z.ltb_spec p 0);
      cbn [andb]; try lia; split; try congruence; lia.
Qed.

Lemma printPages_all (cl : list Page) bounds (no : Z) :
  forall pages cs i printer,
    Forall2 (fun p c => Doc.getitem cl p = Some c) pages cs ->
    (i + Z.of_nat (length pages) = no)%Z ->
    Doc.printPages cl bounds no pages i printer
    = (inl tt, printer ++ Doc.separated (map (fun c => Doc.draw c bounds) cs)).
Proof.
  induction pages as [|p pages IH]; intros cs i printer Hall Hno.
  - inversion Hall; subst. cbn. rewrite app_nil_r. reflexivity.
  - inversion Hall as [|p' c pages' cs' Hp Hrest]; subst.
    cbn [Doc.printPages]. rewrite Hp. cbv zeta.
    destruct pages as [|q pages].
    + inversion Hrest; subst. cbn [length] in *.
      destruct (Z.ltb_spec i (i + Z.of_nat 1 - 1)); [lia|]. reflexivity.
    + inversion Hrest as [|q' c' ? cs'' Hq Hrest']; subst.
      destruct (Z.ltb_spec i (i + Z.of_nat (length (p :: q :: pages)) - 1));
        [|cbn [length] in *; lia].
      rewrite (IH (c' :: cs'')); [|exact Hrest | cbn [length] in *; lia].
      cbn [map Doc.separated]. rewrite <- !app_assoc. reflexivity.
Qed.

Lemma printPages_some (cl : list Page) bounds (no : Z) pages :
  forall done cs i printer,
    Forall2 (fun p c => Doc.getitem cl p = Some c) done cs ->
    (i + Z.of_nat (length done) < no)%Z ->
    Doc.printPages cl bounds no (done ++ pages) i printer
    = Doc.printPages cl bounds no pages (i + Z.of_nat (length done))%Z
        (printer ++ flat_map (fun c => [Doc.draw c bounds; Doc.newPage Page]) cs).
Proof.
  induction done as [|p done IH]; intros cs i printer Hall Hno.
  - inversion Hall; subst. cbn. rewrite app_nil_r, Z.add_0_r. reflexivity.
  - inversion Hall as [|p' c done' cs' Hp Hrest]; subst.
    cbn [app Doc.printPages]. rewrite Hp. cbv zeta.
    cbn [length] in Hno.
    destruct (Z.ltb_spec i (no - 1)); [|lia].
    rewrite (IH cs'); [|exact Hrest | lia].
    cbn [flat_map length]. rewrite <- !app_assoc. cbn [app].
    f_equal. lia.
Qed.

(** X26: what [printTo] sends to the device.  When every page number
    is a valid index into the children of the root widget (negative
    numbers counting from the end), it returns, having begun the
    painter, drawn the pages in the order given, each at bounds
    [(0, 0, width, height)], with exactly one [newPage] between two
    consecutive pages and none after the last, and ended the painter.
    At the first page number out of range it raises [IndexError]: the
    pages before it have been drawn, each followed by a [newPage], and
    the painter is not ended.  A page number is in range exactly when
    it lies in [-n, n) for [n] children. *)
Theorem X26_printTo_pages (self : Doc.Document Dataset Widget)
    (printer : list (Doc.PrinterCall Page)) (scaling : Q) :
  let cl := children (Doc.basewidget self) in
  let size := cnvtDists (Doc.getSize width height self) scaling in
  let bounds := (0, 0, fst size, snd size) in
  let print := Doc.printTo children width height cnvtDists self printer in
  (forall pages cs,
      Forall2 (fun p c => Doc.getitem cl p = Some c) pages cs ->
      print pages scaling
      = (inl tt,
         printer ++ [Doc.painter_begin Page]
           ++ Doc.separated (map (fun c => Doc.draw c bounds) cs)
           ++ [Doc.painter_end Page])) /\
  (forall done cs p rest,
      Forall2 (fun p c => Doc.getitem cl p = Some c) done cs ->
      Doc.getitem cl p = None ->
      print (done ++ p :: rest) scaling
      = (inr Doc.IndexError,
         printer ++ [Doc.painter_begin Page]
           ++ flat_map (fun c => [Doc.draw c bounds; Doc.newPage Page]) cs)) /\
  (forall p,
      Doc.getitem cl p <> None <->
      (- Z.of_nat (Doc.getNumberPages children self) <= p
       < Z.of_nat (Doc.getNumberPages children self))%Z).
Proof.
  cbv zeta. unfold Doc.printTo. cbv zeta.
  destruct (cnvtDists (Doc.getSize width height self) scaling) as [w h].
  cbn [fst snd].
  split; [|split].
  - intros pages cs Hall.
    rewrite (@printPages_all _ _ _ _ _ _ _ Hall) by lia.
    rewrite <- !app_assoc. reflexivity.
  - intros done cs p rest Hall Hp.
    rewrite (@printPages_some _ _ _ (p :: rest) _ _ _ _ Hall)
      by (rewrite length_app; cbn [length]; lia).
    cbn [Doc.printPages]. rewrite Hp. rewrite <- !app_assoc. reflexivity.
  - intros p. apply getitem_range.
Qed.

End PrintFacts.
